(** * Edge TTS relay (speech endpoint): a shallow embedding and its properties

    The development follows the speech edge function of the repository
    (the file holding [onRequest], [handleSpeechRequest], [streamVoice],
    [pipeChunksToStream], [getVoice], [getAudioChunk], [getEndpoint],
    [smartChunkText], [cleanText], [getSsml], [base64ToBytes],
    [bytesToBase64]).

    Conventions.
    - A JavaScript string is the list of its UTF-16 code units ([str]);
      [String.prototype.length] is [length].
    - An awaited call that can reject is a value of [Settled].
    - What the outside world decides (provider answers, the order in which
      promises settle, whether a sink write succeeds, the clock) is a
      parameter of the function that observes it. *)

From Stdlib Require Import Ascii String.
From Stdlib Require Import List NArith ZArith Bool Arith Lia Permutation.
From Stdlib Require DecimalString.
Import ListNotations.

Set Implicit Arguments.

(* ================================================================== *)
(** ** JavaScript strings *)
(* ================================================================== *)

Module JsString.

(** One UTF-16 code unit. *)
Definition unit16 := N.

Definition str := list unit16.

(** ASCII literals of the source, as code units. *)
Fixpoint js (s : string) : str :=
  match s with
  | EmptyString => []
  | String a rest => N_of_ascii a :: js rest
  end.

Definition str_eqb (a b : str) : bool :=
  if list_eq_dec N.eq_dec a b then true else false.

(** The character class of the split regex in [smartChunkText]:
    [[.?!,;:\n。？！，；：\r]].  The regex has no [u] flag, so it is matched
    code unit by code unit; every member is a single unit. *)
Definition is_boundary (c : unit16) : bool :=
  existsb (N.eqb c)
    [ 46  (* .  *) ; 63    (* ?  *) ; 33    (* !  *) ; 44    (* ,  *)
    ; 59  (* ;  *) ; 58    (* :  *) ; 10    (* \n *)
    ; 12290 (* U+3002 *) ; 65311 (* U+FF1F *) ; 65281 (* U+FF01 *)
    ; 65292 (* U+FF0C *) ; 65307 (* U+FF1B *) ; 65306 (* U+FF1A *)
    ; 13  (* \r *) ]%N.

(** What [String.prototype.trim] strips: ECMAScript WhiteSpace and
    LineTerminator code points (all in the BMP). *)
Definition is_white (c : unit16) : bool :=
  existsb (N.eqb c)
    [ 9; 10; 11; 12; 13; 32; 160; 5760; 8232; 8233; 8239; 8287; 12288; 65279 ]%N
  || ((8192 <=? c) && (c <=? 8202))%N.

Fixpoint drop_white (s : str) : str :=
  match s with
  | [] => []
  | c :: rest => if is_white c then drop_white rest else s
  end.

(** [s.trim()] *)
Definition trim (s : str) : str := rev (drop_white (rev (drop_white s))).

(** [s.substring(i, j)] for [0 <= i <= j]. *)
Definition substring (s : str) (i j : nat) : str := firstn (j - i) (skipn i s).

(** The characters of a string that are not white space, in order. *)
Definition content (s : str) : str := filter (fun c => negb (is_white c)) s.

End JsString.

Import JsString.

(* ================================================================== *)
(** ** JavaScript values of a parsed request *)
(* ================================================================== *)

Module JsValue.

(** A value produced by [request.json()] or by reading a property.
    [JNumber] is a number with an integer value, [JFraction] any other
    number (never zero); [JBuiltin] is a function or object inherited from
    [Object.prototype], named by its property. *)
#[local] Unset Elimination Schemes.
Inductive value :=
| JUndefined
| JNull
| JBool (b : bool)
| JNumber (n : Z)
| JFraction (literal : str)
| JString (s : str)
| JArray (items : list value)
| JObject (fields : list (str * value))
| JBuiltin (name : str).
#[local] Set Elimination Schemes.

(** ToBoolean. *)
Definition truthy (v : value) : bool :=
  match v with
  | JUndefined | JNull => false
  | JBool b => b
  | JNumber n => negb (n =? 0)%Z
  | JString s => match s with [] => false | _ => true end
  | JFraction _ | JArray _ | JObject _ | JBuiltin _ => true
  end.

(** Own property of an object literal or of a parsed JSON object; a key
    occurs once. *)
Fixpoint own (fields : list (str * value)) (key : str) : option value :=
  match fields with
  | [] => None
  | (k, v) :: rest => if str_eqb k key then Some v else own rest key
  end.

(** [v.key] for the request-field names (none of them is defined on a
    prototype): [None] is the TypeError of reading a property of [null]
    or [undefined]. *)
Definition property (v : value) (key : str) : option value :=
  match v with
  | JUndefined | JNull => None
  | JObject fields =>
      Some (match own fields key with Some x => x | None => JUndefined end)
  | _ => Some JUndefined
  end.

(** A destructuring default [{ key = d } = v]: used when the property is
    [undefined], and only then. *)
Definition with_default (v : value) (key : str) (d : value) : value :=
  match property v key with
  | Some JUndefined | None => d
  | Some x => x
  end.

(** The names every object inherits from [Object.prototype]. *)
Definition object_prototype_names : list str :=
  map js [ "constructor"; "__defineGetter__"; "__defineSetter__";
           "hasOwnProperty"; "__lookupGetter__"; "__lookupSetter__";
           "isPrototypeOf"; "propertyIsEnumerable"; "toString"; "valueOf";
           "__proto__"; "toLocaleString" ]%string.

(** [obj[key]] for an object literal [obj] with the given own fields. *)
Definition literal_get (fields : list (str * value)) (key : str) : value :=
  match own fields key with
  | Some x => x
  | None =>
      if existsb (str_eqb key) object_prototype_names
      then JBuiltin key else JUndefined
  end.

Fixpoint starts_with (p s : str) : bool :=
  match p, s with
  | [], _ => true
  | _ :: _, [] => false
  | a :: p', b :: s' => (a =? b)%N && starts_with p' s'
  end.

(** [s.replace(pattern, '')] with a non-empty string pattern: the first
    occurrence is removed. *)
Fixpoint remove_first (pattern s : str) : str :=
  match s with
  | [] => []
  | c :: rest =>
      if starts_with pattern s then skipn (length pattern) s
      else c :: remove_first pattern rest
  end.

(** The fields of an object, [key] removed. *)
Definition without (fields : list (str * value)) (key : str)
  : list (str * value) :=
  filter (fun kv => negb (str_eqb (fst kv) key)) fields.

(** A JSON number usable as a count. *)
Definition to_count (v : value) : option nat :=
  match v with
  | JNumber n => if (0 <=? n)%Z then Some (Z.to_nat n) else None
  | _ => None
  end.

End JsValue.

Import JsValue.

(* ================================================================== *)
(** ** The chunker: [smartChunkText] *)
(* ================================================================== *)

Module Chunker.

(** [text.split(/([.?!,;:\n。？！，；：\r]+)/g)].

    With one capture group the result alternates pieces and separators:
    piece, separator, piece, ..., piece.  A separator is a maximal run of
    boundary units; the first and last pieces are empty when the text
    starts or ends with a separator.

    [pieces m s] scans [s]; [m] tells whether the scan is inside a
    separator run.  The head of the result is what remains of the part
    being scanned. *)
Inductive mode := InPiece | InSep.

Definition push_head (c : unit16) (ps : list str) : list str :=
  match ps with
  | [] => [[c]]
  | p :: rest => (c :: p) :: rest
  end.

Fixpoint pieces (m : mode) (s : str) : list str :=
  match s with
  | [] => match m with InPiece => [[]] | InSep => [[]; []] end
  | c :: rest =>
      match m, is_boundary c with
      | InPiece, false => push_head c (pieces InPiece rest)
      | InPiece, true  => [] :: push_head c (pieces InSep rest)
      | InSep,   true  => push_head c (pieces InSep rest)
      | InSep,   false => [] :: push_head c (pieces InPiece rest)
      end
  end.

Definition split_sentences (text : str) : list str := pieces InPiece text.

(** State of the accumulation loop: the chunks pushed so far and
    [currentChunk]. *)
Record acc := { chunks_of : list str; current : str }.

(** [if (currentChunk.trim()) chunks.push(currentChunk.trim())]:
    the empty string is the only falsy string. *)
Definition flush (chunks : list str) (cur : str) : list str :=
  match trim cur with
  | [] => chunks
  | t => chunks ++ [t]
  end.

(** One iteration of [for (const part of sentences)]. *)
Definition accumulate (maxChunkLength : nat) (a : acc) (part : str) : acc :=
  if length (current a) + length part <=? maxChunkLength
  then {| chunks_of := chunks_of a; current := current a ++ part |}
  else {| chunks_of := flush (chunks_of a) (current a); current := part |}.

Definition greedy (text : str) (maxChunkLength : nat) : list str :=
  let a := fold_left (accumulate maxChunkLength) (split_sentences text)
                     {| chunks_of := []; current := [] |} in
  flush (chunks_of a) (current a).

(** [for (let i = 0; i < text.length; i += maxChunkLength)
       chunks.push(text.substring(i, i + maxChunkLength))].
    [None] when the fuel is used up before [i] reaches the length. *)
Fixpoint slices (fuel : nat) (text : str) (maxChunkLength i : nat)
  : option (list str) :=
  if length text <=? i then Some []
  else match fuel with
       | 0 => None
       | S fuel' =>
           match slices fuel' text maxChunkLength (i + maxChunkLength) with
           | Some rest => Some (substring text i (i + maxChunkLength) :: rest)
           | None => None
           end
       end.

(** [smartChunkText(text, maxChunkLength)].  The slicing loop makes at most
    [text.length] iterations whenever the step is positive, so that much
    fuel is given; [None] stands for the loop that never ends (step [0]). *)
Definition smartChunkText (text : str) (maxChunkLength : nat)
  : option (list str) :=
  match text with
  | [] => Some []
  | _ =>
      let chunks := greedy text maxChunkLength in
      let chunks' :=
        match chunks with
        | [] => slices (length text) text maxChunkLength 0
        | _ => Some chunks
        end in
      option_map (filter (fun chunk => 0 <? length chunk)) chunks'
  end.

(** [woven chunks text]: the text is the chunks in their order, with
    white space (possibly none) before, between and after them. *)
Inductive woven : list str -> str -> Prop :=
| woven_end gap :
    forallb is_white gap = true -> woven [] gap
| woven_chunk gap chunk chunks rest :
    forallb is_white gap = true ->
    woven chunks rest ->
    woven (chunk :: chunks) (gap ++ chunk ++ rest).

End Chunker.

Import Chunker.

(* ================================================================== *)
(** ** Errors, settled promises, outcomes of a call *)
(* ================================================================== *)

Module Async.

(** [Error.message].  Each template string of the source is a
    constructor; [Foreign] is the message of an error raised by the
    platform (a rejected [fetch], an unreadable body, ...). *)
Inductive Message :=
| Foreign (text : str)
| TypeError
| ProviderRefused (status : nat) (statusText errorText : str)
    (* Edge TTS API ...: ${status} ${statusText} - ${errorText} *)
| HandshakeRefused (status : nat) (statusText errorText : str)
    (* thrown when the handshake response is not ok *)
| JwtParseFailed (cause : Message)
| EndpointFailed (cause : Message)     (* thrown by getEndpoint's outer catch *)
| StreamFailed (cause : Message)       (* thrown by pipeChunksToStream's catch *)
| StreamTtsFailed (cause : Message)    (* message of streamVoice's error response *)
| BufferedTtsFailed (cause : Message)  (* message of getVoice's error response *)
| MethodNotAllowed
| JsonParseError (cause : Message)
| InputRequired                        (* 'input' is a required parameter *)
| InvalidVoice (model voice modelVoice : value)
| InvalidApiKey
| ProcessingError (cause : Message)    (* message and stack of a caught error *).

(** A promise that has settled. *)
Inductive Settled (A : Type) :=
| Fulfilled (a : A)
| Rejected (e : Message).

Arguments Rejected {A} e.

(** How the call of an async function ends, seen by the code awaiting it.
    [Never]: the call does not come back (a loop that does not end, an
    awaited promise that does not settle).  [Outside]: the input is not
    covered by the embedding. *)
Inductive Outcome (A : Type) :=
| Returns (a : A)
| Throws (e : Message)
| Never
| Outside.

Arguments Throws {A} e.
Arguments Never {A}.
Arguments Outside {A}.

(** [Promise.all(promises)].

    [outcomes] lists, by position, how each promise settles; [order] lists
    the positions in the order in which they settle.  The result array is
    filled by position; the first rejection to arrive rejects the whole;
    the whole fulfils once every slot is filled. *)
Inductive Joined (A : Type) :=
| AllFulfilled (values : list A)
| AllRejected (e : Message)
| AllPending.

Arguments AllRejected {A} e.
Arguments AllPending {A}.

Fixpoint fill {A} (slots : list (option A)) (i : nat) (v : A) : list (option A) :=
  match slots, i with
  | [], _ => []
  | _ :: rest, 0 => Some v :: rest
  | s :: rest, S i' => s :: fill rest i' v
  end.

Fixpoint collect {A} (slots : list (option A)) : option (list A) :=
  match slots with
  | [] => Some []
  | None :: _ => None
  | Some v :: rest => option_map (cons v) (collect rest)
  end.

Fixpoint arrivals {A} (order : list nat) (outcomes : list (Settled A))
         (slots : list (option A)) : Joined A :=
  match collect slots with
  | Some values => AllFulfilled values
  | None =>
      match order with
      | [] => AllPending
      | i :: later =>
          match nth_error outcomes i with
          | Some (Fulfilled v) => arrivals later outcomes (fill slots i v)
          | Some (Rejected e) => AllRejected e
          | None => arrivals later outcomes slots
          end
      end
  end.

Definition promise_all {A} (order : list nat) (outcomes : list (Settled A))
  : Joined A :=
  arrivals order outcomes (repeat None (length outcomes)).

(** Invariants of [arrivals].  Slots hold nothing but fulfilled values,
    each at its own position. *)
Definition sound_slots {A} (slots : list (option A))
           (outcomes : list (Settled A)) : Prop :=
  length slots = length outcomes
  /\ forall j v, nth_error slots j = Some (Some v) ->
                 nth_error outcomes j = Some (Fulfilled v).

(** Each empty slot is still to arrive. *)
Definition awaited {A} (slots : list (option A)) (order : list nat) : Prop :=
  forall j, nth_error slots j = Some None -> In j order.

End Async.

Import Async.

(* ================================================================== *)
(** ** The credential manager: [tokenInfo] and [getEndpoint] *)
(* ================================================================== *)

Module Credential.

(** The handshake's JSON answer [data]: the region [data.r] and the
    token [data.t] are the fields the code reads. *)
Record Endpoint := { r : str; t : str }.

(** [tokenInfo].  It is assigned as a whole, in two places: the initial
    [{ endpoint: null, token: null, expiredAt: null }] and
    [{ endpoint: data, token: data.t, expiredAt: decodedJwt.exp }].
    [expiredAt] holds [decodedJwt.exp] as [JSON.parse] gave it: any JSON
    value, or [undefined] when the claims have no [exp]. *)
Inductive TokenInfo :=
| NoToken
| Cached (endpoint : Endpoint) (expiredAt : value).

(** [TOKEN_REFRESH_BEFORE_EXPIRY = 5 * 60], in seconds. *)
Definition TOKEN_REFRESH_BEFORE_EXPIRY : Z := 5 * 60.

(** Truthiness of [tokenInfo.token]. *)
Definition has_token (ti : TokenInfo) : bool :=
  match ti with
  | NoToken => false
  | Cached e _ => match t e with [] => false | _ => true end
  end.

(** [now < expiredAt - TOKEN_REFRESH_BEFORE_EXPIRY] with
    [now = Date.now() / 1000] for an [expiredAt] that is an integer
    number; [now_ms] is [Date.now()], an integer number of milliseconds,
    [expiredAt] a number of seconds. *)
Definition fresh_at (now_ms : Z) (expiredAt : Z) : bool :=
  (now_ms <? 1000 * (expiredAt - TOKEN_REFRESH_BEFORE_EXPIRY))%Z.

(** How one refresh attempt goes, from [sign] to the decoded token.
    [Granted data exp]: the claims were decoded and [exp] is
    [decodedJwt.exp], whatever it is. *)
Inductive Handshake :=
| SignFailed (e : Message)          (* sign() rejected: no request is sent *)
| CallFailed (e : Message)          (* fetch or response.json() rejected *)
| Refused (status : nat) (statusText errorText : str)   (* !response.ok *)
| JwtFailed (e : Message)           (* the token could not be decoded *)
| ClaimsNull                        (* decodedJwt is null: .exp cannot be read *)
| Granted (data : Endpoint) (exp : value).

(** Whether the attempt sent a request to the handshake endpoint. *)
Definition sent_request (h : Handshake) : bool :=
  match h with SignFailed _ => false | _ => true end.


(** The outer [catch]: serve the cached endpoint when there is a token,
    rethrow otherwise.  [ti] is [tokenInfo] when the handler runs. *)
Definition on_failure (ti : TokenInfo) (e : Message) : Settled Endpoint :=
  match ti with
  | Cached endpoint _ =>
      if has_token ti then Fulfilled endpoint else Rejected (EndpointFailed e)
  | NoToken => Rejected (EndpointFailed e)
  end.

(** The end of a refresh attempt: the new [tokenInfo] and what the call
    settles to. *)
Definition conclude (ti : TokenInfo) (h : Handshake)
  : TokenInfo * Settled Endpoint :=
  match h with
  | Granted data exp => (Cached data exp, Fulfilled data)
  | SignFailed e | CallFailed e => (ti, on_failure ti e)
  | Refused s st b => (ti, on_failure ti (HandshakeRefused s st b))
  | JwtFailed e => (ti, on_failure ti (JwtParseFailed e))
  | ClaimsNull => (ti, on_failure ti TypeError)
  end.

(** How a call of [getEndpoint] leaves its first lines: with the cached
    endpoint, with an exception (they are outside every [try]), or on to
    the refresh. *)
Inductive Entry :=
| Served (endpoint : Endpoint)
| Thrown (e : Message)
| Refreshing.

(** *** Several calls in flight

    [getEndpoint] suspends twice: at [await sign(...)] and at
    [await fetch(...)] (the later awaits of the same attempt touch no
    shared state).  A call is [Idle] before it starts, [Signing] between
    the expiry check and the end of [sign], [InFlight] while its request
    is out, [Finished] after. *)
Inductive Task :=
| Idle
| Signing
| InFlight
| Finished (result : Settled Endpoint).

Record Config := {
  cache : TokenInfo;        (* the shared tokenInfo *)
  tasks : list Task;        (* the calls, by caller *)
  handshakes : nat          (* requests sent to the handshake endpoint *)
}.

Inductive Step :=
| Enter (i : nat) (now_ms : Z)     (* caller i runs up to the first await *)
| Signed (i : nat) (s : Settled str)  (* sign() settles for caller i *)
| Answered (i : nat) (h : Handshake). (* the request of caller i ends as h *)

Fixpoint set_task (ts : list Task) (i : nat) (x : Task) : list Task :=
  match ts, i with
  | [], _ => []
  | _ :: rest, 0 => x :: rest
  | y :: rest, S i' => y :: set_task rest i' x
  end.

Section Clock.

(** [now < expiredAt - TOKEN_REFRESH_BEFORE_EXPIRY] for a truthy
    [expiredAt] that is not an integer number (a string, [true], a
    number with a fraction, an array, an object): the subtraction puts
    [expiredAt] through ToNumber and the comparison is one of doubles,
    false when the number is NaN.  [None]: the conversion throws a
    TypeError (an object, or an array holding one, whose [valueOf] and
    [toString] are not functions). *)
Variable coerced_before : Z -> value -> option bool.

(** [now < tokenInfo.expiredAt - TOKEN_REFRESH_BEFORE_EXPIRY] *)
Definition before_expiry (now_ms : Z) (expiredAt : value) : option bool :=
  match expiredAt with
  | JNumber exp => Some (fresh_at now_ms exp)
  | other => coerced_before now_ms other
  end.

(** [tokenInfo.token && tokenInfo.expiredAt &&
     now < tokenInfo.expiredAt - TOKEN_REFRESH_BEFORE_EXPIRY];
    [None] when the last operand throws. *)
Definition still_valid (ti : TokenInfo) (now_ms : Z) : option bool :=
  match ti with
  | NoToken => Some false
  | Cached _ expiredAt =>
      if has_token ti && truthy expiredAt
      then before_expiry now_ms expiredAt
      else Some false
  end.

(** The first lines of [getEndpoint]: the early
    [return tokenInfo.endpoint]. *)
Definition enter (ti : TokenInfo) (now_ms : Z) : Entry :=
  match ti with
  | NoToken => Refreshing
  | Cached endpoint _ =>
      match still_valid ti now_ms with
      | Some true => Served endpoint
      | Some false => Refreshing
      | None => Thrown TypeError
      end
  end.

(** [getEndpoint()] run without interference: [ti] is [tokenInfo] at the
    call, [now_ms] the clock, [h] how the refresh goes if one is made. *)
Definition getEndpoint (ti : TokenInfo) (now_ms : Z) (h : Handshake)
  : TokenInfo * Settled Endpoint :=
  match enter ti now_ms with
  | Served endpoint => (ti, Fulfilled endpoint)
  | Thrown e => (ti, Rejected e)
  | Refreshing => conclude ti h
  end.

(** Whether [getEndpoint ti now_ms h] sends a handshake request. *)
Definition handshake_sent (ti : TokenInfo) (now_ms : Z) (h : Handshake) : bool :=
  match enter ti now_ms with
  | Refreshing => sent_request h
  | _ => false
  end.

Definition step (c : Config) (s : Step) : Config :=
  match s with
  | Enter i now_ms =>
      match nth_error (tasks c) i with
      | Some Idle =>
          match enter (cache c) now_ms with
          | Served endpoint =>
              {| cache := cache c;
                 tasks := set_task (tasks c) i (Finished (Fulfilled endpoint));
                 handshakes := handshakes c |}
          | Thrown e =>
              {| cache := cache c;
                 tasks := set_task (tasks c) i (Finished (Rejected e));
                 handshakes := handshakes c |}
          | Refreshing =>
              {| cache := cache c;
                 tasks := set_task (tasks c) i Signing;
                 handshakes := handshakes c |}
          end
      | _ => c
      end
  | Signed i (Fulfilled _) =>
      match nth_error (tasks c) i with
      | Some Signing =>
          {| cache := cache c;
             tasks := set_task (tasks c) i InFlight;
             handshakes := S (handshakes c) |}
      | _ => c
      end
  | Signed i (Rejected e) =>
      match nth_error (tasks c) i with
      | Some Signing =>
          let '(ti, res) := conclude (cache c) (SignFailed e) in
          {| cache := ti;
             tasks := set_task (tasks c) i (Finished res);
             handshakes := handshakes c |}
      | _ => c
      end
  | Answered i h =>
      match nth_error (tasks c) i, sent_request h with
      | Some InFlight, true =>
          let '(ti, res) := conclude (cache c) h in
          {| cache := ti;
             tasks := set_task (tasks c) i (Finished res);
             handshakes := handshakes c |}
      | _, _ => c
      end
  end.

Definition run (c : Config) (steps : list Step) : Config :=
  fold_left step steps c.

End Clock.

(** [k] callers, none started yet. *)
Definition start (ti : TokenInfo) (k : nat) : Config :=
  {| cache := ti; tasks := repeat Idle k; handshakes := 0 |}.

Definition in_flight (c : Config) : nat :=
  length (filter (fun x => match x with InFlight => true | _ => false end)
                 (tasks c)).

(** Callers [0 .. k-1] each run to their first await, at clock [now_ms]. *)
Definition enter_all (k : nat) (now_ms : Z) : list Step :=
  map (fun i => Enter i now_ms) (seq 0 k).

(** Then each of their signatures is computed. *)
Definition sign_all (k : nat) (sig : str) : list Step :=
  map (fun i => Signed i (Fulfilled sig)) (seq 0 k).

End Credential.

Import Credential.

(* ================================================================== *)
(** ** The batch orchestrator: [getAudioChunk], [getVoice],
       [pipeChunksToStream], [streamVoice] *)
(* ================================================================== *)

Module Orchestrator.

(** A [Blob] / [Uint8Array]: its bytes. *)
Definition Blob := list Byte.byte.

(** [ttsArgs = [finalVoice, rate, finalPitch, style, outputFormat]]. *)
Record TtsArgs := {
  voiceName : value;
  rate : str;
  pitch : str;
  style : value;
  outputFormat : str
}.

(** How the provider request of [getAudioChunk] ends. *)
Inductive Answer :=
| Unreachable (e : Message)                       (* fetch rejected *)
| NotOk (status : nat) (statusText : str) (text : Settled str)
                                                  (* !response.ok *)
| Ok (blob : Settled Blob).                       (* response.blob() *)

(** What the orchestrator cannot decide.  Calls are named by the position
    of their chunk in [textChunks]. *)
Record World := {
  (** what [await getEndpoint()] gives the call for chunk [i] *)
  endpoint_for : nat -> Settled Endpoint;
  (** the provider's answer to the call for chunk [i] *)
  provider : nat -> Endpoint -> TtsArgs -> str -> Answer;
  (** for the window that starts at chunk [i]: the positions inside the
      window, in the order in which its calls settle *)
  settle_order : nat -> list nat;
  (** whether the promise of the [k]-th [writer.write] fulfils *)
  sink_accepts : nat -> bool
}.

(** What the orchestrator does to the outside, in order. *)
Inductive Event :=
| Synth (i : nat) (text : str)          (* getAudioChunk(text, ...) called *)
| AwaitAll (i : nat)                    (* await Promise.all(...) reached for
                                           the window that starts at i *)
| Write (k : nat) (data : Blob) (accepted : bool)   (* writer.write(data) *)
| Abort (e : Message)                   (* writer.abort(error) *)
| Close.                                (* writer.close() *)

(** Code that acts on the outside and may throw: the events so far and
    how it ends. *)
Definition M (A : Type) : Type := list Event * Outcome A.

Definition ret {A} (a : A) : M A := ([], Returns a).

Definition bind {A B} (m : M A) (f : A -> M B) : M B :=
  match m with
  | (tr, Returns a) => let '(tr', o) := f a in (tr ++ tr', o)
  | (tr, Throws e) => (tr, Throws e)
  | (tr, Never) => (tr, Never)
  | (tr, Outside) => (tr, Outside)
  end.

Notation "x <- m ;; k" := (bind m (fun x => k))
  (at level 61, m at next level, right associativity).
Notation "m ;;; k" := (bind m (fun _ => k))
  (at level 61, right associativity).

Definition emit (ev : Event) : M unit := ([ev], Returns tt).
Definition throw {A} (e : Message) : M A := ([], Throws e).

(** [await promise] *)
Definition await {A} (p : Settled A) : M A :=
  match p with
  | Fulfilled a => ret a
  | Rejected e => throw e
  end.

(** [try { m } catch (error) { handler error }] *)
Definition try_catch {A} (m : M A) (handler : Message -> M A) : M A :=
  match m with
  | (tr, Throws e) => let '(tr', o) := handler e in (tr ++ tr', o)
  | other => other
  end.

(** [try { m } finally { fin }], for a [fin] that does not throw. *)
Definition try_finally {A} (m : M A) (fin : M unit) : M A :=
  match m with
  | (tr, Returns a) => (tr ++ fst fin, Returns a)
  | (tr, Throws e) => (tr ++ fst fin, Throws e)
  | other => other
  end.

(** [getAudioChunk(text, ...ttsArgs)], for the chunk at position [i]. *)
Definition getAudioChunk (w : World) (args : TtsArgs) (i : nat) (text : str)
  : Settled Blob :=
  match endpoint_for w i with
  | Rejected e => Rejected e
  | Fulfilled endpoint =>
      match provider w i endpoint args text with
      | Unreachable e => Rejected e
      | NotOk status statusText (Fulfilled errorText) =>
          Rejected (ProviderRefused status statusText errorText)
      | NotOk _ _ (Rejected e) => Rejected e
      | Ok blob => blob
      end
  end.

(** [chunks.slice(i, i + concurrency)] *)
Definition slice {A} (l : list A) (i j : nat) : list A :=
  firstn (j - i) (skipn i l).

(** The batch with the position of each chunk. *)
Definition numbered {A} (i : nat) (batch : list A) : list (nat * A) :=
  combine (seq i (length batch)) batch.

(** [batch.map(chunk => getAudioChunk(chunk, ...ttsArgs))] followed by
    [await Promise.all(audioPromises)]: every call of the window is
    issued, then the window is joined. *)
Definition dispatch (w : World) (args : TtsArgs) (i : nat) (batch : list str)
  : M (list Blob) :=
  let calls := numbered i batch in
  ( map (fun c => Synth (fst c) (snd c)) calls ++ [AwaitAll i],
    match promise_all (settle_order w i)
            (map (fun c => getAudioChunk w args (fst c) (snd c)) calls) with
    | AllFulfilled blobs => Returns blobs
    | AllRejected e => Throws e
    | AllPending => Never
    end ).

Section Run.

Variable w : World.
Variable chunks : list str.
Variable concurrency : nat.
Variable args : TtsArgs.

(** The loop of [getVoice]; [i] is the loop variable, [allAudioBlobs] the
    accumulator.  [Never] when the fuel runs out before [i] reaches
    [textChunks.length]. *)
Fixpoint collect_windows (fuel i : nat) (allAudioBlobs : list Blob)
  : M (list Blob) :=
  if length chunks <=? i then ret allAudioBlobs
  else match fuel with
       | 0 => ([], Never)
       | S fuel' =>
           audioBlobs <- dispatch w args i (slice chunks i (i + concurrency)) ;;
           collect_windows fuel' (i + concurrency) (allAudioBlobs ++ audioBlobs)
       end.

(** [for (const blob of audioBlobs) writer.write(new Uint8Array(await
    blob.arrayBuffer()))]: reading a blob that was obtained fulfils; the
    promise returned by [write] is dropped, so a write that fails neither
    throws nor stops the loop.  The [k]-th write of a run carries the
    payload of chunk [k]. *)
Fixpoint write_all (k : nat) (audioBlobs : list Blob) : M unit :=
  match audioBlobs with
  | [] => ret tt
  | blob :: rest =>
      emit (Write k blob (sink_accepts w k)) ;;; write_all (S k) rest
  end.

(** The loop of [pipeChunksToStream]. *)
Fixpoint pipe_windows (fuel i : nat) : M unit :=
  if length chunks <=? i then ret tt
  else match fuel with
       | 0 => ([], Never)
       | S fuel' =>
           audioBlobs <- dispatch w args i (slice chunks i (i + concurrency)) ;;
           write_all i audioBlobs ;;;
           pipe_windows fuel' (i + concurrency)
       end.

End Run.

(** An HTTP response. *)
Inductive Body :=
| NoBody
| Audio (data : Blob)                 (* new Blob(allAudioBlobs) *)
| AudioStream (written : list Blob)   (* the readable side of the stream *)
| ErrorJson (message : Message) (type code : str).

Record Response := {
  status : nat;
  contentType : option str;
  body : Body
}.

(** [errorResponse(message, status, code)] *)
Definition errorResponse (message : Message) (status : nat) (code : str)
  : Response :=
  {| status := status;
     contentType := Some (js "application/json");
     body := ErrorJson message (js "api_error") code |}.

Definition audioResponse (b : Body) : Response :=
  {| status := 200; contentType := Some (js "audio/mpeg"); body := b |}.

(** [pipeChunksToStream(writer, chunks, concurrency, ...ttsArgs)].
    A positive step reaches the end of [chunks] in at most
    [chunks.length] iterations, so that much fuel is given. *)
Definition pipeChunksToStream (w : World) (chunks : list str)
           (concurrency : nat) (args : TtsArgs) : M unit :=
  try_finally
    (try_catch (pipe_windows w chunks concurrency args (length chunks) 0)
       (fun error => emit (Abort error) ;;; throw (StreamFailed error)))
    (emit Close).

(** The payloads the sink took, in order. *)
Fixpoint accepted_writes (tr : list Event) : list Blob :=
  match tr with
  | [] => []
  | Write _ data true :: rest => data :: accepted_writes rest
  | _ :: rest => accepted_writes rest
  end.

(** [streamVoice(textChunks, concurrency, ...ttsArgs)] *)
Definition streamVoice (w : World) (textChunks : list str)
           (concurrency : nat) (args : TtsArgs) : M Response :=
  let piped := pipeChunksToStream w textChunks concurrency args in
  try_catch
    (piped ;;; ret (audioResponse (AudioStream (accepted_writes (fst piped)))))
    (fun error =>
       ret (errorResponse (StreamTtsFailed error) 500 (js "tts_generation_error"))).

(** [getVoice(textChunks, concurrency, ...ttsArgs)] *)
Definition getVoice (w : World) (textChunks : list str)
           (concurrency : nat) (args : TtsArgs) : M Response :=
  try_catch
    (allAudioBlobs <- collect_windows w textChunks concurrency args
                        (length textChunks) 0 [] ;;
     ret (audioResponse (Audio (concat allAudioBlobs))))
    (fun error =>
       ret (errorResponse (BufferedTtsFailed error) 500 (js "tts_generation_error"))).

(** The calls to the provider made in a run. *)
Fixpoint synth_calls (tr : list Event) : list (nat * str) :=
  match tr with
  | [] => []
  | Synth i text :: rest => (i, text) :: synth_calls rest
  | _ :: rest => synth_calls rest
  end.

(** Everything handed to [writer.write], in order. *)
Fixpoint written (tr : list Event) : list Blob :=
  match tr with
  | [] => []
  | Write _ data _ :: rest => data :: written rest
  | _ :: rest => written rest
  end.

(** The windows of a run: the calls issued before each
    [await Promise.all(...)], window by window. *)
Fixpoint batches_from (open : list (nat * str)) (tr : list Event)
  : list (list (nat * str)) :=
  match tr with
  | [] => []
  | Synth i text :: rest => batches_from (open ++ [(i, text)]) rest
  | AwaitAll _ :: rest => open :: batches_from [] rest
  | _ :: rest => batches_from open rest
  end.

Definition batches (tr : list Event) : list (list (nat * str)) :=
  batches_from [] tr.

(** The shape of the windows of a run from window start [i] on: their
    number is the ceiling of the remaining length over the limit; joined,
    they are the remaining chunks with their positions; each holds
    between one chunk and [concurrency] chunks. *)
Definition windows_from_ok (chunks : list str) (concurrency i : nat)
           (tr : list Event) : Prop :=
  length (batches tr) = (length chunks - i + concurrency - 1) / concurrency
  /\ concat (batches tr) = skipn i (numbered 0 chunks)
  /\ Forall (fun b => 1 <= length b <= concurrency) (batches tr).

(** The same world with another sink. *)
Definition with_sink (w : World) (accepts : nat -> bool) : World :=
  {| endpoint_for := endpoint_for w;
     provider := provider w;
     settle_order := settle_order w;
     sink_accepts := accepts |}.

(** A trace with the fate of each write forgotten. *)
Definition forget_acceptance (tr : list Event) : list Event :=
  map (fun ev => match ev with
                 | Write k data _ => Write k data true
                 | other => other
                 end) tr.

(** Every call of every window settles: for each window start [i] (the
    multiples of [concurrency] below the number of chunks) the settle
    order of that window names each of its positions. *)
Definition all_settle (w : World) (chunks : list str) (concurrency : nat) : bool :=
  forallb
    (fun i =>
       negb (i mod concurrency =? 0)
       || forallb (fun j => existsb (Nat.eqb j) (settle_order w i))
                  (seq 0 (length (slice chunks i (i + concurrency)))))
    (seq 0 (length chunks)).

(** How each call of a request settles, by chunk position. *)
Definition call_results (w : World) (args : TtsArgs) (chunks : list str)
  : list (Settled Blob) :=
  map (fun c => getAudioChunk w args (fst c) (snd c)) (numbered 0 chunks).

End Orchestrator.

Import Orchestrator.

(* ================================================================== *)
(** ** The request handler: [onRequest], [handleSpeechRequest] *)
(* ================================================================== *)

Module Handler.

(** [OPENAI_VOICE_MAP] of the speech function. *)
Definition OPENAI_VOICE_MAP : list (str * value) :=
  [ (js "shimmer", JString (js "zh-CN-XiaoxiaoNeural"));
    (js "alloy",   JString (js "zh-CN-YunyangNeural"));
    (js "fable",   JString (js "zh-CN-YunjianNeural"));
    (js "onyx",    JString (js "zh-CN-XiaoyiNeural"));
    (js "nova",    JString (js "zh-CN-YunxiNeural"));
    (js "echo",    JString (js "zh-CN-liaoning-XiaobeiNeural")) ].

Definition DEFAULT_CONCURRENCY : Z := 10.
Definition DEFAULT_CHUNK_SIZE : Z := 300.

(** The parts of a [Request] the handler reads. *)
Record Request := {
  method : str;
  authorization : option str;         (* request.headers.get("authorization") *)
  json : Settled value                (* await request.json() *)
}.

(** [finalCleaningOptions] as [cleanText] reads it: the truthiness of the
    five switches and the keyword list. *)
Record CleaningOptions := {
  remove_markdown : bool;
  remove_emoji : bool;
  remove_urls : bool;
  remove_line_breaks : bool;
  remove_citation_numbers : bool;
  custom_keywords : str
}.

(** [{ remove_markdown: true, ..., ...cleaning_options }]
    read at [key]: the spread overrides a default with every own property
    of [cleaning_options]. *)
Definition merged_option (cleaning_options : value) (key : str) (d : value)
  : value :=
  match cleaning_options with
  | JObject fields => match own fields key with Some x => x | None => d end
  | _ => d
  end.

(** [modelVoice]: [!voice ? OPENAI_VOICE_MAP[model.replace('tts-1-', '')] : null].
    [model.replace] is a TypeError when [model] is not a string. *)
Definition lookup_modelVoice (model voice : value) : M value :=
  if truthy voice then ret JNull
  else match model with
       | JString m =>
           ret (literal_get OPENAI_VOICE_MAP (remove_first (js "tts-1-") m))
       | _ => throw TypeError
       end.

Section Handle.

(** The regex pipeline of [cleanText] on a string, given the switches; it
    never throws on a string. *)
Variable cleanTextOn : str -> CleaningOptions -> str.

(** [((x - 1) * 100).toFixed(0)]: floating point, never throws. *)
Variable percent : value -> str.

Variable w : World.

(** [cleanText(input, finalCleaningOptions)]: a TypeError when [input] is
    not a string or when a truthy [custom_keywords] is not one. *)
Definition cleanText (input cleaning_options : value) : M str :=
  let flag key := truthy (merged_option cleaning_options (js key) (JBool true)) in
  let keywords := merged_option cleaning_options (js "custom_keywords") (JString []) in
  match input with
  | JString text =>
      match (if truthy keywords
             then match keywords with JString k => Some k | _ => None end
             else Some []) with
      | Some k =>
          ret (cleanTextOn text
                 {| remove_markdown := flag "remove_markdown"%string;
                    remove_emoji := flag "remove_emoji"%string;
                    remove_urls := flag "remove_urls"%string;
                    remove_line_breaks := flag "remove_line_breaks"%string;
                    remove_citation_numbers := flag "remove_citation_numbers"%string;
                    custom_keywords := k |})
      | None => throw TypeError
      end
  | _ => throw TypeError
  end.

(** The end of [handleSpeechRequest], from the conversion of the
    parameters on: chunk the text and synthesize with [finalVoice].
    A [chunk_size] or [concurrency] that is not a non-negative integer is
    not covered. *)
Definition speak (requestBody : value) (cleanedInput : str) (finalVoice : value)
  : M Response :=
  let speed := with_default requestBody (js "speed") (JNumber 1) in
  let pitch := with_default requestBody (js "pitch") (JNumber 1) in
  let style := with_default requestBody (js "style") (JString (js "general")) in
  let stream := with_default requestBody (js "stream") (JBool false) in
  let concurrency :=
    with_default requestBody (js "concurrency") (JNumber DEFAULT_CONCURRENCY) in
  let chunk_size :=
    with_default requestBody (js "chunk_size") (JNumber DEFAULT_CHUNK_SIZE) in
  let ttsArgs :=
    {| voiceName := finalVoice;
       rate := percent speed;
       pitch := percent pitch;
       style := style;
       outputFormat := js "audio-24khz-48kbitrate-mono-mp3" |} in
  match to_count chunk_size, to_count concurrency with
  | Some size, Some limit =>
      match smartChunkText cleanedInput size with
      | None => ([], Never)
      | Some textChunks =>
          if truthy stream
          then streamVoice w textChunks limit ttsArgs
          else getVoice w textChunks limit ttsArgs
      end
  | _, _ => ([], Outside)
  end.

(** [handleSpeechRequest(request)] *)
Definition handleSpeechRequest (request : Request) : M Response :=
  if negb (str_eqb (method request) (js "POST"))
  then ret (errorResponse MethodNotAllowed 405 (js "method_not_allowed"))
  else
    match json request with
    | Rejected err =>
        ret (errorResponse (JsonParseError err) 400 (js "invalid_request_error"))
    | Fulfilled requestBody =>
        match property requestBody (js "input") with
        | None => throw TypeError
        | Some input =>
            if negb (truthy input)
            then ret (errorResponse InputRequired 400 (js "invalid_request_error"))
            else
              let model := with_default requestBody (js "model") (JString (js "tts-1")) in
              let voice := with_default requestBody (js "voice") (JString (js "shimmer")) in
              let cleaning_options :=
                with_default requestBody (js "cleaning_options") (JObject []) in
              cleanedInput <- cleanText input cleaning_options ;;
              modelVoice <- lookup_modelVoice model voice ;;
              let finalVoice := if truthy modelVoice then modelVoice else voice in
              if negb (truthy finalVoice)
              then ret (errorResponse (InvalidVoice model voice modelVoice) 400
                          (js "invalid_request_error"))
              else speak requestBody cleanedInput finalVoice
        end
    end.

(** [authHeader.startsWith("Bearer ") && authHeader.slice(7) === API_KEY] *)
Definition bearer_matches (authHeader API_KEY : str) : bool :=
  starts_with (js "Bearer ") authHeader && str_eqb (skipn 7 authHeader) API_KEY.

(** [onRequest(context)]; [API_KEY] is [context.env.API_KEY]. *)
Definition onRequest (API_KEY : option str) (request : Request) : M Response :=
  if str_eqb (method request) (js "OPTIONS")
  then ret {| status := 204; contentType := None; body := NoBody |}
  else
    let authorized :=
      match API_KEY with
      | None | Some [] => true
      | Some key =>
          match authorization request with
          | None | Some [] => false
          | Some authHeader => bearer_matches authHeader key
          end
      end in
    if negb authorized
    then ret (errorResponse InvalidApiKey 401 (js "invalid_api_key"))
    else
      try_catch (handleSpeechRequest request)
        (fun err =>
           ret (errorResponse (ProcessingError err) 500 (js "internal_server_error"))).

End Handle.

(** The calls a run made to the provider. *)
Definition outbound_calls {A} (m : M A) : list (nat * str) := synth_calls (fst m).

End Handler.

Import Handler.

(* ================================================================== *)
(** ** Sample worlds and requests used in the examples *)
(* ================================================================== *)

Module Samples.

Definition westus : Endpoint := {| r := js "westus"; t := js "head.claims.sig" |}.

(** The audio the sample provider returns for a text: one byte per unit
    of the text, so that different chunks give different audio. *)
Definition audio_for (text : str) : Blob :=
  map (fun c => match Byte.of_N (c mod 256) with
                | Some b => b
                | None => Byte.x00
                end) text.

(** A provider that answers every call; the calls of a window settle last
    first; the sink takes a write or not as [accepts] says. *)
Definition obliging (accepts : nat -> bool) : World :=
  {| endpoint_for := fun _ => Fulfilled westus;
     provider := fun _ _ _ text => Ok (Fulfilled (audio_for text));
     settle_order := fun _ => [3; 2; 1; 0];
     sink_accepts := accepts |}.

(** As [obliging], but the provider refuses the chunk at [bad]. *)
Definition refusing (bad : nat) : World :=
  {| endpoint_for := fun _ => Fulfilled westus;
     provider := fun i _ _ text =>
       if i =? bad
       then NotOk 503 (js "Service Unavailable") (Fulfilled (js "busy"))
       else Ok (Fulfilled (audio_for text));
     settle_order := fun _ => [3; 2; 1; 0];
     sink_accepts := fun _ => true |}.

(** A provider whose audio tells the voice it was asked for. *)
Definition voice_echo : World :=
  {| endpoint_for := fun _ => Fulfilled westus;
     provider := fun _ _ args _ =>
       match voiceName args with
       | JString v => Ok (Fulfilled (audio_for v))
       | _ => NotOk 400 (js "Bad Request") (Fulfilled (js "voice"))
       end;
     settle_order := fun _ => [3; 2; 1; 0];
     sink_accepts := fun _ => true |}.

(** Stand-ins for the two functions the handler is parameterised by. *)
Definition keep_text (text : str) (_ : CleaningOptions) : str := text.
Definition zero_percent (_ : value) : str := js "0".

(** A stand-in for the conversion the expiry check is parameterised by:
    every expiry that is not an integer number is taken for NaN. *)
Definition not_a_number (_ : Z) (_ : value) : option bool := Some false.

Definition sample_args : TtsArgs :=
  {| voiceName := JString (js "zh-CN-XiaoxiaoNeural");
     rate := js "0"; pitch := js "0";
     style := JString (js "general");
     outputFormat := js "audio-24khz-48kbitrate-mono-mp3" |}.

Definition post (requestBody : value) : Request :=
  {| method := js "POST"; authorization := None; json := Fulfilled requestBody |}.

End Samples.

Import Samples.

(* ================================================================== *)
(** ** Base64: [base64ToBytes], [bytesToBase64] *)
(* ================================================================== *)

Module Base64.

(** What the runtime offers.  [atob] and [btoa] throw on some inputs
    ([inr] carries the message of the error thrown); [Buffer] does not. *)
Record BufferApi := {
  from_base64 : str -> Blob;        (* Buffer.from(s, 'base64') *)
  to_base64 : Blob -> str           (* Buffer.from(bytes).toString('base64') *)
}.

Record Platform := {
  atob : option (str -> str + str);
  btoa : option (str -> str + str);
  Buffer : option BufferApi
}.

(** The alphabet string [chars] of the hand-written loops. *)
Definition chars : str :=
  js "ABCDEFGHIJKLMNOPQRSTUVWXYZabcdefghijklmnopqrstuvwxyz0123456789+/".

Fixpoint index_from (x : unit16) (l : str) (k : Z) : Z :=
  match l with
  | [] => (-1)%Z
  | y :: rest => if (y =? x)%N then k else index_from x rest (k + 1)%Z
  end.

(** [chars.indexOf(s[i])]: [s[i]] is one unit, or [undefined] past the
    end of [s], which is searched as the text "undefined" and not found. *)
Definition indexOf (x : option unit16) : Z :=
  match x with
  | Some u => index_from u chars 0
  | None => (-1)%Z
  end.

(** The arguments of the [String.fromCharCode] calls of one iteration,
    from the four indices [a], [b], [c], [d]. *)
Definition group (a b c d : Z) : list Z :=
  (Z.lor (Z.shiftl a 2) (Z.shiftr b 4)
   :: (if (c =? 64)%Z then []
       else [Z.lor (Z.shiftl (Z.land b 15) 4) (Z.shiftr c 2)]))
  ++ (if (d =? 64)%Z then []
      else [Z.lor (Z.shiftl (Z.land c 3) 6) d]).

(** [for (let i = 0; i < s.length; i += 4)]: the string is read four
    units at a time; a last group may be short. *)
Fixpoint decode_codes (s : str) : list Z :=
  match s with
  | [] => []
  | [a] => group (indexOf (Some a)) (indexOf None) (indexOf None) (indexOf None)
  | [a; b] =>
      group (indexOf (Some a)) (indexOf (Some b)) (indexOf None) (indexOf None)
  | [a; b; c] =>
      group (indexOf (Some a)) (indexOf (Some b)) (indexOf (Some c)) (indexOf None)
  | a :: b :: c :: d :: rest =>
      group (indexOf (Some a)) (indexOf (Some b)) (indexOf (Some c))
            (indexOf (Some d))
      ++ decode_codes rest
  end.

(** [String.fromCharCode(n)]: the unit [n] modulo 2^16. *)
Definition fromCharCode (n : Z) : unit16 := Z.to_N (n mod 65536).

(** The string [result] built by the hand-written decoding loop. *)
Definition manual_decode (s : str) : str := map fromCharCode (decode_codes s).

(** [bytes[i] = text.charCodeAt(i)] in a [Uint8Array]: the unit modulo 256. *)
Definition store_uint8 (u : unit16) : Byte.byte :=
  match Byte.of_N (u mod 256) with
  | Some b => b
  | None => Byte.x00
  end.

(** The text "Base64 decoding failed: " of the source, in its language. *)
Definition decode_failed : str :=
  js "Base64 " ++ [35299; 30721; 22833; 36133]%N ++ js ": ".

(** The text "Base64 encoding failed: " of the source. *)
Definition encode_failed : str :=
  js "Base64 " ++ [32534; 30721; 22833; 36133]%N ++ js ": ".

(** [base64ToBytes(base64)] *)
Definition base64ToBytes (p : Platform) (base64 : str) : Settled Blob :=
  match atob p with
  | Some f =>
      match f base64 with
      | inl binaryString => Fulfilled (map store_uint8 binaryString)
      | inr message => Rejected (Foreign (decode_failed ++ message))
      end
  | None =>
      match Buffer p with
      | Some buffer => Fulfilled (from_base64 buffer base64)
      | None => Fulfilled (map store_uint8 (manual_decode base64))
      end
  end.

Definition byte_value (b : Byte.byte) : Z := Z.of_N (Byte.to_N b).

(** [chars[k]] for an index inside the alphabet. *)
Definition char_at (k : Z) : unit16 := nth (Z.to_nat k) chars 0%N.

(** The four units appended by one iteration of the encoding loop; [i]
    is the loop index after the reads of the iteration, [len] is
    [bytes.length]. *)
Definition quad (len i : nat) (a b c : Z) : str :=
  [ char_at (Z.shiftr a 2);
    char_at (Z.lor (Z.shiftl (Z.land a 3) 4) (Z.shiftr b 4));
    if (Z.of_nat i - 2 <? Z.of_nat len)%Z
    then char_at (Z.lor (Z.shiftl (Z.land b 15) 2) (Z.shiftr c 6))
    else 61%N;
    if (Z.of_nat i - 1 <? Z.of_nat len)%Z
    then char_at (Z.land c 63)
    else 61%N ].

(** [while (i < bytes.length)]: [rest] holds the bytes from index [i]
    on; [b] and [c] are [0] when the bytes run out. *)
Fixpoint encode_from (len i : nat) (rest : list Z) : str :=
  match rest with
  | [] => []
  | [a] => quad len (i + 1) a 0 0
  | [a; b] => quad len (i + 2) a b 0
  | a :: b :: c :: later =>
      quad len (i + 3) a b c ++ encode_from len (i + 3) later
  end.

Definition manual_encode (bytes : Blob) : str :=
  encode_from (length bytes) 0 (map byte_value bytes).

(** [String.fromCharCode.apply(null, bytes)] *)
Definition binary_string (bytes : Blob) : str := map Byte.to_N bytes.

(** [bytesToBase64(bytes)] *)
Definition bytesToBase64 (p : Platform) (bytes : Blob) : Settled str :=
  match btoa p with
  | Some f =>
      match f (binary_string bytes) with
      | inl text => Fulfilled text
      | inr message => Rejected (Foreign (encode_failed ++ message))
      end
  | None =>
      match Buffer p with
      | Some buffer => Fulfilled (to_base64 buffer bytes)
      | None => Fulfilled (manual_encode bytes)
      end
  end.

(** A runtime with none of [atob], [btoa], [Buffer]. *)
Definition bare : Platform := {| atob := None; btoa := None; Buffer := None |}.

(** The values a byte can take, for checks by enumeration. *)
Definition octets : list Z := map Z.of_nat (seq 0 256).

Definition sextet2 (a b : Z) : Z := Z.lor (Z.shiftl (Z.land a 3) 4) (Z.shiftr b 4).
Definition sextet3 (b c : Z) : Z := Z.lor (Z.shiftl (Z.land b 15) 2) (Z.shiftr c 6).

End Base64.

Import Base64.

(* ================================================================== *)
(** ** The end of [cleanText]: white space and trimming *)
(* ================================================================== *)

Module Cleaning.

(** [cleanedText.replace(/\s+/g, ' ')]: each maximal run of white space
    becomes one space.  [in_run] tells whether the scan is inside a run
    whose space has been written. *)
Fixpoint collapse_from (in_run : bool) (s : str) : str :=
  match s with
  | [] => []
  | c :: rest =>
      if is_white c
      then (if in_run then collapse_from true rest
            else 32%N :: collapse_from true rest)
      else c :: collapse_from false rest
  end.

Definition collapse_white (s : str) : str := collapse_from false s.

(** Stages 5 and 6 of [cleanText], applied to the text [cleanedText] left
    by the stages before them:
    [if (options.remove_line_breaks) cleanedText = cleanedText.replace(...);
     return cleanedText.trim();] *)
Definition finish_cleaning (remove_line_breaks : bool) (cleanedText : str) : str :=
  trim (if remove_line_breaks then collapse_white cleanedText else cleanedText).

(** Every white unit is a space, and is not followed by a white unit. *)
Fixpoint single_spaced (s : str) : bool :=
  match s with
  | [] => true
  | c :: rest =>
      (if is_white c
       then (c =? 32)%N
            && match rest with [] => true | d :: _ => negb (is_white d) end
       else true)
      && single_spaced rest
  end.

End Cleaning.

Import Cleaning.

(* ================================================================== *)
(** ** [smartChunkText] with an integer bound of either sign *)
(* ================================================================== *)

Module IntegerChunker.

(** [s.substring(a, b)] for integers [a] and [b]: an argument below 0
    counts as 0, one above the length as the length, and the smaller of
    the two is the start. *)
Definition substring_int (s : str) (a b : Z) : str :=
  substring s (Nat.min (Z.to_nat a) (Z.to_nat b))
              (Nat.max (Z.to_nat a) (Z.to_nat b)).

(** One iteration of [for (const part of sentences)]. *)
Definition accumulate_int (maxChunkLength : Z) (a : acc) (part : str) : acc :=
  if (Z.of_nat (length (current a) + length part) <=? maxChunkLength)%Z
  then {| chunks_of := chunks_of a; current := current a ++ part |}
  else {| chunks_of := flush (chunks_of a) (current a); current := part |}.

Definition greedy_int (text : str) (maxChunkLength : Z) : list str :=
  let a := fold_left (accumulate_int maxChunkLength) (split_sentences text)
                     {| chunks_of := []; current := [] |} in
  flush (chunks_of a) (current a).

(** [for (let i = 0; i < text.length; i += maxChunkLength)
       chunks.push(text.substring(i, i + maxChunkLength))]
    with an index that may go below 0.  [None] when the fuel is used up
    before [i] reaches the length. *)
Fixpoint slices_int (fuel : nat) (text : str) (maxChunkLength i : Z)
  : option (list str) :=
  if (Z.of_nat (length text) <=? i)%Z then Some []
  else match fuel with
       | 0 => None
       | S fuel' =>
           match slices_int fuel' text maxChunkLength (i + maxChunkLength)%Z with
           | Some rest =>
               Some (substring_int text i (i + maxChunkLength)%Z :: rest)
           | None => None
           end
       end.

(** [smartChunkText(text, maxChunkLength)] for an integer
    [maxChunkLength].  A positive step ends the slicing loop within
    [text.length] iterations; [None] stands for the loop that never
    ends. *)
Definition smartChunkText_int (text : str) (maxChunkLength : Z)
  : option (list str) :=
  match text with
  | [] => Some []
  | _ =>
      let chunks := greedy_int text maxChunkLength in
      let chunks' :=
        match chunks with
        | [] => slices_int (length text) text maxChunkLength 0
        | _ => Some chunks
        end in
      option_map (filter (fun chunk => 0 <? length chunk)) chunks'
  end.

End IntegerChunker.

Import IntegerChunker.

(* ================================================================== *)
(** ** [getSsml] *)
(* ================================================================== *)

Module Ssml.

(** The [i] flag of a regex that has no [u] flag: two units match when
    their upper-case forms agree, and a unit outside ASCII is never taken
    for an ASCII one.  Every unit of the pattern is ASCII, so a unit of
    the text matches a unit of the pattern when they agree after the
    letters [a]..[z] are folded to [A]..[Z]. *)
Definition fold_case (u : unit16) : unit16 :=
  if ((97 <=? u) && (u <=? 122))%N then (u - 32)%N else u.

(** A literal piece of the pattern at the head of [s], case ignored:
    what follows it. *)
Fixpoint literal (p s : str) : option str :=
  match p, s with
  | [], _ => Some s
  | _ :: _, [] => None
  | a :: p', b :: s' =>
      if (fold_case a =? fold_case b)%N then literal p' s' else None
  end.

Definition andthen {A B} (o : option A) (k : A -> option B) : option B :=
  match o with
  | Some x => k x
  | None => None
  end.

Definition orelse {A} (a b : option A) : option A :=
  match a with
  | Some _ => a
  | None => b
  end.

(** [\s+]: one white unit and all the white units that follow. *)
Definition white1 (s : str) : option str :=
  match s with
  | c :: rest => if is_white c then Some (drop_white rest) else None
  | [] => None
  end.

(** [[^q]*q]: everything up to the first [q], and that [q]. *)
Fixpoint up_to (q : unit16) (s : str) : option str :=
  match s with
  | [] => None
  | c :: rest => if (c =? q)%N then Some rest else up_to q rest
  end.

(** [\s*\/?>] *)
Definition closing (s : str) : option str :=
  match drop_white s with
  | c :: rest =>
      if (c =? 62)%N then Some rest
      else if (c =? 47)%N then
        match rest with
        | d :: rest' => if (d =? 62)%N then Some rest' else None
        | [] => None
        end
      else None
  | [] => None
  end.

(** [<break\s+time=q[^q]*q\s*\/?>] for the quote [q]. *)
Definition timed (q : unit16) (s : str) : option str :=
  andthen (literal (js "<break") s) (fun s1 =>
  andthen (white1 s1) (fun s2 =>
  andthen (literal (js "time=" ++ [q]) s2) (fun s3 =>
  andthen (up_to q s3) closing))).

(** [<break\s*\/?>] *)
Definition untimed (s : str) : option str :=
  andthen (literal (js "<break") s) closing.

(** [breakTagRegex] at the head of [s]: what follows the match.  The
    three alternatives are tried in the order of the pattern. *)
Definition break_tag_at (s : str) : option str :=
  orelse (timed 34%N s) (orelse (untimed s) (timed 39%N s)).

(** [`${n}`] for a count. *)
Definition decimal (n : nat) : str :=
  js (DecimalString.NilZero.string_of_uint (Nat.to_uint n)).

(** [`__BREAK_TAG_${index}__`] *)
Definition placeholder (index : nat) : str :=
  js "__BREAK_TAG_" ++ decimal index ++ js "__".

(** [text.replace(breakTagRegex, (match) => ...)]: the text is scanned
    from the left; a match is replaced by the placeholder of its rank and
    pushed on [breakTags], and the scan goes on after it.  [skip] units
    of the last match are still to be passed over; [count] is
    [breakTags.length]. *)
Fixpoint protect_from (skip count : nat) (s : str) : str * list str :=
  match s with
  | [] => ([], [])
  | c :: rest =>
      match skip with
      | S k => protect_from k count rest
      | 0 =>
          match break_tag_at s with
          | Some after =>
              let n := length s - length after in
              let (text, tags) := protect_from (n - 1) (S count) rest in
              (placeholder count ++ text, firstn n s :: tags)
          | None =>
              let (text, tags) := protect_from 0 count rest in
              (c :: text, tags)
          end
      end
  end.

Definition protect (text : str) : str * list str := protect_from 0 0 text.

(** [s.replace(/u/g, by)] for a one-unit pattern and a replacement
    without [$]. *)
Fixpoint replace_unit (u : unit16) (by_ : str) (s : str) : str :=
  match s with
  | [] => []
  | c :: rest =>
      if (c =? u)%N then by_ ++ replace_unit u by_ rest
      else c :: replace_unit u by_ rest
  end.

(** [processedText.replace(/&/g, '&amp;').replace(/</g, '&lt;')
      .replace(/>/g, '&gt;')] *)
Definition sanitize (processedText : str) : str :=
  replace_unit 62%N (js "&gt;")
    (replace_unit 60%N (js "&lt;")
       (replace_unit 38%N (js "&amp;") processedText)).

(** The first occurrence of [pattern] in [s]: what is before it and what
    is after it. *)
Fixpoint find (pattern s : str) {struct s} : option (str * str) :=
  if starts_with pattern s then Some ([], skipn (length pattern) s)
  else match s with
       | [] => None
       | c :: rest =>
           match find pattern rest with
           | Some (before, after) => Some (c :: before, after)
           | None => None
           end
       end.

(** The replacement text of [String.prototype.replace] for a string
    pattern (no capture groups): [$$] is a dollar sign, [$&] the match,
    [$`] what is before the match, [$'] what is after it; any other [$]
    stands for itself. *)
Fixpoint substitute (before matched after template : str) : str :=
  match template with
  | [] => []
  | c :: rest =>
      if (c =? 36)%N then
        match rest with
        | d :: rest' =>
            if (d =? 36)%N then 36%N :: substitute before matched after rest'
            else if (d =? 38)%N
            then matched ++ substitute before matched after rest'
            else if (d =? 96)%N
            then before ++ substitute before matched after rest'
            else if (d =? 39)%N
            then after ++ substitute before matched after rest'
            else c :: substitute before matched after rest
        | [] => [c]
        end
      else c :: substitute before matched after rest
  end.

(** [s.replace(pattern, template)] for a string [pattern]. *)
Definition replace_first (pattern template s : str) : str :=
  match find pattern s with
  | Some (before, after) =>
      before ++ substitute before pattern after template ++ after
  | None => s
  end.

(** [breakTags.forEach((tag, index) =>
      finalText = finalText.replace(`__BREAK_TAG_${index}__`, tag))] *)
Definition restore (sanitizedText : str) (breakTags : list str) : str :=
  fold_left (fun finalText it =>
               replace_first (placeholder (fst it)) (snd it) finalText)
            (numbered 0 breakTags) sanitizedText.

(** [finalText] of [getSsml]. *)
Definition final_text (text : str) : str :=
  let (processedText, breakTags) := protect text in
  restore (sanitize processedText) breakTags.

Definition quote : str := [34%N].

(** A line break of the template and the indentation after it. *)
Definition line (indent : nat) : str := 10%N :: repeat 32%N indent.

(** The template literal of [getSsml] around [finalText]. *)
Definition document (voiceName rate pitch style finalText : str) : str :=
  js "<speak xmlns=" ++ quote ++ js "http://www.w3.org/2001/10/synthesis" ++ quote
  ++ js " xmlns:mstts=" ++ quote ++ js "http://www.w3.org/2001/mstts" ++ quote
  ++ js " version=" ++ quote ++ js "1.0" ++ quote
  ++ js " xml:lang=" ++ quote ++ js "en-US" ++ quote ++ js ">"
  ++ line 4 ++ js "<voice name=" ++ quote ++ voiceName ++ quote ++ js ">"
  ++ line 6 ++ js "<mstts:express-as style=" ++ quote ++ style ++ quote ++ js ">"
  ++ line 8 ++ js "<prosody rate=" ++ quote ++ rate ++ js "%" ++ quote
  ++ js " pitch=" ++ quote ++ pitch ++ js "%" ++ quote ++ js ">"
  ++ finalText ++ js "</prosody>"
  ++ line 6 ++ js "</mstts:express-as>"
  ++ line 4 ++ js "</voice>"
  ++ line 2 ++ js "</speak>".

(** [getSsml(text, voiceName, rate, pitch, style)], all five strings. *)
Definition getSsml (text voiceName rate pitch style : str) : str :=
  document voiceName rate pitch style (final_text text).

(** One unit as the three replacements together leave it. *)
Definition entity (c : unit16) : str :=
  if (c =? 38)%N then js "&amp;"
  else if (c =? 60)%N then js "&lt;"
  else if (c =? 62)%N then js "&gt;"
  else [c].

Definition escaped (s : str) : str := flat_map entity s.

(** No position of [s] starts a match of [breakTagRegex]. *)
Fixpoint no_break_tag (s : str) : bool :=
  match s with
  | [] => true
  | _ :: rest =>
      match break_tag_at s with
      | Some _ => false
      | None => no_break_tag rest
      end
  end.

(** [s] holds none of the units [avoid]. *)
Definition free_of (avoid : list unit16) (s : str) : bool :=
  forallb (fun c => negb (existsb (N.eqb c) avoid)) s.

End Ssml.

Import Ssml.

(* ================================================================== *)
(** ** Further definitions used by the properties below *)
(* ================================================================== *)

Module Shape.

(** A chunk as [flush] pushes it: trimmed and not empty. *)
Definition neat (c : str) : Prop := c <> [] /\ trim c = c.

(** How code that does not return normally ends, seen from the code
    that called it and does not catch: the same way. *)
Definition passed_on {A B} (o : Outcome A) : Outcome B :=
  match o with
  | Throws e => Throws e
  | Never => Never
  | Returns _ | Outside => Outside
  end.

(** Whether an outcome is a normal return. *)
Definition returned {A} (o : Outcome A) : bool :=
  match o with Returns _ => true | _ => false end.

(** The payloads the sink accepts, with their positions, out of a list
    of payloads numbered from 0. *)
Definition accepted_of (w : World) (blobs : list Blob) : list (nat * Blob) :=
  filter (fun c => sink_accepts w (fst c)) (numbered 0 blobs).

End Shape.

Import Shape.

Module Accounting.

(** A caller that has not yet sent its handshake request nor finished. *)
Definition waiting (x : Task) : nat :=
  match x with
  | Idle | Signing => 1
  | InFlight | Finished _ => 0
  end.

Definition waiting_callers (ts : list Task) : nat :=
  list_sum (map waiting ts).

(** A caller whose handshake request is out. *)
Definition flying (x : Task) : nat :=
  match x with
  | InFlight => 1
  | _ => 0
  end.

(** A caller that has not finished. *)
Definition pending (x : Task) : bool :=
  match x with
  | Finished _ => false
  | _ => true
  end.

(** A step taken while no handshake has come back, that finds the cache
    [ti] stale (or empty) if it is an expiry check and succeeds if it is
    a signature. *)
Definition quiet (coerced_before : Z -> value -> option bool)
           (ti : TokenInfo) (s : Step) : bool :=
  match s with
  | Enter _ now_ms =>
      match still_valid coerced_before ti now_ms with
      | Some false => true
      | _ => false
      end
  | Signed _ (Fulfilled _) => true
  | Signed _ (Rejected _) => false
  | Answered _ _ => false
  end.

(** A step that, if it is an expiry check, finds the cache [ti] valid. *)
Definition passing (coerced_before : Z -> value -> option bool)
           (ti : TokenInfo) (s : Step) : bool :=
  match s with
  | Enter _ now_ms =>
      match still_valid coerced_before ti now_ms with
      | Some true => true
      | _ => false
      end
  | _ => true
  end.

(** A caller that has not started, or was served [ti]'s endpoint. *)
Definition idle_or_served (ti : TokenInfo) (x : Task) : bool :=
  match x, ti with
  | Idle, _ => true
  | Finished (Fulfilled e), Cached endpoint _ =>
      str_eqb (r e) (r endpoint) && str_eqb (t e) (t endpoint)
  | _, _ => false
  end.

(** The credentials granted in a list of steps. *)
Fixpoint grants (steps : list Step) : list TokenInfo :=
  match steps with
  | [] => []
  | Answered _ (Granted data exp) :: rest => Cached data exp :: grants rest
  | _ :: rest => grants rest
  end.

End Accounting.

Import Accounting.

Module MoreSamples.

(** A provider that refuses every call, quoting the text it was sent;
    the calls of a window settle last first. *)
Definition refusing_each : World :=
  {| endpoint_for := fun _ => Fulfilled westus;
     provider := fun _ _ _ text =>
       NotOk 429 (js "Too Many Requests") (Fulfilled text);
     settle_order := fun _ => [3; 2; 1; 0];
     sink_accepts := fun _ => true |}.

(** A provider that answers, but in each window only the call at
    position 0 ever settles. *)
Definition stalling : World :=
  {| endpoint_for := fun _ => Fulfilled westus;
     provider := fun _ _ _ text => Ok (Fulfilled (audio_for text));
     settle_order := fun _ => [0];
     sink_accepts := fun _ => true |}.

End MoreSamples.

Import MoreSamples.

(* ================================================================== *)
(** * Properties *)
(* ================================================================== *)

Lemma str_eqb_eq (a b : str) : str_eqb a b = true <-> a = b.
Proof.
  unfold str_eqb. destruct (list_eq_dec N.eq_dec a b); split; congruence.
Qed.

Lemma str_eqb_refl (a : str) : str_eqb a a = true.
Proof. now apply str_eqb_eq. Qed.

(* ------------------------------------------------------------------ *)
(** ** Chunker *)
(* ------------------------------------------------------------------ *)

Section ChunkerFacts.

Example split_keeps_separators :
  split_sentences (js "a.b") = [js "a"; js "."; js "b"].
Proof. reflexivity. Qed.

Example split_leading_and_trailing :
  split_sentences (js "?!") = [[]; js "?!"; []].
Proof. reflexivity. Qed.

Example split_sample :
  split_sentences (js "Hello, world. Second sentence!")
  = [js "Hello"; js ","; js " world"; js "."; js " Second sentence"; js "!"; []].
Proof. reflexivity. Qed.

Example slicing_of_blank_text :
  smartChunkText (js "     ") 2 = Some [js "  "; js "  "; js " "].
Proof. reflexivity. Qed.

Example zero_step_never_ends : smartChunkText (js "  ") 0 = None.
Proof. reflexivity. Qed.

Lemma concat_push_head c ps : concat (push_head c ps) = c :: concat ps.
Proof. destruct ps; reflexivity. Qed.

(** Splitting loses nothing: the parts, joined, are the text. *)
Lemma concat_pieces m s : concat (pieces m s) = s.
Proof.
  revert m; induction s as [|c s IH]; intros m.
  - destruct m; reflexivity.
  - simpl. destruct m, (is_boundary c); simpl;
      rewrite concat_push_head, IH; reflexivity.
Qed.

(** A text without boundary unit is its own single part. *)
Lemma pieces_no_boundary s :
  forallb (fun c => negb (is_boundary c)) s = true ->
  pieces InPiece s = [s].
Proof.
  induction s as [|c s IH]; simpl; intros H; [reflexivity|].
  apply andb_prop in H as [Hc Hs].
  destruct (is_boundary c); [discriminate|].
  rewrite (IH Hs). reflexivity.
Qed.

Lemma content_app a b : content (a ++ b) = content a ++ content b.
Proof. apply filter_app. Qed.

Lemma content_rev s : content (rev s) = rev (content s).
Proof.
  unfold content. induction s as [|c s IH]; simpl; [reflexivity|].
  rewrite filter_app, IH. simpl.
  destruct (is_white c); simpl; [now rewrite app_nil_r | reflexivity].
Qed.

Lemma content_drop_white s : content (drop_white s) = content s.
Proof.
  induction s as [|c s IH]; simpl; [reflexivity|].
  destruct (is_white c) eqn:E; simpl; rewrite ?E; simpl; auto.
Qed.

(** Trimming removes white space only. *)
Lemma content_trim s : content (trim s) = content s.
Proof.
  unfold trim.
  rewrite content_rev, content_drop_white, content_rev, rev_involutive.
  apply content_drop_white.
Qed.

Lemma content_concat_flush chunks cur :
  content (concat (flush chunks cur)) = content (concat chunks ++ cur).
Proof.
  unfold flush. rewrite content_app, <- (content_trim cur).
  destruct (trim cur) eqn:E.
  - simpl. now rewrite app_nil_r.
  - rewrite concat_app, content_app. simpl. now rewrite app_nil_r.
Qed.

Lemma flush_nonempty chunks cur :
  Forall (fun c => c <> []) chunks -> Forall (fun c => c <> []) (flush chunks cur).
Proof.
  intros H. unfold flush. destruct (trim cur) eqn:E; [assumption|].
  apply Forall_app; split; [assumption|].
  constructor; [discriminate | constructor].
Qed.

(** The accumulation loop keeps every non-white unit, in order. *)
Lemma content_accumulate maxLen parts a :
  let a' := fold_left (accumulate maxLen) parts a in
  content (concat (chunks_of a') ++ current a')
  = content (concat (chunks_of a) ++ current a ++ concat parts).
Proof.
  revert a; induction parts as [|p parts IH]; intros a; simpl.
  - now rewrite app_nil_r.
  - rewrite IH. unfold accumulate.
    destruct (length (current a) + length p <=? maxLen); simpl.
    + now rewrite <- !app_assoc.
    + rewrite !content_app, content_concat_flush, !content_app.
      now rewrite <- !app_assoc.
Qed.

Lemma content_greedy text maxLen :
  content (concat (greedy text maxLen)) = content text.
Proof.
  unfold greedy. rewrite content_concat_flush.
  rewrite (content_accumulate maxLen (split_sentences text)
             {| chunks_of := []; current := [] |}).
  simpl. unfold split_sentences. now rewrite concat_pieces.
Qed.

(** The slicing loop ends within [length text - i] iterations when the
    step is positive; the slices are non-empty, at most [maxLen] long, and
    join to the text from [i] on. *)
Lemma slices_spec maxLen text :
  1 <= maxLen ->
  forall fuel i, length text - i <= fuel ->
  exists l, slices fuel text maxLen i = Some l
            /\ concat l = skipn i text
            /\ Forall (fun c => 1 <= length c <= maxLen) l.
Proof.
  intros Hm. induction fuel as [|fuel IH]; intros i Hf.
  - exists []. simpl.
    destruct (length text <=? i) eqn:E.
    + apply Nat.leb_le in E. repeat split; auto.
      symmetry. now apply skipn_all2.
    + apply Nat.leb_gt in E. lia.
  - simpl. destruct (length text <=? i) eqn:E.
    + apply Nat.leb_le in E. exists []. repeat split; auto.
      symmetry. now apply skipn_all2.
    + apply Nat.leb_gt in E.
      destruct (IH (i + maxLen)) as (l & Hl & Hc & Hall); [lia|].
      rewrite Hl. eexists; split; [reflexivity|]. split.
      * simpl. rewrite Hc. unfold substring.
        replace (i + maxLen - i) with maxLen by lia.
        rewrite Nat.add_comm, <- skipn_skipn. apply firstn_skipn.
      * constructor; [|assumption].
        unfold substring. replace (i + maxLen - i) with maxLen by lia.
        rewrite length_firstn, length_skipn. lia.
Qed.

(** More fuel does not change a finished slicing. *)
Lemma slices_more_fuel maxLen text fuel i l :
  slices fuel text maxLen i = Some l ->
  forall extra, slices (fuel + extra) text maxLen i = Some l.
Proof.
  revert i l; induction fuel as [|fuel IH]; intros i l H extra.
  - simpl in H. destruct (length text <=? i) eqn:E; [|discriminate].
    destruct extra; simpl; rewrite E; assumption.
  - simpl in *. destruct (length text <=? i); [assumption|].
    destruct (slices fuel text maxLen (i + maxLen)) eqn:E'; [|discriminate].
    now rewrite (IH _ _ E').
Qed.

Lemma concat_filter_nonempty (l : list str) :
  concat (filter (fun chunk => 0 <? length chunk) l) = concat l.
Proof.
  induction l as [|c l IH]; simpl; [reflexivity|].
  destruct c; simpl; [assumption | now rewrite IH].
Qed.

Lemma filter_nonempty_all (l : list str) :
  Forall (fun c => c <> []) (filter (fun chunk => 0 <? length chunk) l).
Proof.
  induction l as [|c l IH]; simpl; [constructor|].
  destruct c; simpl; [assumption | constructor; [discriminate | assumption]].
Qed.

Lemma filter_nonempty_id (l : list str) n :
  Forall (fun c => 1 <= length c <= n) l ->
  filter (fun chunk => 0 <? length chunk) l = l.
Proof.
  induction 1 as [|c l Hc _ IH]; simpl; [reflexivity|].
  destruct c; simpl in *; [lia | now rewrite IH].
Qed.

Lemma drop_white_split s :
  exists lead, s = lead ++ drop_white s /\ forallb is_white lead = true.
Proof.
  induction s as [|c s (lead & Hs & Hl)]; [now exists []|].
  simpl. destruct (is_white c) eqn:E.
  - exists (c :: lead). simpl. rewrite E, Hl. split; [now f_equal | reflexivity].
  - now exists [].
Qed.

Lemma forallb_rev {A} (f : A -> bool) l :
  forallb f l = true -> forallb f (rev l) = true.
Proof.
  rewrite !forallb_forall. intros H x Hx. apply H. now apply in_rev.
Qed.

(** A string is its trimmed form between two runs of white space. *)
Lemma trim_split s :
  exists lead trail,
    s = lead ++ trim s ++ trail
    /\ forallb is_white lead = true /\ forallb is_white trail = true.
Proof.
  destruct (drop_white_split s) as (lead & Hs & Hl).
  destruct (drop_white_split (rev (drop_white s))) as (back & Hr & Hb).
  exists lead, (rev back). repeat split; [|assumption|now apply forallb_rev].
  unfold trim. rewrite <- rev_app_distr, <- Hr, rev_involutive. exact Hs.
Qed.

Lemma forallb_white_app a b :
  forallb is_white a = true -> forallb is_white b = true ->
  forallb is_white (a ++ b) = true.
Proof. intros Ha Hb. now rewrite forallb_app, Ha, Hb. Qed.

Lemma woven_after_gap gap chunks text :
  forallb is_white gap = true -> woven chunks text -> woven chunks (gap ++ text).
Proof.
  intros Hg H. destruct H as [g Hw|g c chunks rest Hw Hrest].
  - constructor. now apply forallb_white_app.
  - rewrite app_assoc. constructor; [now apply forallb_white_app | assumption].
Qed.

Lemma woven_app cs1 t1 cs2 t2 :
  woven cs1 t1 -> woven cs2 t2 -> woven (cs1 ++ cs2) (t1 ++ t2).
Proof.
  induction 1 as [g Hg|g c chunks rest Hg _ IH]; intros H2; simpl.
  - now apply woven_after_gap.
  - rewrite <- !app_assoc. constructor; auto.
Qed.

Lemma woven_concat chunks : woven chunks (concat chunks).
Proof.
  induction chunks as [|c chunks IH]; simpl.
  - now constructor.
  - now apply (woven_chunk [] c).
Qed.

Lemma woven_flush chunks pre cur :
  woven chunks pre -> woven (flush chunks cur) (pre ++ cur).
Proof.
  intros H. unfold flush.
  destruct (trim_split cur) as (lead & trail & Hcur & Hl & Ht).
  destruct (trim cur) as [|c0 t0] eqn:E.
  - rewrite <- (app_nil_r chunks). apply woven_app; [assumption|].
    constructor. rewrite Hcur. simpl. now apply forallb_white_app.
  - apply woven_app; [assumption|]. rewrite Hcur.
    constructor; [assumption | now constructor].
Qed.

(** One iteration: what is flushed so far is woven into what was read
    before [currentChunk]. *)
Lemma woven_accumulate_step maxLen a p pre :
  woven (chunks_of a) pre ->
  exists pre',
    woven (chunks_of (accumulate maxLen a p)) pre'
    /\ pre' ++ current (accumulate maxLen a p) = pre ++ current a ++ p.
Proof.
  intros H. unfold accumulate.
  destruct (length (current a) + length p <=? maxLen); simpl.
  - now exists pre.
  - exists (pre ++ current a). split; [now apply woven_flush|].
    now rewrite <- app_assoc.
Qed.

Lemma woven_accumulate maxLen parts : forall a pre,
  woven (chunks_of a) pre ->
  exists pre',
    woven (chunks_of (fold_left (accumulate maxLen) parts a)) pre'
    /\ pre' ++ current (fold_left (accumulate maxLen) parts a)
       = pre ++ current a ++ concat parts.
Proof.
  induction parts as [|p parts IH]; intros a pre H; cbn [fold_left concat].
  - exists pre. now rewrite app_nil_r.
  - destruct (woven_accumulate_step maxLen a p H) as (pre1 & H1 & E1).
    destruct (IH _ _ H1) as (pre' & Hw & He).
    exists pre'. split; [assumption|].
    now rewrite He, app_assoc, E1, <- !app_assoc.
Qed.

Lemma woven_greedy text maxLen : woven (greedy text maxLen) text.
Proof.
  unfold greedy.
  destruct (@woven_accumulate maxLen (split_sentences text)
              {| chunks_of := []; current := [] |} [])
    as (pre & Hw & He); [now constructor|].
  simpl in He. unfold split_sentences in He at 2. rewrite concat_pieces in He.
  remember (fold_left (accumulate maxLen) (split_sentences text)
              {| chunks_of := []; current := [] |}) as a' eqn:Ha.
  clear Ha. subst text. now apply woven_flush.
Qed.

Lemma woven_filter chunks text :
  woven chunks text ->
  woven (filter (fun chunk => 0 <? length chunk) chunks) text.
Proof.
  induction 1 as [g Hg|g c chunks rest Hg _ IH]; simpl.
  - now constructor.
  - destruct c as [|c0 c]; simpl.
    + now apply woven_after_gap.
    + now apply (woven_chunk g (c0 :: c)).
Qed.

End ChunkerFacts.

(** C7.  For a non-empty text and [maxLen >= 1], [smartChunkText] returns;
    none of its chunks is the empty string; the text is the chunks in
    their order with nothing but white space (the trimmed separators)
    before, between and after them; so the chunks, joined, carry exactly
    the non-white-space units of the text, in the order of the text. *)
Theorem C7_chunks_nonempty_and_keep_content text maxLen :
  text <> [] -> 1 <= maxLen ->
  exists chunks,
    smartChunkText text maxLen = Some chunks
    /\ Forall (fun c => c <> []) chunks
    /\ woven chunks text
    /\ content (concat chunks) = content text.
Proof.
  intros Ht Hm. unfold smartChunkText.
  destruct text as [|c0 text0]; [congruence|].
  set (text := c0 :: text0) in *.
  destruct (greedy text maxLen) eqn:G.
  - destruct (@slices_spec maxLen text Hm (length text) 0) as (l & Hl & Hc & _);
      [lia|].
    rewrite Hl. simpl. eexists; split; [reflexivity|]. repeat split.
    + apply filter_nonempty_all.
    + apply woven_filter. simpl in Hc. rewrite <- Hc. apply woven_concat.
    + rewrite concat_filter_nonempty, Hc. reflexivity.
  - rewrite <- G. cbv [option_map]. eexists; split; [reflexivity|].
    repeat split.
    + apply filter_nonempty_all.
    + apply woven_filter, woven_greedy.
    + rewrite concat_filter_nonempty. apply content_greedy.
Qed.

Lemma C7_witness :
  exists chunks,
    smartChunkText (js "One. Two") 5 = Some chunks
    /\ Forall (fun c => c <> []) chunks
    /\ woven chunks (js "One. Two")
    /\ content (concat chunks) = content (js "One. Two").
Proof.
  apply (@C7_chunks_nonempty_and_keep_content (js "One. Two") 5).
  - discriminate.
  - lia.
Defined.

(** C8 (as stated, refuted).  On ["Hello, world. Second sentence!"] with
    [chunk_size = 10] the chunker does not return
    [["Hello,", "world.", "Second", "sentence!"]]: the split is on
    punctuation only, never on a space. *)
Lemma C8_stated_result_refuted :
  smartChunkText (js "Hello, world. Second sentence!") 10
  <> Some [js "Hello,"; js "world."; js "Second"; js "sentence!"].
Proof. vm_compute. discriminate. Qed.

(** C8 (amended).  On ["Hello, world. Second sentence!"] with
    [chunk_size = 10] the chunker returns exactly
    [["Hello,", "world.", "Second sentence", "!"]], in that order. *)
Theorem C8_sample_chunks :
  smartChunkText (js "Hello, world. Second sentence!") 10
  = Some [js "Hello,"; js "world."; js "Second sentence"; js "!"].
Proof. reflexivity. Qed.

(** What the accumulation loop makes of a text that is a single part. *)
Lemma greedy_single_part text maxLen :
  split_sentences text = [text] -> greedy text maxLen = flush [] text.
Proof.
  intros H. unfold greedy. rewrite H. simpl. unfold accumulate. simpl.
  destruct (length text <=? maxLen); reflexivity.
Qed.

Lemma trim_nonempty_length s : trim s <> [] -> 1 <= length (trim s).
Proof. destruct (trim s); simpl; [congruence | lia]. Qed.

(** C4 (as stated, refuted).  ["abcdefghij"] holds no boundary unit, yet
    with [maxLen = 3] the chunker returns it whole: the slicing loop is
    not entered and the chunk is longer than [maxLen]. *)
Lemma C4_no_boundary_chunk_exceeds_bound :
  forallb (fun c => negb (is_boundary c)) (js "abcdefghij") = true
  /\ smartChunkText (js "abcdefghij") 3 = Some [js "abcdefghij"]
  /\ ~ Forall (fun c => length c <= 3) [js "abcdefghij"].
Proof.
  split; [reflexivity|]. split; [reflexivity|].
  intros H. inversion H as [|? ? Hlen _]; subst. simpl in Hlen. lia.
Qed.

(** C4 (amended).  For a non-empty text without boundary unit and
    [maxLen >= 1]: when the text is white space only, the fixed-width
    slicing is used and every returned chunk has length between 1 and
    [maxLen]; otherwise the chunker returns the trimmed text as its single
    chunk, whatever its length. *)
Theorem C4_no_boundary_chunks text maxLen :
  text <> [] ->
  forallb (fun c => negb (is_boundary c)) text = true ->
  1 <= maxLen ->
  match trim text with
  | [] =>
      exists chunks,
        slices (length text) text maxLen 0 = Some chunks
        /\ smartChunkText text maxLen = Some chunks
        /\ Forall (fun c => 1 <= length c <= maxLen) chunks
  | trimmed => smartChunkText text maxLen = Some [trimmed]
  end.
Proof.
  intros Ht Hb Hm.
  pose proof (greedy_single_part maxLen (pieces_no_boundary text Hb)) as G.
  unfold smartChunkText, flush in *.
  destruct text as [|c0 text0]; [congruence|].
  set (text := c0 :: text0) in *.
  rewrite G. destruct (trim text) as [|c1 rest] eqn:E.
  - destruct (@slices_spec maxLen text Hm (length text) 0) as (l & Hl & _ & Hall);
      [lia|].
    exists l. rewrite Hl. cbv [option_map].
    rewrite (filter_nonempty_id Hall). auto.
  - reflexivity.
Qed.

Lemma C4_witness :
  exists chunks,
    slices 3 (js "   ") 2 0 = Some chunks
    /\ smartChunkText (js "   ") 2 = Some chunks
    /\ Forall (fun c => 1 <= length c <= 2) chunks.
Proof.
  apply (@C4_no_boundary_chunks (js "   ") 2).
  - discriminate.
  - reflexivity.
  - lia.
Defined.

(* ------------------------------------------------------------------ *)
(** ** Credential manager *)
(* ------------------------------------------------------------------ *)

Section CredentialFacts.

Variable coerce : Z -> value -> option bool.


Lemma enter_refreshing ti now_ms :
  still_valid coerce ti now_ms = Some false -> enter coerce ti now_ms = Refreshing.
Proof.
  intros V. destruct ti as [|e exp]; [reflexivity|]. unfold enter.
  now rewrite V.
Qed.

Lemma enter_served ti now_ms :
  still_valid coerce ti now_ms = Some true ->
  exists e exp, ti = Cached e exp /\ enter coerce ti now_ms = Served e.
Proof.
  intros V. destruct ti as [|e exp]; [discriminate|].
  exists e, exp. split; [reflexivity|]. unfold enter. now rewrite V.
Qed.



Lemma nth_error_middle {A} (done : list A) x rest :
  nth_error (done ++ x :: rest) (length done) = Some x.
Proof. induction done; simpl; auto. Qed.

Lemma set_task_middle done x y rest :
  set_task (done ++ x :: rest) (length done) y = done ++ y :: rest.
Proof. induction done; simpl; [reflexivity | now f_equal]. Qed.

(** Running one step per waiting caller, when each step turns the state
    [from] of its caller into [to] and adds [d] to the counter. *)
Lemma run_each (mk : nat -> Step) (from to : Task) (d : nat) ti :
  (forall done rest n,
      step coerce
           {| cache := ti; tasks := done ++ from :: rest; handshakes := n |}
           (mk (length done))
      = {| cache := ti; tasks := done ++ to :: rest; handshakes := d + n |}) ->
  forall m done n,
    run coerce
        {| cache := ti; tasks := done ++ repeat from m; handshakes := n |}
        (map mk (seq (length done) m))
    = {| cache := ti; tasks := done ++ repeat to m; handshakes := m * d + n |}.
Proof.
  intros Hstep. unfold run.
  induction m as [|m IH]; intros done n; [reflexivity|].
  cbn [seq map fold_left repeat]. rewrite Hstep.
  specialize (IH (done ++ [to]) (d + n)).
  rewrite length_app, <- !app_assoc in IH. cbn [length app] in IH.
  rewrite Nat.add_1_r in IH. rewrite IH. f_equal. lia.
Qed.

Lemma in_flight_repeat ti k n :
  in_flight {| cache := ti; tasks := repeat InFlight k; handshakes := n |} = k.
Proof.
  unfold in_flight. simpl. induction k; simpl; [reflexivity | now f_equal].
Qed.

(** Every caller enters at one clock reading. *)
Lemma enter_all_run ti k now_ms :
  run coerce (start ti k) (enter_all k now_ms)
  = {| cache := ti;
       tasks := repeat (match enter coerce ti now_ms with
                        | Served e => Finished (Fulfilled e)
                        | Thrown m => Finished (Rejected m)
                        | Refreshing => Signing
                        end) k;
       handshakes := 0 |}.
Proof.
  unfold start, enter_all.
  assert (Hstep : forall done rest n,
             step coerce
                  {| cache := ti; tasks := done ++ Idle :: rest; handshakes := n |}
                  (Enter (length done) now_ms)
             = {| cache := ti;
                  tasks := done ++ (match enter coerce ti now_ms with
                                    | Served e => Finished (Fulfilled e)
                                    | Thrown m => Finished (Rejected m)
                                    | Refreshing => Signing
                                    end) :: rest;
                  handshakes := 0 + n |}).
  { intros. cbn [step tasks cache handshakes].
    rewrite nth_error_middle.
    destruct (enter coerce ti now_ms); now rewrite set_task_middle. }
  pose proof (@run_each (fun i => Enter i now_ms) Idle _ 0 ti Hstep k [] 0) as R.
  cbn [app length] in R. rewrite R. f_equal. lia.
Qed.

(** Then every signature is computed. *)
Lemma sign_all_run ti k sig :
  run coerce {| cache := ti; tasks := repeat Signing k; handshakes := 0 |}
      (sign_all k sig)
  = {| cache := ti; tasks := repeat InFlight k; handshakes := k |}.
Proof.
  unfold sign_all.
  assert (Hstep : forall done rest n,
             step coerce
                  {| cache := ti; tasks := done ++ Signing :: rest;
                     handshakes := n |}
                  (Signed (length done) (Fulfilled sig))
             = {| cache := ti; tasks := done ++ InFlight :: rest;
                  handshakes := 1 + n |}).
  { intros. cbn [step tasks cache handshakes].
    now rewrite nth_error_middle, set_task_middle. }
  pose proof (@run_each (fun i => Signed i (Fulfilled sig)) Signing InFlight 1
                ti Hstep k [] 0) as R.
  cbn [app length] in R. rewrite R. f_equal. lia.
Qed.

(** *** Counting callers by state *)

Lemma tally_set_task (f : Task -> nat) ts : forall i old x,
  nth_error ts i = Some old ->
  list_sum (map f (set_task ts i x)) + f old = list_sum (map f ts) + f x.
Proof.
  induction ts as [|y ts IH]; intros [|i] old x H; simpl in *;
    try discriminate.
  - inversion H; subst. lia.
  - specialize (IH i old x H). lia.
Qed.

Lemma length_set_task ts : forall i x, length (set_task ts i x) = length ts.
Proof.
  induction ts as [|y ts IH]; intros [|i] x; simpl; auto.
Qed.

Lemma forallb_set_task (P : Task -> bool) ts : forall i x,
  forallb P ts = true -> P x = true -> forallb P (set_task ts i x) = true.
Proof.
  induction ts as [|y ts IH]; intros [|i] x H Hx; simpl in *; auto;
    apply andb_prop in H as [H1 H2]; apply andb_true_intro; split; auto.
Qed.

Lemma forallb_nth_error (P : Task -> bool) ts i x :
  forallb P ts = true -> nth_error ts i = Some x -> P x = true.
Proof.
  intros H E. rewrite forallb_forall in H. apply H.
  eapply nth_error_In; eassumption.
Qed.

Lemma in_flight_tally c : in_flight c = list_sum (map flying (tasks c)).
Proof.
  unfold in_flight. induction (tasks c) as [|x ts IH]; [reflexivity|].
  destruct x; simpl; now rewrite IH.
Qed.

Lemma pending_tally ts :
  forallb pending ts = true ->
  list_sum (map flying ts) + waiting_callers ts = length ts.
Proof.
  unfold waiting_callers. induction ts as [|x ts IH]; [reflexivity|].
  simpl. intros H. apply andb_prop in H as [Hx Hts].
  specialize (IH Hts). destruct x; simpl in *; try discriminate; lia.
Qed.

Lemma idle_or_served_not_flying ti ts :
  forallb (idle_or_served ti) ts = true -> list_sum (map flying ts) = 0.
Proof.
  induction ts as [|x ts IH]; [reflexivity|].
  simpl. intros H. apply andb_prop in H as [Hx Hts].
  rewrite (IH Hts). destruct x; simpl in *; try discriminate; reflexivity.
Qed.

(** One step taken before any answer: the cache is not written, no
    caller finishes, and a request is counted exactly when a caller
    takes flight. *)
Lemma quiet_step ti c s :
  quiet coerce ti s = true ->
  cache c = ti ->
  forallb pending (tasks c) = true ->
  handshakes c = list_sum (map flying (tasks c)) ->
  cache (step coerce c s) = ti
  /\ length (tasks (step coerce c s)) = length (tasks c)
  /\ forallb pending (tasks (step coerce c s)) = true
  /\ handshakes (step coerce c s)
     = list_sum (map flying (tasks (step coerce c s))).
Proof.
  intros Hq Hc Hp Hh.
  destruct s as [i now_ms|i [sig|e]|i h]; cbn [quiet] in Hq;
    try discriminate; cbn [step].
  - destruct (nth_error (tasks c) i) as [[| | |res]|] eqn:E; auto.
    destruct (still_valid coerce ti now_ms) as [[|]|] eqn:V; try discriminate.
    rewrite Hc, (enter_refreshing _ _ V). cbn [cache tasks handshakes].
    pose proof (@tally_set_task flying (tasks c) i Idle Signing E) as T.
    cbn [flying] in T.
    repeat split; [apply length_set_task | now apply forallb_set_task | lia].
  - destruct (nth_error (tasks c) i) as [[| | |res]|] eqn:E; auto.
    cbn [cache tasks handshakes].
    pose proof (@tally_set_task flying (tasks c) i Signing InFlight E) as T.
    cbn [flying] in T.
    repeat split;
      [assumption | apply length_set_task | now apply forallb_set_task | lia].
Qed.

Lemma quiet_run ti steps : forall c,
  forallb (quiet coerce ti) steps = true ->
  cache c = ti ->
  forallb pending (tasks c) = true ->
  handshakes c = list_sum (map flying (tasks c)) ->
  cache (run coerce c steps) = ti
  /\ length (tasks (run coerce c steps)) = length (tasks c)
  /\ forallb pending (tasks (run coerce c steps)) = true
  /\ handshakes (run coerce c steps)
     = list_sum (map flying (tasks (run coerce c steps))).
Proof.
  unfold run. induction steps as [|s steps IH]; intros c Hq Hc Hp Hh;
    [now repeat split|].
  cbn [forallb] in Hq. apply andb_prop in Hq as [Hs Hq].
  destruct (@quiet_step ti c s Hs Hc Hp Hh) as (Hc' & Hl' & Hp' & Hh').
  cbn [fold_left].
  destruct (IH (step coerce c s) Hq Hc' Hp' Hh') as (A & B & C & D).
  repeat split; [assumption | congruence | assumption | assumption].
Qed.

(** One step that finds the cache valid: nothing is sent and nothing is
    written. *)
Lemma passing_step ti c s :
  passing coerce ti s = true ->
  cache c = ti ->
  forallb (idle_or_served ti) (tasks c) = true ->
  cache (step coerce c s) = ti
  /\ handshakes (step coerce c s) = handshakes c
  /\ forallb (idle_or_served ti) (tasks (step coerce c s)) = true.
Proof.
  intros Hq Hc Hp.
  destruct s as [i now_ms|i [sig|e]|i h]; cbn [passing] in Hq; cbn [step].
  - destruct (nth_error (tasks c) i) as [[| | |res]|] eqn:E; auto.
    destruct (still_valid coerce ti now_ms) as [[|]|] eqn:V; try discriminate.
    destruct (enter_served _ _ V) as (e & exp & Hti & He).
    rewrite Hc, He. cbn [cache tasks handshakes].
    split; [reflexivity|]. split; [reflexivity|].
    apply forallb_set_task; [assumption|].
    rewrite Hti. cbn [idle_or_served]. now rewrite !str_eqb_refl.
  - destruct (nth_error (tasks c) i) as [[| | |res]|] eqn:E; auto.
    pose proof (forallb_nth_error _ _ _ Hp E) as F. discriminate.
  - destruct (nth_error (tasks c) i) as [[| | |res]|] eqn:E; auto.
    pose proof (forallb_nth_error _ _ _ Hp E) as F. discriminate.
  - destruct (nth_error (tasks c) i) as [[| | |res]|] eqn:E;
      destruct (sent_request h); auto.
    pose proof (forallb_nth_error _ _ _ Hp E) as F. discriminate.
Qed.

Lemma passing_run ti steps : forall c,
  forallb (passing coerce ti) steps = true ->
  cache c = ti ->
  forallb (idle_or_served ti) (tasks c) = true ->
  cache (run coerce c steps) = ti
  /\ handshakes (run coerce c steps) = handshakes c
  /\ forallb (idle_or_served ti) (tasks (run coerce c steps)) = true.
Proof.
  unfold run. induction steps as [|s steps IH]; intros c Hq Hc Hp;
    [now repeat split|].
  cbn [forallb] in Hq. apply andb_prop in Hq as [Hs Hq].
  destruct (@passing_step ti c s Hs Hc Hp) as (Hc' & Hh' & Hp').
  cbn [fold_left].
  destruct (IH (step coerce c s) Hq Hc' Hp') as (A & B & C).
  repeat split; [assumption | congruence | assumption].
Qed.

Lemma start_idle ti k :
  forallb pending (tasks (start ti k)) = true
  /\ forallb (idle_or_served ti) (tasks (start ti k)) = true
  /\ list_sum (map flying (tasks (start ti k))) = 0
  /\ length (tasks (start ti k)) = k.
Proof.
  unfold start. cbn [tasks].
  split; [|split; [|split]].
  - induction k as [|k IH]; simpl; auto.
  - induction k as [|k IH]; simpl; auto.
  - induction k as [|k IH]; simpl; auto.
  - apply repeat_length.
Qed.

End CredentialFacts.



(** C9 (as stated, refuted).  Two callers find nothing cached: each runs
    its expiry check before the other's handshake has come back, each
    signs and sends its own request.  Two handshake calls are issued and
    both are in flight at once. *)
Lemma C9_two_callers_two_handshakes :
  let c := run not_a_number (start NoToken 2)
               [ Enter 0 1000000; Enter 1 1000000;
                 Signed 0 (Fulfilled (js "sig0"));
                 Signed 1 (Fulfilled (js "sig1")) ] in
  handshakes c = 2 /\ in_flight c = 2.
Proof. split; reflexivity. Qed.

(** C9 (amended).  The expiry check and the refresh are not mutually
    exclusive.  However the steps of [k] callers interleave before any
    handshake has come back, whatever the clock reads at each check: when
    each check finds the cache [ti] expired or absent (and each signature
    succeeds), the cache is untouched, every request sent is still in
    flight, and there is one request for every caller that has got past
    its signature, so [k] in all, [k] in flight together, once every
    caller has; in particular when all enter at one clock reading and
    then sign.  When each check finds the cache valid, each caller that
    has entered was served from the cache and no handshake call is issued,
    whatever the other steps are. *)
Theorem C9_one_handshake_per_caller coerce ti k steps now_ms sig :
  (if forallb (quiet coerce ti) steps
   then let c := run coerce (start ti k) steps in
        cache c = ti
        /\ forallb pending (tasks c) = true
        /\ handshakes c = in_flight c
        /\ handshakes c + waiting_callers (tasks c) = k
   else True)
  /\ match enter coerce ti now_ms with
     | Served e =>
         run coerce (start ti k) (enter_all k now_ms)
         = {| cache := ti; tasks := repeat (Finished (Fulfilled e)) k;
              handshakes := 0 |}
     | Thrown m =>
         run coerce (start ti k) (enter_all k now_ms)
         = {| cache := ti; tasks := repeat (Finished (Rejected m)) k;
              handshakes := 0 |}
     | Refreshing =>
         let c := run coerce (start ti k) (enter_all k now_ms ++ sign_all k sig) in
         c = {| cache := ti; tasks := repeat InFlight k; handshakes := k |}
         /\ in_flight c = k
     end
  /\ (if forallb (passing coerce ti) steps
      then let c := run coerce (start ti k) steps in
           cache c = ti
           /\ handshakes c = 0
           /\ in_flight c = 0
           /\ forallb (idle_or_served ti) (tasks c) = true
      else True).
Proof.
  destruct (start_idle ti k) as (Sp & Ss & Sf & Sl).
  split; [|split].
  - destruct (forallb (quiet coerce ti) steps) eqn:Q; [|exact I].
    cbv zeta.
    destruct (@quiet_run coerce ti steps (start ti k) Q eq_refl Sp
                ltac:(rewrite Sf; reflexivity)) as (A & B & C & D).
    rewrite in_flight_tally.
    repeat split; try assumption.
    rewrite D. rewrite (pending_tally _ C). congruence.
  - pose proof (enter_all_run coerce ti k now_ms) as R.
    destruct (enter coerce ti now_ms) as [e|m|]; try exact R.
    cbv zeta. unfold run in *. rewrite fold_left_app, R.
    pose proof (sign_all_run coerce ti k sig) as R2. unfold run in R2.
    rewrite R2. split; [reflexivity | apply in_flight_repeat].
  - destruct (forallb (passing coerce ti) steps) eqn:Q; [|exact I].
    cbv zeta.
    destruct (@passing_run coerce ti steps (start ti k) Q eq_refl Ss)
      as (A & B & C).
    rewrite in_flight_tally, (idle_or_served_not_flying _ _ C).
    repeat split; assumption.
Qed.

(** An interleaving that is not "all enter, then all sign": the second
    caller checks the cache, at a later clock reading, after the first
    has sent its request. *)
Example late_caller_sends_its_own_request :
  let steps := [ Enter 0 1000000; Signed 0 (Fulfilled (js "sig0"));
                 Enter 1 1000250; Signed 1 (Fulfilled (js "sig1")) ] in
  forallb (quiet not_a_number NoToken) steps = true
  /\ handshakes (run not_a_number (start NoToken 2) steps) = 2
  /\ in_flight (run not_a_number (start NoToken 2) steps) = 2.
Proof. repeat split. Qed.

(* ------------------------------------------------------------------ *)
(** ** Joining a window: [Promise.all] *)
(* ------------------------------------------------------------------ *)

Section JoinFacts.

Context {A : Type}.

Implicit Types (slots : list (option A)) (outcomes : list (Settled A)).

Lemma length_fill slots i (v : A) : length (fill slots i v) = length slots.
Proof.
  revert i; induction slots as [|s slots IH]; intros [|i]; simpl; auto.
Qed.

Lemma nth_error_fill_same slots i (v : A) :
  i < length slots -> nth_error (fill slots i v) i = Some (Some v).
Proof.
  revert i; induction slots as [|s slots IH]; intros [|i]; simpl; intros H;
    try lia; auto. apply IH. lia.
Qed.

Lemma nth_error_fill_other slots i j (v : A) :
  i <> j -> nth_error (fill slots i v) j = nth_error slots j.
Proof.
  revert i j; induction slots as [|s slots IH]; intros [|i] [|j] H; simpl;
    auto; try congruence.
Qed.

(** [collect] succeeds exactly when every slot is filled, and then lists
    the slots' values. *)
Lemma collect_some slots values :
  collect slots = Some values -> slots = map Some values.
Proof.
  revert values; induction slots as [|[v|] slots IH]; simpl; intros values H.
  - now inversion H.
  - destruct (collect slots) as [l|]; simpl in H; [|discriminate].
    inversion H; subst. simpl. now rewrite (IH l).
  - discriminate.
Qed.

Lemma collect_none slots :
  collect slots = None ->
  exists j, j < length slots /\ nth_error slots j = Some None.
Proof.
  induction slots as [|[v|] slots IH]; simpl; intros H.
  - discriminate.
  - destruct (collect slots) as [l|]; simpl in H; [discriminate|].
    destruct IH as (j & Hj & Hn); [reflexivity|].
    exists (S j). split; [lia | assumption].
  - exists 0. split; [lia | reflexivity].
Qed.

Lemma sound_fill slots outcomes i v :
  sound_slots slots outcomes ->
  nth_error outcomes i = Some (Fulfilled v) ->
  sound_slots (fill slots i v) outcomes.
Proof.
  intros [Hlen Hs] Hi. split; [now rewrite length_fill|].
  intros j u Hj. destruct (Nat.eq_dec i j) as [<-|Hne].
  - rewrite nth_error_fill_same in Hj.
    + now inversion Hj; subst.
    + rewrite Hlen. apply nth_error_Some. congruence.
  - rewrite nth_error_fill_other in Hj by assumption. auto.
Qed.

Lemma awaited_fill slots i later (v : A) :
  awaited slots (i :: later) -> awaited (fill slots i v) later.
Proof.
  intros H j Hj. destruct (Nat.eq_dec i j) as [<-|Hne].
  - assert (i < length slots).
    { rewrite <- (length_fill slots i v). apply nth_error_Some. congruence. }
    rewrite nth_error_fill_same in Hj by assumption. discriminate.
  - rewrite nth_error_fill_other in Hj by assumption.
    destruct (H j Hj); [congruence | assumption].
Qed.

(** When every promise fulfils and each one settles, the join fulfils
    with the values by position, whatever the settle order. *)
Lemma arrivals_fulfilled order : forall slots (values : list A),
  sound_slots slots (map (@Fulfilled A) values) ->
  awaited slots order ->
  arrivals order (map (@Fulfilled A) values) slots = AllFulfilled values.
Proof.
  induction order as [|i later IH]; intros slots values Hs Ha; simpl.
  - destruct (collect slots) as [l|] eqn:C.
    + f_equal. apply collect_some in C. subst slots.
      destruct Hs as [Hlen Hs]. rewrite !length_map in Hlen.
      apply nth_error_ext. intros j.
      destruct (nth_error l j) as [v|] eqn:E.
      * specialize (Hs j v). rewrite nth_error_map, E in Hs.
        specialize (Hs eq_refl). rewrite nth_error_map in Hs.
        destruct (nth_error values j); simpl in Hs; congruence.
      * apply nth_error_None in E. symmetry. apply nth_error_None. lia.
    + apply collect_none in C as (j & _ & Hn). destruct (Ha j Hn).
  - destruct (collect slots) as [l|] eqn:C.
    + f_equal. apply collect_some in C. subst slots.
      destruct Hs as [Hlen Hs]. rewrite !length_map in Hlen.
      apply nth_error_ext. intros j.
      destruct (nth_error l j) as [v|] eqn:E.
      * specialize (Hs j v). rewrite nth_error_map, E in Hs.
        specialize (Hs eq_refl). rewrite nth_error_map in Hs.
        destruct (nth_error values j); simpl in Hs; congruence.
      * apply nth_error_None in E. symmetry. apply nth_error_None. lia.
    + destruct (nth_error (map (@Fulfilled A) values) i) as [[v|e]|] eqn:E.
      * apply IH; [now apply sound_fill | now apply awaited_fill].
      * rewrite nth_error_map in E.
        destruct (nth_error values i); simpl in E; discriminate.
      * apply IH; [assumption|].
        intros j Hj. destruct (Ha j Hj) as [<-|]; [|assumption].
        apply nth_error_None in E. destruct Hs as [Hlen _].
        assert (i < length slots) by (apply nth_error_Some; congruence). lia.
Qed.

(** When some promise rejects and each one settles, the join rejects,
    with the error of one of the rejected promises. *)
Lemma arrivals_rejected order : forall slots outcomes k e,
  sound_slots slots outcomes ->
  awaited slots order ->
  nth_error outcomes k = Some (Rejected e) ->
  exists k' e', arrivals order outcomes slots = AllRejected e'
                /\ nth_error outcomes k' = Some (Rejected e').
Proof.
  assert (Hfull : forall slots outcomes k e l,
             sound_slots slots outcomes ->
             nth_error outcomes k = Some (Rejected e) ->
             collect slots = Some l -> False).
  { intros slots outcomes k e l [Hlen Hs] Hk C.
    apply collect_some in C. subst slots. rewrite length_map in Hlen.
    assert (Hlt : k < length l).
    { rewrite Hlen. apply nth_error_Some. congruence. }
    destruct (nth_error l k) as [v|] eqn:E;
      [|apply nth_error_None in E; lia].
    specialize (Hs k v). rewrite nth_error_map, E in Hs.
    specialize (Hs eq_refl). congruence. }
  induction order as [|i later IH]; intros slots outcomes k e Hs Ha Hk; simpl.
  - destruct (collect slots) as [l|] eqn:C; [destruct (Hfull _ _ _ _ _ Hs Hk C)|].
    apply collect_none in C as (j & _ & Hn). destruct (Ha j Hn).
  - destruct (collect slots) as [l|] eqn:C; [destruct (Hfull _ _ _ _ _ Hs Hk C)|].
    destruct (nth_error outcomes i) as [[v|e1]|] eqn:E.
    + apply (IH _ _ k e); [now apply sound_fill | now apply awaited_fill | assumption].
    + eauto.
    + apply (IH _ _ k e); [assumption | | assumption].
      intros j Hj. destruct (Ha j Hj) as [<-|]; [|assumption].
      apply nth_error_None in E. destruct Hs as [Hlen _].
      assert (i < length slots) by (apply nth_error_Some; congruence). lia.
Qed.

Lemma nth_error_repeat_None n j :
  nth_error (repeat (@None A) n) j = Some None -> j < n.
Proof.
  intros H. rewrite <- (repeat_length (@None A) n).
  apply nth_error_Some. congruence.
Qed.

Lemma sound_empty outcomes :
  sound_slots (repeat None (length outcomes)) outcomes.
Proof.
  split; [apply repeat_length|].
  intros j v H. exfalso.
  assert (In (Some v) (repeat (@None A) (length outcomes)))
    by (eapply nth_error_In; eassumption).
  apply repeat_spec in H0. discriminate.
Qed.

Lemma promise_all_fulfilled order (values : list A) :
  (forall j, j < length values -> In j order) ->
  promise_all order (map (@Fulfilled A) values) = AllFulfilled values.
Proof.
  intros H. unfold promise_all. apply arrivals_fulfilled.
  - apply sound_empty.
  - intros j Hj. apply nth_error_repeat_None in Hj.
    rewrite length_map in Hj. auto.
Qed.

Lemma promise_all_rejected order outcomes k e :
  (forall j, j < length outcomes -> In j order) ->
  nth_error outcomes k = Some (Rejected e) ->
  exists k' e', promise_all order outcomes = AllRejected e'
                /\ nth_error outcomes k' = Some (Rejected e').
Proof.
  intros H Hk. unfold promise_all. apply (@arrivals_rejected order _ _ k e).
  - apply sound_empty.
  - intros j Hj. apply nth_error_repeat_None in Hj. auto.
  - assumption.
Qed.

(** A list of settled promises holds a rejection or is all fulfilled. *)
Lemma fulfilled_or_rejected outcomes :
  (exists values, outcomes = map (@Fulfilled A) values)
  \/ (exists k e, nth_error outcomes k = Some (Rejected e)).
Proof.
  induction outcomes as [|[v|e] outcomes [[values ->]|(k & e' & Hk)]].
  - left. now exists [].
  - left. now exists (v :: values).
  - right. now exists (S k), e'.
  - right. now exists 0, e.
  - right. now exists 0, e.
Qed.

End JoinFacts.

Example join_out_of_order :
  promise_all [2; 0; 1] [Fulfilled 10; Fulfilled 11; Fulfilled 12]
  = AllFulfilled [10; 11; 12].
Proof. reflexivity. Qed.

Example join_first_rejection_wins :
  promise_all [2; 0; 1]
    [Rejected (Foreign (js "a")); Fulfilled 11; Rejected (Foreign (js "c"))]
  = AllRejected (Foreign (js "c")).
Proof. reflexivity. Qed.

Example join_waits_for_all :
  promise_all [2; 0] [Fulfilled 10; Fulfilled 11; Fulfilled 12] = AllPending.
Proof. reflexivity. Qed.

(* ------------------------------------------------------------------ *)
(** ** Windows *)
(* ------------------------------------------------------------------ *)

Section ListFacts.

Context {A : Type}.

Lemma numbered_cons k (x : A) l : numbered k (x :: l) = (k, x) :: numbered (S k) l.
Proof. reflexivity. Qed.

Lemma numbered_skipn (l : list A) : forall i k,
  skipn i (numbered k l) = numbered (k + i) (skipn i l).
Proof.
  induction l as [|x l IH]; intros [|i] k.
  - reflexivity.
  - reflexivity.
  - now rewrite Nat.add_0_r.
  - rewrite numbered_cons. cbn [skipn]. rewrite IH. f_equal. lia.
Qed.

Lemma numbered_firstn (l : list A) : forall c k,
  firstn c (numbered k l) = numbered k (firstn c l).
Proof.
  induction l as [|x l IH]; intros [|c] k; try reflexivity.
  rewrite numbered_cons. cbn [firstn]. rewrite numbered_cons, IH. reflexivity.
Qed.

Lemma numbered_slice (l : list A) i c :
  numbered i (slice l i (i + c)) = slice (numbered 0 l) i (i + c).
Proof.
  unfold slice. replace (i + c - i) with c by lia.
  now rewrite numbered_skipn, numbered_firstn.
Qed.

Lemma length_numbered k (l : list A) : length (numbered k l) = length l.
Proof.
  unfold numbered. rewrite length_combine, length_seq. lia.
Qed.

Lemma length_slice (l : list A) i c :
  length (slice l i (i + c)) = Nat.min c (length l - i).
Proof.
  unfold slice. replace (i + c - i) with c by lia.
  now rewrite length_firstn, length_skipn.
Qed.

Lemma slice_then_rest (l : list A) i c :
  slice l i (i + c) ++ skipn (i + c) l = skipn i l.
Proof.
  unfold slice. replace (i + c - i) with c by lia.
  rewrite (Nat.add_comm i c), <- skipn_skipn. apply firstn_skipn.
Qed.

Lemma map_slice {B} (f : A -> B) (l : list A) i j :
  map f (slice l i j) = slice (map f l) i j.
Proof. unfold slice. now rewrite <- firstn_map, <- skipn_map. Qed.

Lemma nth_error_slice (l : list A) i c j :
  j < c -> nth_error (slice l i (i + c)) j = nth_error l (i + j).
Proof.
  intros H. unfold slice. replace (i + c - i) with c by lia.
  rewrite nth_error_firstn.
  destruct (j <? c) eqn:E; [|apply Nat.ltb_ge in E; lia].
  apply nth_error_skipn.
Qed.

End ListFacts.

(** Number of windows: the ceiling of [n / c]. *)
Lemma ceil_step n i c :
  1 <= c -> i < n ->
  (n - i + c - 1) / c = S ((n - (i + c) + c - 1) / c).
Proof.
  intros Hc Hi.
  replace (n - i + c - 1) with ((n - i - 1) + 1 * c) by lia.
  rewrite Nat.div_add by lia.
  destruct (Nat.le_gt_cases c (n - i)) as [Hge|Hlt].
  - replace (n - (i + c) + c - 1) with (n - i - 1) by lia. lia.
  - replace (n - (i + c) + c - 1) with (c - 1) by lia.
    rewrite !Nat.div_small by lia. reflexivity.
Qed.

Lemma ceil_done n i c : 1 <= c -> n <= i -> (n - i + c - 1) / c = 0.
Proof. intros. apply Nat.div_small. lia. Qed.

Section TraceFacts.

Lemma batches_from_calls open calls tr :
  batches_from open (map (fun c => Synth (fst c) (snd c)) calls ++ tr)
  = batches_from (open ++ calls) tr.
Proof.
  revert open; induction calls as [|[i text] calls IH]; intros open; simpl.
  - now rewrite app_nil_r.
  - rewrite IH, <- app_assoc. reflexivity.
Qed.

Lemma batches_window i calls tr :
  batches ((map (fun c => Synth (fst c) (snd c)) calls ++ [AwaitAll i]) ++ tr)
  = calls :: batches tr.
Proof.
  unfold batches. rewrite <- app_assoc, batches_from_calls. reflexivity.
Qed.

Lemma write_all_returns w k blobs : snd (write_all w k blobs) = Returns tt.
Proof.
  revert k; induction blobs as [|b blobs IH]; intros k; simpl; [reflexivity|].
  specialize (IH (S k)). destruct (write_all w (S k) blobs) as [tr o].
  simpl in *. now subst.
Qed.

Lemma write_all_trace w k blobs :
  fst (write_all w k blobs)
  = map (fun c => Write (fst c) (snd c) (sink_accepts w (fst c))) (numbered k blobs).
Proof.
  revert k; induction blobs as [|b blobs IH]; intros k; [reflexivity|].
  rewrite numbered_cons. cbn [write_all map fst snd].
  specialize (IH (S k)). unfold bind, emit.
  destruct (write_all w (S k) blobs) as [tr o].
  cbn [fst app] in *. now subst.
Qed.

Lemma batches_from_writes w open k blobs tr :
  batches_from open (fst (write_all w k blobs) ++ tr) = batches_from open tr.
Proof.
  rewrite write_all_trace. generalize (numbered k blobs) as l.
  induction l as [|c l IH]; simpl; auto.
Qed.

Lemma written_app a b : written (a ++ b) = written a ++ written b.
Proof.
  induction a as [|ev a IH]; simpl; [reflexivity|].
  destruct ev; simpl; now rewrite ?IH.
Qed.

Lemma written_calls calls i :
  written (map (fun c => Synth (fst c) (snd c)) calls ++ [AwaitAll i]) = [].
Proof. induction calls as [|c calls IH]; simpl; auto. Qed.

Lemma written_writes w k blobs : written (fst (write_all w k blobs)) = blobs.
Proof.
  rewrite write_all_trace. revert k.
  induction blobs as [|b blobs IH]; intros k; [reflexivity|].
  rewrite numbered_cons. simpl. now rewrite IH.
Qed.

Lemma batches_from_tail open tr ev :
  match ev with Synth _ _ | AwaitAll _ => False | _ => True end ->
  batches_from open (tr ++ [ev]) = batches_from open tr.
Proof.
  intros Hev. revert open; induction tr as [|e tr IH]; intros open; simpl.
  - destruct ev; simpl; tauto.
  - destruct e; now rewrite ?IH.
Qed.

End TraceFacts.

Section MonadFacts.

Context {A B : Type}.

Lemma bind_returns (m : M A) (f : A -> M B) a :
  snd m = Returns a -> bind m f = (fst m ++ fst (f a), snd (f a)).
Proof.
  destruct m as [tr o]. simpl. intros ->. now destruct (f a).
Qed.

Lemma bind_throws (m : M A) (f : A -> M B) e :
  snd m = Throws e -> bind m f = (fst m, Throws e).
Proof. destruct m as [tr o]. simpl. now intros ->. Qed.

End MonadFacts.

(** The test at the head of a loop: split on [length l <=? i] and turn
    the boolean into the inequality. *)
Ltac loop_guard E :=
  match goal with
  | |- context [Nat.leb ?n ?i] =>
      destruct (Nat.leb n i) eqn:E;
      [apply Nat.leb_le in E | apply Nat.leb_gt in E]
  end.

Section WindowFacts.

Variables (w : World) (chunks : list str) (concurrency : nat) (args : TtsArgs).

Hypothesis Hc : 1 <= concurrency.
Hypothesis Hsettle : all_settle w chunks concurrency = true.

Lemma next_window_start i :
  i mod concurrency = 0 -> (i + concurrency) mod concurrency = 0.
Proof.
  intros H. rewrite <- (Nat.mul_1_l concurrency) at 1.
  now rewrite Nat.Div0.mod_add.
Qed.

Lemma settle_window i j :
  i < length chunks ->
  i mod concurrency = 0 ->
  j < length (slice chunks i (i + concurrency)) ->
  In j (settle_order w i).
Proof.
  intros Hi Hmod Hj. unfold all_settle in Hsettle.
  rewrite forallb_forall in Hsettle.
  specialize (Hsettle i ltac:(apply in_seq; lia)).
  rewrite Hmod in Hsettle. cbn [Nat.eqb negb orb] in Hsettle.
  rewrite forallb_forall in Hsettle.
  specialize (Hsettle j ltac:(apply in_seq; lia)).
  apply existsb_exists in Hsettle as (x & Hin & Heq).
  apply Nat.eqb_eq in Heq. now subst.
Qed.

Lemma window_outcomes i :
  map (fun c => getAudioChunk w args (fst c) (snd c))
      (numbered i (slice chunks i (i + concurrency)))
  = slice (call_results w args chunks) i (i + concurrency).
Proof. unfold call_results. now rewrite numbered_slice, map_slice. Qed.

Lemma length_call_results : length (call_results w args chunks) = length chunks.
Proof. unfold call_results. now rewrite length_map, length_numbered. Qed.

Lemma dispatch_trace i :
  fst (dispatch w args i (slice chunks i (i + concurrency)))
  = map (fun c => Synth (fst c) (snd c))
        (slice (numbered 0 chunks) i (i + concurrency)) ++ [AwaitAll i].
Proof. unfold dispatch. cbn [fst]. now rewrite numbered_slice. Qed.

(** A window all of whose calls fulfil is joined to their values, by
    position. *)
Lemma dispatch_fulfilled i values :
  i < length chunks ->
  i mod concurrency = 0 ->
  slice (call_results w args chunks) i (i + concurrency) = map (@Fulfilled Blob) values ->
  snd (dispatch w args i (slice chunks i (i + concurrency))) = Returns values.
Proof.
  intros Hi Hmod Hv. unfold dispatch. cbn [snd].
  rewrite window_outcomes, Hv, promise_all_fulfilled; [reflexivity|].
  intros j Hj. apply settle_window; [assumption|assumption|].
  rewrite <- (length_map (@Fulfilled Blob)), <- Hv in Hj.
  rewrite length_slice, length_call_results in Hj.
  now rewrite length_slice.
Qed.

(** A window one of whose calls rejects throws the error of one of its
    rejected calls. *)
Lemma dispatch_rejected i k e :
  i < length chunks ->
  i mod concurrency = 0 ->
  nth_error (slice (call_results w args chunks) i (i + concurrency)) k
    = Some (Rejected e) ->
  exists k' e',
    snd (dispatch w args i (slice chunks i (i + concurrency))) = Throws e'
    /\ nth_error (call_results w args chunks) k' = Some (Rejected e').
Proof.
  intros Hi Hmod Hk. unfold dispatch. cbn [snd]. rewrite window_outcomes.
  destruct (@promise_all_rejected Blob (settle_order w i)
              (slice (call_results w args chunks) i (i + concurrency)) k e) as (k' & e' & -> & Hk');
    [|exact Hk|].
  - intros j Hj. apply settle_window; [assumption|assumption|].
    rewrite length_slice, length_call_results in Hj. now rewrite length_slice.
  - assert (k' < concurrency).
    { assert (k' < length (slice (call_results w args chunks) i (i + concurrency)))
        by (apply nth_error_Some; congruence).
      rewrite length_slice in H. lia. }
    rewrite nth_error_slice in Hk' by assumption. eauto.
Qed.

Lemma windows_done i : length chunks <= i -> windows_from_ok chunks concurrency i [].
Proof.
  intros Hi. repeat split.
  - simpl. symmetry. now apply ceil_done.
  - simpl. symmetry. apply skipn_all2. now rewrite length_numbered.
  - constructor.
Qed.

Lemma windows_step i tr :
  i < length chunks ->
  windows_from_ok chunks concurrency (i + concurrency) tr ->
  windows_from_ok chunks concurrency i
    (fst (dispatch w args i (slice chunks i (i + concurrency))) ++ tr).
Proof.
  intros Hi (Hn & Hcat & Hall). unfold windows_from_ok.
  rewrite dispatch_trace, batches_window.
  repeat split.
  - simpl. rewrite Hn. symmetry. now apply ceil_step.
  - simpl. rewrite Hcat. apply slice_then_rest.
  - constructor; [|assumption].
    rewrite length_slice, length_numbered. lia.
Qed.

Section AllFulfil.

Variable blobs : list Blob.
Hypothesis Hok : call_results w args chunks = map (@Fulfilled Blob) blobs.

Lemma length_blobs : length blobs = length chunks.
Proof.
  rewrite <- length_call_results, Hok. now rewrite length_map.
Qed.

Lemma window_fulfilled i :
  i < length chunks ->
  i mod concurrency = 0 ->
  snd (dispatch w args i (slice chunks i (i + concurrency)))
  = Returns (slice blobs i (i + concurrency)).
Proof.
  intros Hi Hmod. apply dispatch_fulfilled; [assumption|assumption|].
  now rewrite Hok, map_slice.
Qed.

(** The loop of [getVoice] when every call fulfils. *)
Lemma collect_windows_fulfilled : forall fuel i acc,
  length chunks - i <= fuel ->
  i mod concurrency = 0 ->
  let run := collect_windows w chunks concurrency args fuel i acc in
  snd run = Returns (acc ++ skipn i blobs) /\ windows_from_ok chunks concurrency i (fst run).
Proof.
  induction fuel as [|fuel IH]; intros i acc Hf Hmod; cbn [collect_windows];
    loop_guard E; try lia.
  - split; [|now apply windows_done]. simpl.
    rewrite skipn_all2 by (rewrite length_blobs; lia). now rewrite app_nil_r.
  - split; [|now apply windows_done]. simpl.
    rewrite skipn_all2 by (rewrite length_blobs; lia). now rewrite app_nil_r.
  - rewrite (@bind_returns _ _ _ _ _ (window_fulfilled E Hmod)). cbn [fst snd].
    destruct (IH (i + concurrency)
                 (acc ++ slice blobs i (i + concurrency)) ltac:(lia)
                 (next_window_start i Hmod))
      as [Hs Hwin].
    split.
    + rewrite Hs. now rewrite <- app_assoc, slice_then_rest.
    + now apply windows_step.
Qed.

(** The loop of [pipeChunksToStream] when every call fulfils. *)
Lemma pipe_windows_fulfilled : forall fuel i,
  length chunks - i <= fuel ->
  i mod concurrency = 0 ->
  let run := pipe_windows w chunks concurrency args fuel i in
  snd run = Returns tt
  /\ written (fst run) = skipn i blobs
  /\ windows_from_ok chunks concurrency i (fst run).
Proof.
  induction fuel as [|fuel IH]; intros i Hf Hmod; cbn [pipe_windows];
    loop_guard E; try lia.
  - split; [reflexivity|]. split; [|now apply windows_done]. simpl.
    rewrite skipn_all2 by (rewrite length_blobs; lia). reflexivity.
  - split; [reflexivity|]. split; [|now apply windows_done]. simpl.
    rewrite skipn_all2 by (rewrite length_blobs; lia). reflexivity.
  - rewrite (@bind_returns _ _ _ _ _ (window_fulfilled E Hmod)).
    rewrite (@bind_returns _ _ _ _ _ (write_all_returns w i _)). cbn [fst snd].
    destruct (IH (i + concurrency) ltac:(lia) (next_window_start i Hmod))
      as (Hs & Hwr & Hwin).
    split; [assumption|]. split.
    + rewrite !written_app, written_writes, Hwr, dispatch_trace, written_calls.
      simpl. apply slice_then_rest.
    + pose proof (windows_step E Hwin) as Hw.
      unfold windows_from_ok, batches in *.
      rewrite dispatch_trace in *. rewrite <- app_assoc in *.
      rewrite batches_from_calls in *. cbn [app batches_from] in *.
      now rewrite batches_from_writes.
Qed.

End AllFulfil.

(** The loop of [getVoice] when some call from window start [i] on
    rejects: it throws the error of a rejected call. *)
Lemma collect_windows_rejected : forall fuel i acc k e,
  length chunks - i <= fuel ->
  i mod concurrency = 0 ->
  i <= k ->
  nth_error (call_results w args chunks) k = Some (Rejected e) ->
  exists k' e',
    snd (collect_windows w chunks concurrency args fuel i acc) = Throws e'
    /\ nth_error (call_results w args chunks) k' = Some (Rejected e').
Proof.
  induction fuel as [|fuel IH]; intros i acc k e Hf Hmod Hik Hk;
    assert (Hlt : k < length chunks)
      by (rewrite <- length_call_results; apply nth_error_Some; congruence);
    cbn [collect_windows];
    loop_guard E; try lia.
  destruct (fulfilled_or_rejected
              (slice (call_results w args chunks) i (i + concurrency)))
    as [[values Hv]|(j & e1 & Hj)].
  - rewrite (@bind_returns _ _ _ _ _ (@dispatch_fulfilled i values E Hmod Hv)).
    cbn [snd].
    apply (IH _ _ k e); [lia | now apply next_window_start | | assumption].
    destruct (Nat.le_gt_cases (i + concurrency) k) as [|Hin]; [assumption|].
    exfalso.
    assert (Hn : nth_error (slice (call_results w args chunks) i (i + concurrency))
                           (k - i) = Some (Rejected e)).
    { rewrite nth_error_slice by lia. now replace (i + (k - i)) with k by lia. }
    rewrite Hv, nth_error_map in Hn.
    destruct (nth_error values (k - i)); simpl in Hn; discriminate.
  - destruct (@dispatch_rejected i j e1 E Hmod Hj) as (k' & e' & Hs & Hk').
    rewrite (@bind_throws _ _ _ _ _ Hs). cbn [snd]. eauto.
Qed.

End WindowFacts.

(** C1.  For every list of chunks, every limit [concurrency >= 1] and
    every order in which the calls of a window settle (each call
    settling), when the calls fulfil: both [getVoice] and
    [pipeChunksToStream] issue the calls in windows, each awaited before
    the next is issued; the windows number the ceiling of [N / C]; joined,
    they are the chunks in their order; each holds between 1 and [C]
    chunks; and the audio (the body of the buffered response, what is
    handed to the sink in streamed mode) is the audio of the chunks in
    chunk order. *)
Theorem C1_windows_and_output_order w chunks concurrency args blobs :
  1 <= concurrency ->
  all_settle w chunks concurrency = true ->
  call_results w args chunks = map (@Fulfilled Blob) blobs ->
  let buffered := getVoice w chunks concurrency args in
  let streamed := pipeChunksToStream w chunks concurrency args in
  (length (batches (fst buffered))
     = (length chunks + concurrency - 1) / concurrency
   /\ concat (batches (fst buffered)) = numbered 0 chunks
   /\ Forall (fun b => 1 <= length b <= concurrency) (batches (fst buffered))
   /\ snd buffered = Returns (audioResponse (Audio (concat blobs))))
  /\
  (length (batches (fst streamed))
     = (length chunks + concurrency - 1) / concurrency
   /\ concat (batches (fst streamed)) = numbered 0 chunks
   /\ Forall (fun b => 1 <= length b <= concurrency) (batches (fst streamed))
   /\ written (fst streamed) = blobs
   /\ snd streamed = Returns tt).
Proof.
  intros Hc Hsettle Hok. split.
  - destruct (@collect_windows_fulfilled w chunks concurrency args Hc Hsettle
                blobs Hok (length chunks) 0 [] ltac:(lia)
                (Nat.Div0.mod_0_l concurrency)) as [Hs (Hn & Hcat & Hall)].
    cbv zeta. unfold getVoice.
    rewrite (@bind_returns _ _ _ _ _ Hs). unfold try_catch. cbn [fst snd ret].
    rewrite app_nil_r, Nat.sub_0_r in *. auto.
  - destruct (@pipe_windows_fulfilled w chunks concurrency args Hc Hsettle
                blobs Hok (length chunks) 0 ltac:(lia)
                (Nat.Div0.mod_0_l concurrency))
      as (Hs & Hwr & Hn & Hcat & Hall).
    cbv zeta. unfold pipeChunksToStream.
    destruct (pipe_windows w chunks concurrency args (length chunks) 0)
      as [tr o].
    cbn [fst snd] in *. subst o. unfold try_catch, try_finally, emit.
    cbn [fst snd]. unfold batches in *.
    rewrite (@batches_from_tail [] tr Close I).
    rewrite written_app, Hwr. cbn [written skipn]. rewrite app_nil_r.
    rewrite Nat.sub_0_r in Hn. auto.
Qed.

Lemma C1_witness :
  let w := obliging (fun _ => true) in
  let chunks := [js "a"; js "b"; js "c"] in
  let buffered := getVoice w chunks 2 sample_args in
  let streamed := pipeChunksToStream w chunks 2 sample_args in
  (length (batches (fst buffered)) = (length chunks + 2 - 1) / 2
   /\ concat (batches (fst buffered)) = numbered 0 chunks
   /\ Forall (fun b => 1 <= length b <= 2) (batches (fst buffered))
   /\ snd buffered
      = Returns (audioResponse (Audio (concat (map audio_for chunks)))))
  /\
  (length (batches (fst streamed)) = (length chunks + 2 - 1) / 2
   /\ concat (batches (fst streamed)) = numbered 0 chunks
   /\ Forall (fun b => 1 <= length b <= 2) (batches (fst streamed))
   /\ written (fst streamed) = map audio_for chunks
   /\ snd streamed = Returns tt).
Proof.
  apply (@C1_windows_and_output_order (obliging (fun _ => true))
           [js "a"; js "b"; js "c"] 2 sample_args
           (map audio_for [js "a"; js "b"; js "c"])).
  - lia.
  - reflexivity.
  - reflexivity.
Defined.

Lemma nth_error_numbered {A} (l : list A) : forall k i x,
  nth_error l i = Some x -> nth_error (numbered k l) i = Some (k + i, x).
Proof.
  induction l as [|y l IH]; intros k [|i] x H; try discriminate.
  - simpl in H. inversion H; subst. rewrite numbered_cons. simpl.
    now rewrite Nat.add_0_r.
  - rewrite numbered_cons. simpl in *. rewrite (IH (S k) i x H).
    f_equal. f_equal. lia.
Qed.

(** C6.  In buffered mode, when the provider answers the call of some
    chunk with a non-success status (every call of every window
    settling), the caller receives the error response of [getVoice]
    (status 500, code [tts_generation_error], message built from the error
    of a rejected call) and nothing else: no audio of any window is in the
    response. *)
Theorem C6_buffered_failure_returns_error_only
        w chunks concurrency args i text endpoint status statusText errorText :
  1 <= concurrency ->
  all_settle w chunks concurrency = true ->
  nth_error chunks i = Some text ->
  endpoint_for w i = Fulfilled endpoint ->
  provider w i endpoint args text = NotOk status statusText (Fulfilled errorText) ->
  exists cause k,
    nth_error (call_results w args chunks) k = Some (Rejected cause)
    /\ snd (getVoice w chunks concurrency args)
       = Returns (errorResponse (BufferedTtsFailed cause) 500
                    (js "tts_generation_error"))
    /\ forall data,
        snd (getVoice w chunks concurrency args)
        <> Returns (audioResponse (Audio data)).
Proof.
  intros Hc Hsettle Hi He Hp.
  assert (Hk : nth_error (call_results w args chunks) i
               = Some (Rejected (ProviderRefused status statusText errorText))).
  { unfold call_results. rewrite nth_error_map.
    rewrite (nth_error_numbered chunks 0 i Hi). simpl.
    unfold getAudioChunk. now rewrite He, Hp. }
  destruct (@collect_windows_rejected w chunks concurrency args Hc Hsettle
              (length chunks) 0 [] i _ ltac:(lia)
              (Nat.Div0.mod_0_l concurrency) ltac:(lia) Hk)
    as (k' & e' & Hs & Hk').
  exists e', k'. split; [assumption|].
  unfold getVoice. rewrite (@bind_throws _ _ _ _ _ Hs).
  unfold try_catch, ret. cbn [snd]. split; [reflexivity|].
  intros data. discriminate.
Qed.

Lemma C6_witness :
  exists cause k,
    nth_error (call_results (refusing 2) sample_args
                 [js "a"; js "b"; js "c"; js "d"]) k = Some (Rejected cause)
    /\ snd (getVoice (refusing 2) [js "a"; js "b"; js "c"; js "d"] 2 sample_args)
       = Returns (errorResponse (BufferedTtsFailed cause) 500
                    (js "tts_generation_error"))
    /\ forall data,
        snd (getVoice (refusing 2) [js "a"; js "b"; js "c"; js "d"] 2 sample_args)
        <> Returns (audioResponse (Audio data)).
Proof.
  apply (@C6_buffered_failure_returns_error_only (refusing 2)
           [js "a"; js "b"; js "c"; js "d"] 2 sample_args 2 (js "c") westus
           503 (js "Service Unavailable") (js "busy")).
  - lia.
  - reflexivity.
  - reflexivity.
  - reflexivity.
  - reflexivity.
Defined.

Example buffered_failure_after_a_good_window :
  getVoice (refusing 2) [js "a"; js "b"; js "c"; js "d"] 2 sample_args
  = ( [ Synth 0 (js "a"); Synth 1 (js "b"); AwaitAll 0;
        Synth 2 (js "c"); Synth 3 (js "d"); AwaitAll 2 ],
      Returns (errorResponse
                 (BufferedTtsFailed
                    (ProviderRefused 503 (js "Service Unavailable") (js "busy")))
                 500 (js "tts_generation_error")) ).
Proof. reflexivity. Qed.

(* ------------------------------------------------------------------ *)
(** ** The sink in streamed mode *)
(* ------------------------------------------------------------------ *)

Section SinkFacts.

Variables (w : World) (chunks : list str) (concurrency : nat) (args : TtsArgs).

Lemma forget_acceptance_app a b :
  forget_acceptance (a ++ b) = forget_acceptance a ++ forget_acceptance b.
Proof. apply map_app. Qed.

Lemma forget_writes accepts k blobs :
  forget_acceptance (fst (write_all (with_sink w accepts) k blobs))
  = forget_acceptance (fst (write_all w k blobs)).
Proof.
  rewrite !write_all_trace. unfold forget_acceptance.
  rewrite !map_map. reflexivity.
Qed.

Lemma synth_calls_forget tr : synth_calls (forget_acceptance tr) = synth_calls tr.
Proof.
  induction tr as [|ev tr IH]; simpl; [reflexivity|].
  destruct ev; simpl; now rewrite IH.
Qed.

Lemma written_forget tr : written (forget_acceptance tr) = written tr.
Proof.
  induction tr as [|ev tr IH]; simpl; [reflexivity|].
  destruct ev; simpl; now rewrite IH.
Qed.

(** The loop of [pipeChunksToStream] does not look at what becomes of a
    write. *)
Lemma pipe_windows_ignores_sink accepts : forall fuel i,
  forget_acceptance
    (fst (pipe_windows (with_sink w accepts) chunks concurrency args fuel i))
  = forget_acceptance (fst (pipe_windows w chunks concurrency args fuel i))
  /\ snd (pipe_windows (with_sink w accepts) chunks concurrency args fuel i)
     = snd (pipe_windows w chunks concurrency args fuel i).
Proof.
  induction fuel as [|fuel IH]; intros i; cbn [pipe_windows];
    destruct (length chunks <=? i); try (split; reflexivity).
  change (dispatch (with_sink w accepts) args i (slice chunks i (i + concurrency)))
    with (dispatch w args i (slice chunks i (i + concurrency))).
  destruct (dispatch w args i (slice chunks i (i + concurrency)))
    as [tr [blobs|e| |]] eqn:D; try (split; reflexivity).
  assert (Hr : snd (tr, Returns blobs) = Returns blobs) by reflexivity.
  rewrite !(@bind_returns _ _ _ _ _ Hr).
  rewrite !(@bind_returns _ _ _ _ _ (write_all_returns _ i blobs)).
  cbn [fst snd]. destruct (IH (i + concurrency)) as [Ht Hs].
  split; [|assumption].
  now rewrite !forget_acceptance_app, forget_writes, Ht.
Qed.

(** The loop itself neither aborts nor closes the sink. *)
Lemma pipe_windows_leaves_sink_open : forall fuel i,
  ~ In Close (fst (pipe_windows w chunks concurrency args fuel i))
  /\ forall e, ~ In (Abort e) (fst (pipe_windows w chunks concurrency args fuel i)).
Proof.
  assert (Hd : forall i batch ev,
             In ev (fst (dispatch w args i batch)) ->
             match ev with Close | Abort _ | Write _ _ _ => False | _ => True end).
  { intros i batch ev. unfold dispatch. cbn [fst]. rewrite in_app_iff, in_map_iff.
    intros [(c & <- & _)|[<-|[]]]; exact I. }
  assert (Hw : forall k blobs ev,
             In ev (fst (write_all w k blobs)) ->
             match ev with Write _ _ _ => True | _ => False end).
  { intros k blobs ev. rewrite write_all_trace, in_map_iff.
    intros (c & <- & _). exact I. }
  assert (Hall : forall fuel i ev,
             In ev (fst (pipe_windows w chunks concurrency args fuel i)) ->
             match ev with Close | Abort _ => False | _ => True end).
  { induction fuel as [|fuel IH]; intros i ev; cbn [pipe_windows];
      destruct (length chunks <=? i); try (intros []).
    pose proof (Hd i (slice chunks i (i + concurrency)) ev) as Hd'.
    destruct (dispatch w args i (slice chunks i (i + concurrency)))
      as [tr [blobs|e| |]]; cbn [fst] in Hd';
      try (unfold bind; cbn [fst]; intros Hin; specialize (Hd' Hin);
           destruct ev; tauto).
    assert (Hr : snd (tr, Returns blobs) = Returns blobs) by reflexivity.
    rewrite (@bind_returns _ _ _ _ _ Hr).
    rewrite (@bind_returns _ _ _ _ _ (write_all_returns w i blobs)).
    cbn [fst]. rewrite !in_app_iff. intros [Hin|[Hin|Hin]].
    - specialize (Hd' Hin). destruct ev; tauto.
    - specialize (Hw _ _ _ Hin). destruct ev; tauto.
    - exact (IH _ _ Hin). }
  intros fuel i. split; [|intros e]; intros Hin; exact (Hall _ _ _ Hin).
Qed.

End SinkFacts.

(** C3 (as stated, refuted).  Two chunks, one per window, every call
    fulfilling, a sink that refuses every write: the write of the first
    window fails, yet the call for the second chunk is issued after it,
    [pipeChunksToStream] returns normally, and [streamVoice] answers 200. *)
Lemma C3_failed_write_is_not_observed :
  let w := obliging (fun _ => false) in
  pipeChunksToStream w [js "a"; js "b"] 1 sample_args
  = ( [ Synth 0 (js "a"); AwaitAll 0; Write 0 (audio_for (js "a")) false;
        Synth 1 (js "b"); AwaitAll 1; Write 1 (audio_for (js "b")) false;
        Close ],
      Returns tt )
  /\ snd (streamVoice w [js "a"; js "b"] 1 sample_args)
     = Returns (audioResponse (AudioStream [])).
Proof. split; reflexivity. Qed.

(** C3 (amended).  In streamed mode the fate of a sink write is not
    observed (the promise returned by [writer.write] is dropped): with any
    other sink the run issues the same synthesis calls, hands the same
    data to the sink and ends the same way.  Whenever the run exits, the
    last thing it does is close the sink, once; it exits by throwing only
    when a window rejects, and then the sink is told to abort just before
    the close and the caller gets the wrapped error. *)
Theorem C3_sink_closed_on_exit_writes_unobserved
        w chunks concurrency args accepts :
  let run := pipeChunksToStream w chunks concurrency args in
  let run' := pipeChunksToStream (with_sink w accepts) chunks concurrency args in
  (forget_acceptance (fst run') = forget_acceptance (fst run)
   /\ synth_calls (fst run') = synth_calls (fst run)
   /\ written (fst run') = written (fst run)
   /\ snd run' = snd run)
  /\ match snd run with
     | Returns _ =>
         exists tr, fst run = tr ++ [Close]
                    /\ ~ In Close tr /\ forall e, ~ In (Abort e) tr
     | Throws m =>
         exists tr e, fst run = tr ++ [Abort e; Close]
                      /\ m = StreamFailed e
                      /\ ~ In Close tr /\ forall e', ~ In (Abort e') tr
     | Never | Outside => True
     end.
Proof.
  cbv zeta. unfold pipeChunksToStream.
  destruct (pipe_windows_ignores_sink w chunks concurrency args accepts
              (length chunks) 0) as [Ht Hs].
  destruct (pipe_windows_leaves_sink_open w chunks concurrency args
              (length chunks) 0) as [Hclose Habort].
  destruct (pipe_windows (with_sink w accepts) chunks concurrency args
              (length chunks) 0) as [tr' o'].
  destruct (pipe_windows w chunks concurrency args (length chunks) 0) as [tr o].
  cbn [fst snd] in *. subst o'.
  assert (Hfg : forall a b : list Event,
             forget_acceptance a = forget_acceptance b ->
             synth_calls a = synth_calls b /\ written a = written b).
  { intros a b H. rewrite <- (synth_calls_forget a), <- (written_forget a), H.
    now rewrite synth_calls_forget, written_forget. }
  destruct o as [u|e| |]; unfold try_catch, try_finally, bind, emit, throw;
    cbn [fst snd app].
  - split.
    + assert (H : forget_acceptance (tr' ++ [Close]) = forget_acceptance (tr ++ [Close]))
        by (now rewrite !forget_acceptance_app, Ht).
      destruct (Hfg _ _ H). auto.
    + exists tr. auto.
  - split.
    + assert (H : forget_acceptance ((tr' ++ [Abort e]) ++ [Close])
                  = forget_acceptance ((tr ++ [Abort e]) ++ [Close]))
        by (now rewrite !forget_acceptance_app, Ht).
      destruct (Hfg _ _ H). auto.
    + exists tr, e. rewrite <- app_assoc. auto.
  - split; [|exact I]. destruct (Hfg _ _ Ht). auto.
  - split; [|exact I]. destruct (Hfg _ _ Ht). auto.
Qed.

(* ------------------------------------------------------------------ *)
(** ** Request validation and voice resolution *)
(* ------------------------------------------------------------------ *)

Section HandlerFacts.

Variable cleanTextOn : str -> CleaningOptions -> str.
Variable percent : value -> str.
Variable w : World.

Lemma own_without fields key : own (without fields key) key = None.
Proof.
  induction fields as [|[k v] fields IH]; simpl; [reflexivity|].
  destruct (str_eqb k key) eqn:E; simpl; [assumption|].
  now rewrite E.
Qed.

(** A lookup in [OPENAI_VOICE_MAP] finds nothing, or something truthy. *)
Lemma voice_map_lookup key :
  literal_get OPENAI_VOICE_MAP key = JUndefined
  \/ truthy (literal_get OPENAI_VOICE_MAP key) = true.
Proof.
  unfold literal_get, OPENAI_VOICE_MAP. cbn [own].
  repeat match goal with
         | |- context [str_eqb ?a key] => destruct (str_eqb a key)
         end; try (right; reflexivity).
  destruct (existsb (str_eqb key) object_prototype_names); auto.
Qed.

Lemma with_default_present fields key v d :
  own fields key = Some v -> v <> JUndefined ->
  with_default (JObject fields) key d = v.
Proof.
  intros H Hv. unfold with_default, property. rewrite H.
  destruct v; congruence.
Qed.

Lemma with_default_absent fields key d :
  own fields key = None -> with_default (JObject fields) key d = d.
Proof. intros H. unfold with_default, property. now rewrite H. Qed.

End HandlerFacts.

(** C10.  A POST request whose body has [input] equal to the empty string
    gets the 400 response with code [invalid_request_error] and the
    "input is required" message; this is the very response given to the
    same request with [input] removed; and no call to the provider is
    made. *)
Theorem C10_empty_input_is_missing_input cleanTextOn percent w request fields :
  method request = js "POST" ->
  json request = Fulfilled (JObject fields) ->
  own fields (js "input") = Some (JString []) ->
  let missing :=
    {| method := method request;
       authorization := authorization request;
       json := Fulfilled (JObject (without fields (js "input"))) |} in
  handleSpeechRequest cleanTextOn percent w request
  = ([], Returns (errorResponse InputRequired 400 (js "invalid_request_error")))
  /\ handleSpeechRequest cleanTextOn percent w missing
     = handleSpeechRequest cleanTextOn percent w request
  /\ outbound_calls (handleSpeechRequest cleanTextOn percent w request) = [].
Proof.
  intros Hm Hj Hin. cbv zeta.
  assert (H1 : handleSpeechRequest cleanTextOn percent w request
               = ([], Returns (errorResponse InputRequired 400
                                 (js "invalid_request_error")))).
  { unfold handleSpeechRequest. rewrite Hm, str_eqb_refl, Hj.
    cbn [negb property]. rewrite Hin. reflexivity. }
  rewrite H1. repeat split.
  unfold handleSpeechRequest. cbn [method json]. rewrite Hm, str_eqb_refl.
  cbn [negb property]. rewrite own_without. reflexivity.
Qed.

Lemma C10_witness :
  let request := post (JObject [(js "input", JString []); (js "stream", JBool true)]) in
  let missing :=
    {| method := method request;
       authorization := authorization request;
       json := Fulfilled (JObject (without [(js "input", JString []);
                                            (js "stream", JBool true)]
                                           (js "input"))) |} in
  handleSpeechRequest keep_text zero_percent voice_echo request
  = ([], Returns (errorResponse InputRequired 400 (js "invalid_request_error")))
  /\ handleSpeechRequest keep_text zero_percent voice_echo missing
     = handleSpeechRequest keep_text zero_percent voice_echo request
  /\ outbound_calls (handleSpeechRequest keep_text zero_percent voice_echo request) = [].
Proof.
  apply (@C10_empty_input_is_missing_input keep_text zero_percent voice_echo
           (post (JObject [(js "input", JString []); (js "stream", JBool true)]))
           [(js "input", JString []); (js "stream", JBool true)]).
  - reflexivity.
  - reflexivity.
  - reflexivity.
Defined.

(** C2 (the code at the failing input).  The request
    [{ model: "tts-1-alloy", input: "hi" }] has no [voice]: the
    destructuring default ["shimmer"] stands in for it before [!voice]
    is tested, so the alias table, which maps ["alloy"] to
    ["zh-CN-YunyangNeural"], is not consulted and the text is
    synthesized under the voice name ["shimmer"].  The same request with
    the unknown model ["tts-1-unknown"], for which the table has nothing,
    is not rejected either: it is answered 200, again under ["shimmer"]. *)
Theorem C2_absent_voice_bypasses_the_table :
  let mapped := [ (js "model", JString (js "tts-1-alloy"));
                  (js "input", JString (js "hi")) ] in
  let unknown := [ (js "model", JString (js "tts-1-unknown"));
                   (js "input", JString (js "hi")) ] in
  own mapped (js "voice") = None
  /\ literal_get OPENAI_VOICE_MAP (remove_first (js "tts-1-") (js "tts-1-alloy"))
     = JString (js "zh-CN-YunyangNeural")
  /\ handleSpeechRequest keep_text zero_percent voice_echo (post (JObject mapped))
     = ( [Synth 0 (js "hi"); AwaitAll 0],
         Returns (audioResponse (Audio (audio_for (js "shimmer")))) )
  /\ own unknown (js "voice") = None
  /\ literal_get OPENAI_VOICE_MAP (remove_first (js "tts-1-") (js "tts-1-unknown"))
     = JUndefined
  /\ handleSpeechRequest keep_text zero_percent voice_echo (post (JObject unknown))
     = ( [Synth 0 (js "hi"); AwaitAll 0],
         Returns (audioResponse (Audio (audio_for (js "shimmer")))) ).
Proof. repeat split. Qed.

(** X31.  The alias table is reached only through a [voice] that is
    present and falsy.  For a POST request whose [input] is a non-empty
    string that [cleanText] accepts, whose [voice] field is present but
    falsy (null, the empty string, 0, false) and whose [model] is a
    string: the voice is looked up in the alias table under [model] with
    its first ["tts-1-"] removed; when the lookup finds nothing the
    request is rejected with status 400 and code [invalid_request_error];
    otherwise the text is synthesized with what the lookup found. *)
Theorem X31_falsy_voice_resolved_through_table
        cleanTextOn percent w request fields text voice m cleaned :
  method request = js "POST" ->
  json request = Fulfilled (JObject fields) ->
  own fields (js "input") = Some (JString text) -> text <> [] ->
  own fields (js "voice") = Some voice -> voice <> JUndefined ->
  truthy voice = false ->
  with_default (JObject fields) (js "model") (JString (js "tts-1")) = JString m ->
  cleanText cleanTextOn (JString text)
    (with_default (JObject fields) (js "cleaning_options") (JObject []))
  = ([], Returns cleaned) ->
  match literal_get OPENAI_VOICE_MAP (remove_first (js "tts-1-") m) with
  | JUndefined =>
      handleSpeechRequest cleanTextOn percent w request
      = ([], Returns (errorResponse (InvalidVoice (JString m) voice JUndefined)
                        400 (js "invalid_request_error")))
  | found =>
      handleSpeechRequest cleanTextOn percent w request
      = speak percent w (JObject fields) cleaned found
  end.
Proof.
  intros Hm Hj Hin Ht Hv Hvu Hvf Hmodel Hclean.
  assert (Hhandle :
            handleSpeechRequest cleanTextOn percent w request
            = let modelVoice :=
                literal_get OPENAI_VOICE_MAP (remove_first (js "tts-1-") m) in
              let finalVoice := if truthy modelVoice then modelVoice else voice in
              if negb (truthy finalVoice)
              then ([], Returns (errorResponse
                                   (InvalidVoice (JString m) voice modelVoice)
                                   400 (js "invalid_request_error")))
              else speak percent w (JObject fields) cleaned finalVoice).
  { unfold handleSpeechRequest. rewrite Hm, str_eqb_refl, Hj.
    cbn [negb property]. rewrite Hin.
    replace (truthy (JString text)) with true
      by (destruct text; [congruence | reflexivity]).
    cbn [negb]. rewrite Hclean, Hmodel.
    rewrite (with_default_present fields (js "voice") _ Hv Hvu).
    unfold lookup_modelVoice. rewrite Hvf. cbv zeta.
    unfold bind, ret. cbn [app].
    destruct (negb (truthy _)); [reflexivity|].
    now destruct (speak _ _ _ _ _). }
  rewrite Hhandle. cbv zeta.
  destruct (voice_map_lookup (remove_first (js "tts-1-") m)) as [Hu|Htr].
  - rewrite Hu. cbn [truthy]. rewrite Hvf. reflexivity.
  - rewrite Htr.
    destruct (literal_get OPENAI_VOICE_MAP (remove_first (js "tts-1-") m));
      try discriminate; rewrite Htr; reflexivity.
Qed.

Lemma X31_witness :
  handleSpeechRequest keep_text zero_percent voice_echo
    (post (JObject [ (js "model", JString (js "tts-1-alloy"));
                     (js "voice", JNull);
                     (js "input", JString (js "hi")) ]))
  = speak zero_percent voice_echo
      (JObject [ (js "model", JString (js "tts-1-alloy"));
                 (js "voice", JNull);
                 (js "input", JString (js "hi")) ])
      (js "hi") (JString (js "zh-CN-YunyangNeural")).
Proof.
  apply (@X31_falsy_voice_resolved_through_table keep_text zero_percent voice_echo
           (post (JObject [ (js "model", JString (js "tts-1-alloy"));
                            (js "voice", JNull);
                            (js "input", JString (js "hi")) ]))
           [ (js "model", JString (js "tts-1-alloy"));
             (js "voice", JNull);
             (js "input", JString (js "hi")) ]
           (js "hi") JNull (js "tts-1-alloy") (js "hi")).
  - reflexivity.
  - reflexivity.
  - reflexivity.
  - discriminate.
  - reflexivity.
  - discriminate.
  - reflexivity.
  - reflexivity.
  - reflexivity.
Defined.

Example falsy_voice_unknown_model_rejected :
  handleSpeechRequest keep_text zero_percent voice_echo
    (post (JObject [ (js "model", JString (js "tts-1-unknown"));
                     (js "voice", JString []);
                     (js "input", JString (js "hi")) ]))
  = ([], Returns (errorResponse
                    (InvalidVoice (JString (js "tts-1-unknown")) (JString []) JUndefined)
                    400 (js "invalid_request_error"))).
Proof. reflexivity. Qed.


(* ================================================================== *)
(** * Further properties *)
(* ================================================================== *)

(* ------------------------------------------------------------------ *)
(** ** Chunker: trimmed chunks, length bound, short texts, step zero *)
(* ------------------------------------------------------------------ *)

Section ChunkShape.

Lemma drop_white_head s :
  match drop_white s with
  | [] => True
  | h :: _ => is_white h = false
  end.
Proof.
  induction s as [|c s IH]; simpl; [exact I|].
  destruct (is_white c) eqn:E; [assumption | simpl; assumption].
Qed.

Lemma drop_white_fixed s :
  match s with [] => True | h :: _ => is_white h = false end ->
  drop_white s = s.
Proof. destruct s as [|h s]; simpl; [reflexivity | now intros ->]. Qed.

(** Trimming a trimmed string changes nothing. *)
Lemma trim_trim s : trim (trim s) = trim s.
Proof.
  unfold trim at 2.
  set (d := drop_white s). set (e := drop_white (rev d)).
  assert (He : drop_white e = e) by (apply drop_white_fixed, drop_white_head).
  assert (Hr : drop_white (rev e) = rev e).
  { apply drop_white_fixed.
    destruct (drop_white_split (rev d)) as (lead & Hs & _). fold e in Hs.
    assert (Hd : d = rev e ++ rev lead).
    { rewrite <- rev_app_distr, <- Hs. symmetry. apply rev_involutive. }
    pose proof (drop_white_head s) as Hh. fold d in Hh. rewrite Hd in Hh.
    destruct (rev e) as [|h tl]; [exact I | exact Hh]. }
  unfold trim. rewrite Hr, rev_involutive, He. reflexivity.
Qed.

Lemma length_trim s : length (trim s) <= length s.
Proof.
  destruct (trim_split s) as (lead & trail & Hs & _).
  rewrite Hs at 2. rewrite !length_app. lia.
Qed.

Lemma content_white s : forallb is_white s = true -> content s = [].
Proof.
  induction s as [|c s IH]; simpl; [reflexivity|].
  intros H. apply andb_prop in H as [Hc Hs]. rewrite Hc. simpl. auto.
Qed.

(** A trimmed, non-empty string holds a unit that is not white space. *)
Lemma trimmed_has_content s : s <> [] -> trim s = s -> content s <> [].
Proof.
  intros Hne Ht.
  assert (Hd : drop_white s = s).
  { rewrite <- Ht. unfold trim.
    set (e := drop_white (rev (drop_white s))).
    apply drop_white_fixed.
    destruct (drop_white_split (rev (drop_white s))) as (lead & Hs & _).
    fold e in Hs.
    assert (Hd : drop_white s = rev e ++ rev lead).
    { rewrite <- rev_app_distr, <- Hs. symmetry. apply rev_involutive. }
    pose proof (drop_white_head s) as Hh. rewrite Hd in Hh.
    destruct (rev e) as [|h tl]; [exact I | exact Hh]. }
  pose proof (drop_white_head s) as Hh. rewrite Hd in Hh.
  destruct s as [|h tl]; [congruence|]. simpl. now rewrite Hh.
Qed.

Lemma flush_neat chunks cur :
  Forall neat chunks -> Forall neat (flush chunks cur).
Proof.
  intros H. unfold flush. destruct (trim cur) as [|c0 t0] eqn:E; [assumption|].
  apply Forall_app. split; [assumption|].
  constructor; [|constructor]. split; [discriminate|].
  rewrite <- E. apply trim_trim.
Qed.

Lemma accumulate_neat maxLen parts : forall a,
  Forall neat (chunks_of a) ->
  Forall neat (chunks_of (fold_left (accumulate maxLen) parts a)).
Proof.
  induction parts as [|p parts IH]; intros a H; simpl; [assumption|].
  apply IH. unfold accumulate.
  destruct (length (current a) + length p <=? maxLen); simpl;
    [assumption | now apply flush_neat].
Qed.

Lemma greedy_neat text maxLen : Forall neat (greedy text maxLen).
Proof.
  unfold greedy. apply flush_neat, accumulate_neat. constructor.
Qed.

Lemma neat_filter chunks :
  Forall neat chunks -> filter (fun chunk => 0 <? length chunk) chunks = chunks.
Proof.
  induction 1 as [|c l [Hc _] _ IH]; simpl; [reflexivity|].
  destruct c; [congruence|]. simpl. now rewrite IH.
Qed.

Lemma content_concat_neat chunks :
  Forall neat chunks -> content (concat chunks) = [] -> chunks = [].
Proof.
  intros H. destruct H as [|c l [Hne Ht] _]; [reflexivity|].
  simpl. rewrite content_app. intros E. apply app_eq_nil in E as [E _].
  destruct (trimmed_has_content Hne Ht E).
Qed.

(** The accumulation produces nothing exactly when the text holds only
    white space. *)
Lemma greedy_nil_iff text maxLen :
  greedy text maxLen = [] <-> content text = [].
Proof.
  split; intros H.
  - rewrite <- (content_greedy text maxLen), H. reflexivity.
  - apply content_concat_neat; [apply greedy_neat|].
    now rewrite content_greedy.
Qed.

(** With a text that holds something other than white space the slicing
    loop is not reached: the result is the accumulation's. *)
Lemma smartChunkText_greedy text maxLen :
  content text <> [] -> smartChunkText text maxLen = Some (greedy text maxLen).
Proof.
  intros Hc. unfold smartChunkText.
  destruct text as [|c0 text0]; [now destruct Hc|].
  set (text := c0 :: text0) in *.
  destruct (greedy text maxLen) as [|g gs] eqn:G.
  - apply greedy_nil_iff in G. congruence.
  - rewrite <- G. cbv [option_map]. f_equal. apply neat_filter, greedy_neat.
Qed.

(** The bound kept by the accumulation loop. *)
Lemma accumulate_bound maxLen parts : forall a,
  Forall (fun p => length p <= maxLen) parts ->
  length (current a) <= maxLen ->
  Forall (fun c => length c <= maxLen) (chunks_of a) ->
  let a' := fold_left (accumulate maxLen) parts a in
  length (current a') <= maxLen
  /\ Forall (fun c => length c <= maxLen) (chunks_of a').
Proof.
  induction parts as [|p parts IH]; intros a Hp Hcur Hch; simpl; [auto|].
  inversion Hp as [|? ? Hp1 Hp2]; subst.
  apply IH; [assumption| |]; unfold accumulate;
    destruct (length (current a) + length p <=? maxLen) eqn:E; simpl.
  - apply Nat.leb_le in E. now rewrite length_app.
  - assumption.
  - assumption.
  - unfold flush. destruct (trim (current a)) as [|c0 t0] eqn:T; [assumption|].
    apply Forall_app. split; [assumption|]. constructor; [|constructor].
    rewrite <- T. pose proof (length_trim (current a)). lia.
Qed.

(** Parts that fit one after the other all end in [currentChunk]. *)
Lemma accumulate_all_fit maxLen parts : forall cur,
  length cur + length (concat parts) <= maxLen ->
  fold_left (accumulate maxLen) parts {| chunks_of := []; current := cur |}
  = {| chunks_of := []; current := cur ++ concat parts |}.
Proof.
  induction parts as [|p parts IH]; intros cur H; simpl.
  - now rewrite app_nil_r.
  - simpl in H. rewrite length_app in H. unfold accumulate at 2. simpl.
    replace (length cur + length p <=? maxLen) with true
      by (symmetry; apply Nat.leb_le; lia).
    rewrite IH by (rewrite length_app; lia). now rewrite <- app_assoc.
Qed.

Lemma slices_zero_step text : forall fuel i,
  i < length text -> slices fuel text 0 i = None.
Proof.
  induction fuel as [|fuel IH]; intros i Hi; simpl;
    (replace (length text <=? i) with false
      by (symmetry; apply Nat.leb_gt; assumption)); [reflexivity|].
  rewrite Nat.add_0_r, IH by assumption. reflexivity.
Qed.

End ChunkShape.

(** X1.  When the text holds something other than white space, the
    chunker returns at least one chunk, and every chunk is trimmed (no
    white space at either end) and holds a unit that is not white space,
    whatever [maxLen] is. *)
Theorem X1_chunks_are_trimmed text maxLen :
  content text <> [] ->
  exists chunks,
    smartChunkText text maxLen = Some chunks
    /\ chunks <> []
    /\ Forall (fun c => trim c = c /\ content c <> []) chunks.
Proof.
  intros Hc. exists (greedy text maxLen).
  split; [now apply smartChunkText_greedy|]. split.
  - intros E. apply greedy_nil_iff in E. congruence.
  - eapply Forall_impl; [|apply greedy_neat].
    intros c [Hne Ht]. split; [assumption | now apply trimmed_has_content].
Qed.

Lemma X1_witness :
  exists chunks,
    smartChunkText (js "  One.  Two  ") 5 = Some chunks
    /\ chunks <> []
    /\ Forall (fun c => trim c = c /\ content c <> []) chunks.
Proof.
  apply (@X1_chunks_are_trimmed (js "  One.  Two  ") 5). discriminate.
Defined.

(** X2.  When no part of the split (sentence or separator run) is longer
    than [maxLen >= 1], every chunk returned has length at most
    [maxLen]. *)
Theorem X2_chunks_bounded_when_parts_fit text maxLen :
  1 <= maxLen ->
  Forall (fun p => length p <= maxLen) (split_sentences text) ->
  exists chunks,
    smartChunkText text maxLen = Some chunks
    /\ Forall (fun c => length c <= maxLen) chunks.
Proof.
  intros Hm Hp. unfold smartChunkText.
  destruct text as [|c0 text0]; [exists []; split; [reflexivity | constructor]|].
  set (text := c0 :: text0) in *.
  assert (Hg : Forall (fun c => length c <= maxLen) (greedy text maxLen)).
  { unfold greedy.
    destruct (@accumulate_bound maxLen (split_sentences text)
                {| chunks_of := []; current := [] |} Hp)
      as [Hcur Hch]; [simpl; lia | constructor |].
    unfold flush.
    destruct (trim (current _)) as [|t0 ts] eqn:T; [assumption|].
    apply Forall_app. split; [assumption|]. constructor; [|constructor].
    rewrite <- T.
    pose proof (length_trim
                  (current (fold_left (accumulate maxLen) (split_sentences text)
                              {| chunks_of := []; current := [] |}))).
    lia. }
  destruct (greedy text maxLen) as [|g gs] eqn:G.
  - destruct (@slices_spec maxLen text Hm (length text) 0) as (l & Hl & _ & Hall);
      [lia|].
    rewrite Hl. cbv [option_map]. eexists; split; [reflexivity|].
    rewrite (filter_nonempty_id Hall).
    eapply Forall_impl; [|exact Hall]. intros c Hc. simpl in Hc. lia.
  - cbv [option_map]. eexists; split; [reflexivity|].
    rewrite neat_filter by (rewrite <- G; apply greedy_neat). assumption.
Qed.

Lemma X2_witness :
  exists chunks,
    smartChunkText (js "One. Two. Three.") 6 = Some chunks
    /\ Forall (fun c => length c <= 6) chunks.
Proof.
  apply (@X2_chunks_bounded_when_parts_fit (js "One. Two. Three.") 6).
  - lia.
  - repeat constructor.
Defined.

(** X3.  A text no longer than [maxLen] that holds something other than
    white space comes back as one chunk, the trimmed text. *)
Theorem X3_short_text_is_one_chunk text maxLen :
  length text <= maxLen ->
  content text <> [] ->
  smartChunkText text maxLen = Some [trim text].
Proof.
  intros Hl Hc. rewrite smartChunkText_greedy by assumption. f_equal.
  unfold greedy.
  rewrite accumulate_all_fit
    by (unfold split_sentences; rewrite concat_pieces; simpl; lia).
  unfold split_sentences. rewrite concat_pieces. simpl. unfold flush.
  destruct (trim text) as [|t0 ts] eqn:T; [|reflexivity].
  exfalso. apply Hc. rewrite <- content_trim, T. reflexivity.
Qed.

Lemma X3_witness :
  smartChunkText (js " Hi, there! ") 300 = Some [trim (js " Hi, there! ")].
Proof.
  apply (@X3_short_text_is_one_chunk (js " Hi, there! ") 300).
  - simpl. lia.
  - discriminate.
Defined.

Section IntegerChunks.

(** With a bound that is a count, the chunker fails to return only for
    the bound 0 and a text that is not empty and holds white space
    only. *)
Lemma smartChunkText_none_iff text maxLen :
  smartChunkText text maxLen = None
  <-> (maxLen = 0 /\ text <> [] /\ content text = []).
Proof.
  split.
  - intros H.
    destruct (list_eq_dec N.eq_dec (content text) []) as [Hc|Hc];
      [|rewrite smartChunkText_greedy in H by assumption; discriminate].
    destruct text as [|c0 text0]; [discriminate|].
    set (text := c0 :: text0) in *.
    destruct maxLen as [|m].
    + repeat split; [discriminate | assumption].
    + exfalso. unfold smartChunkText in H. fold text in H.
      apply (greedy_nil_iff text (S m)) in Hc. rewrite Hc in H.
      destruct (@slices_spec (S m) text ltac:(lia) (length text) 0)
        as (l & Hl & _); [lia|].
      rewrite Hl in H. discriminate.
  - intros (-> & Hne & Hc). unfold smartChunkText.
    destruct text as [|c0 text0]; [congruence|].
    set (text := c0 :: text0) in *.
    apply (greedy_nil_iff text 0) in Hc. rewrite Hc.
    rewrite slices_zero_step by (simpl; lia). reflexivity.
Qed.

(** A bound below 0 accumulates as the bound 0 does: nothing fits but
    the empty string after the empty string. *)
Lemma accumulate_int_count m a part :
  accumulate_int m a part = accumulate (Z.to_nat m) a part.
Proof.
  unfold accumulate_int, accumulate.
  destruct (Z.leb_spec (Z.of_nat (length (current a) + length part)) m) as [H|H];
    destruct (Nat.leb_spec (length (current a) + length part) (Z.to_nat m))
      as [H'|H']; try reflexivity; try lia.
  assert (Hc : current a = []) by (apply length_zero_iff_nil; lia).
  assert (Hp : part = []) by (apply length_zero_iff_nil; lia).
  rewrite Hc, Hp. reflexivity.
Qed.

Lemma greedy_int_count text m : greedy_int text m = greedy text (Z.to_nat m).
Proof.
  unfold greedy_int, greedy.
  generalize {| chunks_of := []; current := [] |} as a.
  induction (split_sentences text) as [|p ps IH]; intros a; [reflexivity|].
  cbn [fold_left]. rewrite accumulate_int_count. apply IH.
Qed.

Lemma slices_int_count text m : (0 <= m)%Z -> forall fuel i,
  slices_int fuel text m (Z.of_nat i) = slices fuel text (Z.to_nat m) i.
Proof.
  intros Hm. induction fuel as [|fuel IH]; intros i; cbn [slices_int slices];
    destruct (Z.leb_spec (Z.of_nat (length text)) (Z.of_nat i)) as [H|H];
    destruct (Nat.leb_spec (length text) i) as [H'|H'];
    try reflexivity; try lia.
  replace (Z.of_nat i + m)%Z with (Z.of_nat (i + Z.to_nat m)) by lia.
  rewrite IH. unfold substring_int.
  rewrite !Nat2Z.id, Nat.min_l, Nat.max_r by lia. reflexivity.
Qed.

(** With a step that is not positive the index never reaches the length
    of a text that is not empty. *)
Lemma slices_int_stuck text m : (m <= 0)%Z -> text <> [] -> forall fuel i,
  (i <= 0)%Z -> slices_int fuel text m i = None.
Proof.
  intros Hm Hne.
  assert (Hl : 0 < length text) by (destruct text; [congruence | simpl; lia]).
  induction fuel as [|fuel IH]; intros i Hi; cbn [slices_int];
    destruct (Z.leb_spec (Z.of_nat (length text)) i) as [H|H];
    try lia; [reflexivity|].
  rewrite IH by lia. reflexivity.
Qed.

Lemma smartChunkText_int_count text m :
  smartChunkText_int text m = smartChunkText text (Z.to_nat m).
Proof.
  unfold smartChunkText_int, smartChunkText.
  destruct text as [|c0 text0]; [reflexivity|].
  set (text := c0 :: text0) in *.
  rewrite greedy_int_count.
  destruct (greedy text (Z.to_nat m)); [|reflexivity].
  destruct (Z.le_gt_cases 0 m) as [Hm|Hm].
  - change 0%Z with (Z.of_nat 0).
    now rewrite (slices_int_count text Hm (length text) 0).
  - rewrite slices_int_stuck by (try discriminate; lia).
    replace (Z.to_nat m) with 0 by lia.
    rewrite slices_zero_step by (simpl; lia). reflexivity.
Qed.

End IntegerChunks.

(** X4.  For an integer [maxChunkLength] of either sign, the chunker
    fails to return exactly when the bound is 0 or negative and the text
    is not empty and holds white space only: the slicing loop then steps
    by 0 or backwards and its index never reaches the length, whatever
    the fuel.  On a bound that is a count this is the chunker of the
    other theorems. *)
Theorem X4_chunker_never_ends_iff text (maxLen : Z) :
  (smartChunkText_int text maxLen = None
   <-> ((maxLen <= 0)%Z /\ text <> [] /\ content text = []
        /\ forall fuel, slices_int fuel text maxLen 0 = None))
  /\ (forall n, smartChunkText_int text (Z.of_nat n) = smartChunkText text n).
Proof.
  split.
  - rewrite smartChunkText_int_count, smartChunkText_none_iff. split.
    + intros (H0 & Hne & Hc). repeat split; [lia | assumption | assumption|].
      intros fuel. apply slices_int_stuck; [lia | assumption | lia].
    + intros (Hm & Hne & Hc & _). repeat split; [lia | assumption | assumption].
  - intros n. now rewrite smartChunkText_int_count, Nat2Z.id.
Qed.

(* ------------------------------------------------------------------ *)
(** ** Joining: which error is thrown, and when the join never settles *)
(* ------------------------------------------------------------------ *)

Section JoinMore.

Context {A : Type}.

Lemma collect_blocked (slots : list (option A)) j :
  nth_error slots j = Some None -> collect slots = None.
Proof.
  revert j; induction slots as [|[v|] slots IH]; intros [|j] H; simpl in *;
    try discriminate; try reflexivity.
  now rewrite (IH j H).
Qed.

(** A rejected position is never filled, so the join cannot fulfil. *)
Lemma rejected_slot_empty (slots : list (option A)) outcomes k e :
  sound_slots slots outcomes ->
  nth_error outcomes k = Some (Rejected e) ->
  nth_error slots k = Some None.
Proof.
  intros [Hlen Hs] Hk.
  assert (Hlt : k < length slots)
    by (rewrite Hlen; apply nth_error_Some; congruence).
  destruct (nth_error slots k) as [[v|]|] eqn:E.
  - specialize (Hs k v E). congruence.
  - reflexivity.
  - apply nth_error_None in E. lia.
Qed.

Lemma arrivals_first_rejection pre : forall (slots : list (option A)) outcomes k post e,
  sound_slots slots outcomes ->
  nth_error outcomes k = Some (Rejected e) ->
  (forall j e', In j pre -> nth_error outcomes j <> Some (Rejected e')) ->
  arrivals (pre ++ k :: post) outcomes slots = AllRejected e.
Proof.
  induction pre as [|i pre IH]; intros slots outcomes k post e Hs Hk Hpre;
    simpl; rewrite (@collect_blocked slots k (@rejected_slot_empty slots outcomes k e Hs Hk)).
  - now rewrite Hk.
  - destruct (nth_error outcomes i) as [[v|e1]|] eqn:E.
    + apply IH; [now apply sound_fill | assumption|].
      intros j e' Hj. apply Hpre. now right.
    + destruct (Hpre i e1 (or_introl eq_refl) E).
    + apply IH; [assumption | assumption|].
      intros j e' Hj. apply Hpre. now right.
Qed.

Lemma promise_all_first_rejection pre k post (outcomes : list (Settled A)) e :
  nth_error outcomes k = Some (Rejected e) ->
  (forall j e', In j pre -> nth_error outcomes j <> Some (Rejected e')) ->
  promise_all (pre ++ k :: post) outcomes = AllRejected e.
Proof.
  intros Hk Hpre. unfold promise_all.
  apply arrivals_first_rejection; [apply sound_empty | assumption | assumption].
Qed.

Lemma arrivals_pending order : forall (slots : list (option A)) outcomes j,
  nth_error slots j = Some None ->
  ~ In j order ->
  (forall i e, In i order -> nth_error outcomes i <> Some (Rejected e)) ->
  arrivals order outcomes slots = AllPending.
Proof.
  induction order as [|i later IH]; intros slots outcomes j Hj Hnot Hrej;
    simpl; rewrite (@collect_blocked slots j Hj); [reflexivity|].
  destruct (nth_error outcomes i) as [[v|e1]|] eqn:E.
  - apply (IH _ _ j).
    + rewrite nth_error_fill_other; [assumption|].
      intros ->. apply Hnot. now left.
    + intros H. apply Hnot. now right.
    + intros i' e' H. apply Hrej. now right.
  - destruct (Hrej i e1 (or_introl eq_refl) E).
  - apply (IH _ _ j); [assumption| |].
    + intros H. apply Hnot. now right.
    + intros i' e' H. apply Hrej. now right.
Qed.

Lemma nth_error_repeat_lt (x : option A) n j :
  j < n -> nth_error (repeat x n) j = Some x.
Proof.
  revert j; induction n as [|n IH]; intros [|j] H; simpl; try lia; auto.
  apply IH. lia.
Qed.

Lemma promise_all_pending order (outcomes : list (Settled A)) j :
  j < length outcomes ->
  ~ In j order ->
  (forall i e, In i order -> nth_error outcomes i <> Some (Rejected e)) ->
  promise_all order outcomes = AllPending.
Proof.
  intros Hj Hnot Hrej. unfold promise_all.
  apply (@arrivals_pending order _ _ j); [|assumption|assumption].
  now apply nth_error_repeat_lt.
Qed.

End JoinMore.

Section MonadMore.

Context {A B : Type}.

Lemma bind_stops (m : M A) (f : A -> M B) :
  returned (snd m) = false -> bind m f = (fst m, passed_on (snd m)).
Proof. destruct m as [tr [a|e| |]]; simpl; intros H; congruence. Qed.

End MonadMore.

Section ListMore.

Context {A : Type}.

Lemma firstn_then_firstn (l : list A) : forall a b,
  firstn a l ++ firstn b (skipn a l) = firstn (a + b) l.
Proof.
  induction l as [|x l IH]; intros [|a] b; simpl;
    rewrite ?firstn_nil; try reflexivity.
  now rewrite IH.
Qed.

Lemma slice_join (l : list A) i j k :
  i <= j -> j <= k -> slice l i j ++ slice l j k = slice l i k.
Proof.
  intros Hij Hjk. unfold slice.
  replace (skipn j l) with (skipn (j - i) (skipn i l))
    by (rewrite skipn_skipn; f_equal; lia).
  rewrite firstn_then_firstn. f_equal. lia.
Qed.

Lemma slice_firstn (l : list A) f i j :
  j <= f -> slice (firstn f l) i j = slice l i j.
Proof.
  intros H. unfold slice.
  rewrite skipn_firstn_comm, firstn_firstn. f_equal. lia.
Qed.

Lemma slice_nil (l : list A) i : slice l i i = [].
Proof. unfold slice. now rewrite Nat.sub_diag. Qed.

Lemma slice_from_zero (l : list A) j : slice l 0 j = firstn j l.
Proof. unfold slice. now rewrite Nat.sub_0_r. Qed.

End ListMore.

Lemma synth_calls_app a b : synth_calls (a ++ b) = synth_calls a ++ synth_calls b.
Proof.
  induction a as [|ev a IH]; simpl; [reflexivity|].
  destruct ev; simpl; now rewrite ?IH.
Qed.

Lemma synth_calls_window calls i :
  synth_calls (map (fun c => Synth (fst c) (snd c)) calls ++ [AwaitAll i]) = calls.
Proof.
  induction calls as [|[k text] calls IH]; simpl; [reflexivity|].
  now rewrite IH.
Qed.

Lemma synth_calls_writes w k blobs : synth_calls (fst (write_all w k blobs)) = [].
Proof.
  rewrite write_all_trace. generalize (numbered k blobs) as l.
  induction l as [|c l IH]; simpl; auto.
Qed.

(** Two window starts, one before the other, are a full window apart. *)
Lemma window_starts_apart c i f :
  1 <= c -> i mod c = 0 -> f mod c = 0 -> i < f -> i + c <= f.
Proof.
  intros Hc Hi Hf Hlt.
  apply Nat.Div0.div_exact in Hi, Hf.
  set (x := i / c) in *. set (y := f / c) in *.
  assert (Hxy : x < y).
  { destruct (Nat.lt_ge_cases x y) as [|Hge]; [assumption|].
    exfalso. assert (c * y <= c * x) by (apply Nat.mul_le_mono_l; assumption).
    lia. }
  assert (c * (x + 1) <= c * y) by (apply Nat.mul_le_mono_l; lia).
  lia.
Qed.

(* ------------------------------------------------------------------ *)
(** ** A window that does not come back *)
(* ------------------------------------------------------------------ *)

Section StoppingWindow.

Variables (w : World) (chunks : list str) (concurrency : nat) (args : TtsArgs).
Hypothesis Hc : 1 <= concurrency.

(** The windows before the one that starts at [f] fulfil with [pre]; the
    join of that one ends as [stop], which is not a return. *)
Variables (f : nat) (pre : list Blob) (stop : Outcome (list Blob)).
Hypothesis Hf : f < length chunks.
Hypothesis Hfm : f mod concurrency = 0.
Hypothesis Hearly : forall i,
  i mod concurrency = 0 -> i < f ->
  snd (dispatch w args i (slice chunks i (i + concurrency)))
  = Returns (slice pre i (i + concurrency)).
Hypothesis Hstop :
  snd (dispatch w args f (slice chunks f (f + concurrency))) = stop.
Hypothesis Hnot : returned stop = false.

Lemma synth_calls_dispatch i :
  synth_calls (fst (dispatch w args i (slice chunks i (i + concurrency))))
  = slice (numbered 0 chunks) i (i + concurrency).
Proof.
  unfold dispatch. cbn [fst].
  now rewrite synth_calls_window, numbered_slice.
Qed.

Lemma written_dispatch i batch : written (fst (dispatch w args i batch)) = [].
Proof. unfold dispatch. cbn [fst]. apply written_calls. Qed.

Lemma collect_windows_until : forall fuel i acc,
  length chunks - i <= fuel ->
  i mod concurrency = 0 ->
  i <= f ->
  let run := collect_windows w chunks concurrency args fuel i acc in
  snd run = passed_on stop
  /\ synth_calls (fst run) = slice (numbered 0 chunks) i (f + concurrency).
Proof.
  induction fuel as [|fuel IH]; intros i acc Hfuel Hmod Hif;
    cbn [collect_windows]; loop_guard E; try lia.
  destruct (Nat.eq_dec i f) as [->|Hne].
  - rewrite bind_stops by (rewrite Hstop; exact Hnot).
    cbn [fst snd]. rewrite Hstop. split; [reflexivity|].
    apply synth_calls_dispatch.
  - assert (Hlt : i < f) by lia.
    pose proof (window_starts_apart Hc Hmod Hfm Hlt) as Hnext.
    rewrite (@bind_returns _ _ _ _ _ (Hearly Hmod Hlt)). cbn [fst snd].
    destruct (IH (i + concurrency) (acc ++ slice pre i (i + concurrency))
                 ltac:(lia) (next_window_start concurrency i Hmod) Hnext)
      as [Hs Hcalls].
    split; [assumption|].
    rewrite synth_calls_app, synth_calls_dispatch, Hcalls.
    apply slice_join; lia.
Qed.

Lemma pipe_windows_until : forall fuel i,
  length chunks - i <= fuel ->
  i mod concurrency = 0 ->
  i <= f ->
  let run := pipe_windows w chunks concurrency args fuel i in
  snd run = passed_on stop
  /\ synth_calls (fst run) = slice (numbered 0 chunks) i (f + concurrency)
  /\ written (fst run) = slice pre i f.
Proof.
  induction fuel as [|fuel IH]; intros i Hfuel Hmod Hif;
    cbn [pipe_windows]; loop_guard E; try lia.
  destruct (Nat.eq_dec i f) as [->|Hne].
  - rewrite bind_stops by (rewrite Hstop; exact Hnot).
    cbn [fst snd]. rewrite Hstop. split; [reflexivity|]. split.
    + apply synth_calls_dispatch.
    + now rewrite written_dispatch, slice_nil.
  - assert (Hlt : i < f) by lia.
    pose proof (window_starts_apart Hc Hmod Hfm Hlt) as Hnext.
    rewrite (@bind_returns _ _ _ _ _ (Hearly Hmod Hlt)).
    rewrite (@bind_returns _ _ _ _ _ (write_all_returns w i _)).
    cbn [fst snd].
    destruct (IH (i + concurrency) ltac:(lia)
                 (next_window_start concurrency i Hmod) Hnext)
      as (Hs & Hcalls & Hwr).
    split; [assumption|]. split.
    + rewrite !synth_calls_app, synth_calls_dispatch, synth_calls_writes, Hcalls.
      cbn [app]. apply slice_join; lia.
    + rewrite !written_app, written_dispatch, written_writes, Hwr.
      cbn [app]. apply slice_join; lia.
Qed.

End StoppingWindow.

Section EarlyWindows.

Variables (w : World) (chunks : list str) (concurrency : nat) (args : TtsArgs).
Variables (f : nat) (pre : list Blob).
Hypothesis Hc : 1 <= concurrency.
Hypothesis Hf : f < length chunks.
Hypothesis Hfm : f mod concurrency = 0.
Hypothesis Hpre :
  firstn f (call_results w args chunks) = map (@Fulfilled Blob) pre.

Lemma length_pre : length pre = f.
Proof.
  rewrite <- (length_map (@Fulfilled Blob)), <- Hpre, length_firstn.
  rewrite length_call_results. lia.
Qed.

Lemma early_results i :
  i + concurrency <= f ->
  slice (call_results w args chunks) i (i + concurrency)
  = map (@Fulfilled Blob) (slice pre i (i + concurrency)).
Proof.
  intros H. rewrite <- (slice_firstn _ i H), Hpre. symmetry. apply map_slice.
Qed.

(** Every call settling, the windows before [f] fulfil. *)
Lemma early_windows_fulfil :
  all_settle w chunks concurrency = true ->
  forall i, i mod concurrency = 0 -> i < f ->
  snd (dispatch w args i (slice chunks i (i + concurrency)))
  = Returns (slice pre i (i + concurrency)).
Proof.
  intros Hsettle i Hmod Hlt.
  pose proof (window_starts_apart Hc Hmod Hfm Hlt) as Hnext.
  assert (Hi : i < length chunks) by lia.
  apply (@dispatch_fulfilled w chunks concurrency args Hc Hsettle i
           (slice pre i (i + concurrency)) Hi Hmod).
  now apply early_results.
Qed.

(** The same when only the calls of the windows before [f] are known to
    settle. *)
Lemma early_windows_fulfil_prefix :
  all_settle w (firstn f chunks) concurrency = true ->
  forall i, i mod concurrency = 0 -> i < f ->
  snd (dispatch w args i (slice chunks i (i + concurrency)))
  = Returns (slice pre i (i + concurrency)).
Proof.
  intros Hsettle i Hmod Hlt.
  pose proof (window_starts_apart Hc Hmod Hfm Hlt) as Hnext.
  rewrite <- (slice_firstn chunks i Hnext).
  assert (Hi : i < length (firstn f chunks)) by (rewrite length_firstn; lia).
  apply (@dispatch_fulfilled w (firstn f chunks) concurrency args Hc Hsettle i
           (slice pre i (i + concurrency)) Hi Hmod).
  unfold call_results. rewrite <- numbered_firstn, <- firstn_map.
  fold (call_results w args chunks). rewrite Hpre. symmetry. apply map_slice.
Qed.

(** How the window at [f] ends, read off its settle order. *)
Lemma window_rejects_first before k after e :
  settle_order w f = before ++ k :: after ->
  nth_error (slice (call_results w args chunks) f (f + concurrency)) k
    = Some (Rejected e) ->
  (forall j e', In j before ->
     nth_error (slice (call_results w args chunks) f (f + concurrency)) j
     <> Some (Rejected e')) ->
  snd (dispatch w args f (slice chunks f (f + concurrency))) = Throws e.
Proof.
  intros Ho Hk Hb. unfold dispatch. cbn [snd].
  rewrite window_outcomes, Ho.
  now rewrite (promise_all_first_rejection before k after _ Hk Hb).
Qed.

Lemma window_hangs j :
  j < length (slice chunks f (f + concurrency)) ->
  ~ In j (settle_order w f) ->
  (forall i e', In i (settle_order w f) ->
     nth_error (slice (call_results w args chunks) f (f + concurrency)) i
     <> Some (Rejected e')) ->
  snd (dispatch w args f (slice chunks f (f + concurrency))) = Never.
Proof.
  intros Hj Hn Hr. unfold dispatch. cbn [snd]. rewrite window_outcomes.
  rewrite (@promise_all_pending Blob (settle_order w f) _ j); [reflexivity| | |].
  - rewrite length_slice, length_call_results. now rewrite length_slice in Hj.
  - assumption.
  - assumption.
Qed.

End EarlyWindows.

(** X5.  Buffered mode stops at the first window that fails.  When the
    windows before the one starting at [f] fulfil and a call of that
    window is rejected (every call settling), [getVoice] answers 500
    [tts_generation_error], and the calls it issued are exactly those of
    the chunks up to the end of that window: no call for a later chunk is
    made. *)
Theorem X5_buffered_failure_stops_later_windows
        w chunks concurrency args f pre k e :
  1 <= concurrency ->
  all_settle w chunks concurrency = true ->
  f < length chunks ->
  f mod concurrency = 0 ->
  firstn f (call_results w args chunks) = map (@Fulfilled Blob) pre ->
  nth_error (slice (call_results w args chunks) f (f + concurrency)) k
    = Some (Rejected e) ->
  exists e',
    snd (getVoice w chunks concurrency args)
    = Returns (errorResponse (BufferedTtsFailed e') 500 (js "tts_generation_error"))
    /\ synth_calls (fst (getVoice w chunks concurrency args))
       = firstn (f + concurrency) (numbered 0 chunks).
Proof.
  intros Hc Hsettle Hf Hfm Hpre Hk.
  destruct (@dispatch_rejected w chunks concurrency args Hc Hsettle f k e Hf Hfm Hk)
    as (k' & e' & Hs & _).
  destruct (@collect_windows_until w chunks concurrency args Hc f pre (Throws e')
              Hf Hfm
              (@early_windows_fulfil w chunks concurrency args f pre Hc Hf Hfm
                 Hpre Hsettle)
              Hs eq_refl (length chunks) 0 [] ltac:(lia)
              (Nat.Div0.mod_0_l concurrency) ltac:(lia))
    as [Hsnd Hcalls].
  exists e'. unfold getVoice. cbn [passed_on] in Hsnd.
  rewrite (@bind_throws _ _ _ _ _ Hsnd). unfold try_catch, ret. cbn [fst snd].
  split; [reflexivity|].
  now rewrite app_nil_r, Hcalls, slice_from_zero.
Qed.

Lemma X5_witness :
  exists e',
    snd (getVoice (refusing 2) [js "a"; js "b"; js "c"; js "d"; js "e"] 2 sample_args)
    = Returns (errorResponse (BufferedTtsFailed e') 500 (js "tts_generation_error"))
    /\ synth_calls (fst (getVoice (refusing 2)
                           [js "a"; js "b"; js "c"; js "d"; js "e"] 2 sample_args))
       = firstn (2 + 2) (numbered 0 [js "a"; js "b"; js "c"; js "d"; js "e"]).
Proof.
  apply (@X5_buffered_failure_stops_later_windows (refusing 2)
           [js "a"; js "b"; js "c"; js "d"; js "e"] 2 sample_args 2
           [audio_for (js "a"); audio_for (js "b")] 0
           (ProviderRefused 503 (js "Service Unavailable") (js "busy"))).
  - lia.
  - reflexivity.
  - simpl. lia.
  - reflexivity.
  - reflexivity.
  - reflexivity.
Defined.

(** X6.  Streamed mode, same situation: the audio of the windows before
    the failing one has been handed to the sink, in order, and nothing
    else; no call for a chunk after the failing window is made; the sink
    is told to abort, then closed; [pipeChunksToStream] throws the wrapped
    error and [streamVoice] answers 500 [tts_generation_error]. *)
Theorem X6_streamed_failure_keeps_earlier_windows
        w chunks concurrency args f pre k e :
  1 <= concurrency ->
  all_settle w chunks concurrency = true ->
  f < length chunks ->
  f mod concurrency = 0 ->
  firstn f (call_results w args chunks) = map (@Fulfilled Blob) pre ->
  nth_error (slice (call_results w args chunks) f (f + concurrency)) k
    = Some (Rejected e) ->
  exists e' tr,
    pipeChunksToStream w chunks concurrency args
    = (tr ++ [Abort e'; Close], Throws (StreamFailed e'))
    /\ written tr = pre
    /\ synth_calls tr = firstn (f + concurrency) (numbered 0 chunks)
    /\ snd (streamVoice w chunks concurrency args)
       = Returns (errorResponse (StreamTtsFailed (StreamFailed e')) 500
                    (js "tts_generation_error")).
Proof.
  intros Hc Hsettle Hf Hfm Hpre Hk.
  destruct (@dispatch_rejected w chunks concurrency args Hc Hsettle f k e Hf Hfm Hk)
    as (k' & e' & Hs & _).
  destruct (@pipe_windows_until w chunks concurrency args Hc f pre (Throws e')
              Hf Hfm
              (@early_windows_fulfil w chunks concurrency args f pre Hc Hf Hfm
                 Hpre Hsettle)
              Hs eq_refl (length chunks) 0 ltac:(lia)
              (Nat.Div0.mod_0_l concurrency) ltac:(lia))
    as (Hsnd & Hcalls & Hwr).
  cbn [passed_on] in Hsnd.
  exists e', (fst (pipe_windows w chunks concurrency args (length chunks) 0)).
  assert (Hpipe : pipeChunksToStream w chunks concurrency args
                  = (fst (pipe_windows w chunks concurrency args (length chunks) 0)
                       ++ [Abort e'; Close], Throws (StreamFailed e'))).
  { unfold pipeChunksToStream.
    destruct (pipe_windows w chunks concurrency args (length chunks) 0) as [tr o].
    cbn [fst snd] in *. subst o.
    unfold try_catch, try_finally, bind, emit, throw. cbn [fst snd app].
    now rewrite <- app_assoc. }
  split; [exact Hpipe|]. split.
  - rewrite Hwr, slice_from_zero.
    assert (Hlen : length pre = f) by (eapply length_pre; eassumption).
    rewrite <- Hlen. apply firstn_all.
  - split; [now rewrite Hcalls, slice_from_zero|].
    unfold streamVoice. rewrite Hpipe. reflexivity.
Qed.

Lemma X6_witness :
  exists e' tr,
    pipeChunksToStream (refusing 2) [js "a"; js "b"; js "c"; js "d"; js "e"] 2
      sample_args
    = (tr ++ [Abort e'; Close], Throws (StreamFailed e'))
    /\ written tr = [audio_for (js "a"); audio_for (js "b")]
    /\ synth_calls tr
       = firstn (2 + 2) (numbered 0 [js "a"; js "b"; js "c"; js "d"; js "e"])
    /\ snd (streamVoice (refusing 2) [js "a"; js "b"; js "c"; js "d"; js "e"] 2
              sample_args)
       = Returns (errorResponse (StreamTtsFailed (StreamFailed e')) 500
                    (js "tts_generation_error")).
Proof.
  apply (@X6_streamed_failure_keeps_earlier_windows (refusing 2)
           [js "a"; js "b"; js "c"; js "d"; js "e"] 2 sample_args 2
           [audio_for (js "a"); audio_for (js "b")] 0
           (ProviderRefused 503 (js "Service Unavailable") (js "busy"))).
  - lia.
  - reflexivity.
  - simpl. lia.
  - reflexivity.
  - reflexivity.
  - reflexivity.
Defined.

(** X7.  Which error the caller sees.  In the first failing window the
    error reported is that of the call that is rejected first in the
    order in which the calls settle, not that of the first chunk: the 500
    response of [getVoice] and of [streamVoice] carries exactly that
    error. *)
Theorem X7_reported_error_is_first_to_arrive
        w chunks concurrency args f pre before k after e :
  1 <= concurrency ->
  all_settle w chunks concurrency = true ->
  f < length chunks ->
  f mod concurrency = 0 ->
  firstn f (call_results w args chunks) = map (@Fulfilled Blob) pre ->
  settle_order w f = before ++ k :: after ->
  nth_error (slice (call_results w args chunks) f (f + concurrency)) k
    = Some (Rejected e) ->
  (forall j e', In j before ->
     nth_error (slice (call_results w args chunks) f (f + concurrency)) j
     <> Some (Rejected e')) ->
  snd (getVoice w chunks concurrency args)
  = Returns (errorResponse (BufferedTtsFailed e) 500 (js "tts_generation_error"))
  /\ snd (streamVoice w chunks concurrency args)
     = Returns (errorResponse (StreamTtsFailed (StreamFailed e)) 500
                  (js "tts_generation_error")).
Proof.
  intros Hc Hsettle Hf Hfm Hpre Ho Hk Hb.
  pose proof (@window_rejects_first w chunks concurrency args f before k after e
                Ho Hk Hb) as Hs.
  pose proof (@early_windows_fulfil w chunks concurrency args f pre Hc Hf Hfm
                Hpre Hsettle) as Hearly.
  split.
  - destruct (@collect_windows_until w chunks concurrency args Hc f pre (Throws e)
                Hf Hfm Hearly Hs eq_refl (length chunks) 0 [] ltac:(lia)
                (Nat.Div0.mod_0_l concurrency) ltac:(lia)) as [Hsnd _].
    cbn [passed_on] in Hsnd. unfold getVoice.
    now rewrite (@bind_throws _ _ _ _ _ Hsnd).
  - destruct (@pipe_windows_until w chunks concurrency args Hc f pre (Throws e)
                Hf Hfm Hearly Hs eq_refl (length chunks) 0 ltac:(lia)
                (Nat.Div0.mod_0_l concurrency) ltac:(lia)) as (Hsnd & _).
    cbn [passed_on] in Hsnd. unfold streamVoice, pipeChunksToStream.
    destruct (pipe_windows w chunks concurrency args (length chunks) 0) as [tr o].
    cbn [snd] in Hsnd. subst o. reflexivity.
Qed.

Lemma X7_witness :
  snd (getVoice refusing_each [js "a"; js "b"] 2 sample_args)
  = Returns (errorResponse
               (BufferedTtsFailed
                  (ProviderRefused 429 (js "Too Many Requests") (js "b")))
               500 (js "tts_generation_error"))
  /\ snd (streamVoice refusing_each [js "a"; js "b"] 2 sample_args)
     = Returns (errorResponse
                  (StreamTtsFailed
                     (StreamFailed
                        (ProviderRefused 429 (js "Too Many Requests") (js "b"))))
                  500 (js "tts_generation_error")).
Proof.
  apply (@X7_reported_error_is_first_to_arrive refusing_each
           [js "a"; js "b"] 2 sample_args 0 [] [3; 2] 1 [0]
           (ProviderRefused 429 (js "Too Many Requests") (js "b"))).
  - lia.
  - reflexivity.
  - simpl. lia.
  - reflexivity.
  - reflexivity.
  - reflexivity.
  - reflexivity.
  - intros j e' [<-|[<-|[]]]; discriminate.
Defined.

(** X8.  No timeout.  When a call of some window never settles and none
    of the calls of that window that do settle is rejected (the earlier
    windows fulfilling), neither [getVoice] nor [streamVoice] ever
    returns; in streamed mode the audio of the earlier windows has been
    handed to the sink and the sink is never closed. *)
Theorem X8_unsettled_call_hangs_the_request
        w chunks concurrency args f pre j :
  1 <= concurrency ->
  f < length chunks ->
  f mod concurrency = 0 ->
  all_settle w (firstn f chunks) concurrency = true ->
  firstn f (call_results w args chunks) = map (@Fulfilled Blob) pre ->
  j < length (slice chunks f (f + concurrency)) ->
  ~ In j (settle_order w f) ->
  (forall i e', In i (settle_order w f) ->
     nth_error (slice (call_results w args chunks) f (f + concurrency)) i
     <> Some (Rejected e')) ->
  snd (getVoice w chunks concurrency args) = Never
  /\ snd (streamVoice w chunks concurrency args) = Never
  /\ written (fst (pipeChunksToStream w chunks concurrency args)) = pre
  /\ ~ In Close (fst (pipeChunksToStream w chunks concurrency args)).
Proof.
  intros Hc Hf Hfm Hsettle Hpre Hj Hnot Hrej.
  pose proof (@window_hangs w chunks concurrency args f j Hj Hnot Hrej) as Hs.
  pose proof (@early_windows_fulfil_prefix w chunks concurrency args f pre Hc Hf
                Hfm Hpre Hsettle) as Hearly.
  destruct (@collect_windows_until w chunks concurrency args Hc f pre Never
              Hf Hfm Hearly Hs eq_refl (length chunks) 0 [] ltac:(lia)
              (Nat.Div0.mod_0_l concurrency) ltac:(lia)) as [Hsnd _].
  destruct (@pipe_windows_until w chunks concurrency args Hc f pre Never
              Hf Hfm Hearly Hs eq_refl (length chunks) 0 ltac:(lia)
              (Nat.Div0.mod_0_l concurrency) ltac:(lia)) as (Hp & _ & Hwr).
  destruct (pipe_windows_leaves_sink_open w chunks concurrency args
              (length chunks) 0) as [Hclose _].
  cbn [passed_on] in *. split.
  - unfold getVoice.
    destruct (collect_windows w chunks concurrency args (length chunks) 0 [])
      as [tr o].
    cbn [snd] in Hsnd. subst o. reflexivity.
  - unfold streamVoice, pipeChunksToStream.
    destruct (pipe_windows w chunks concurrency args (length chunks) 0) as [tr o].
    cbn [fst snd] in *. subst o. cbn [try_catch try_finally bind fst snd].
    split; [reflexivity|]. split; [|assumption].
    rewrite Hwr, slice_from_zero.
    assert (Hlen : length pre = f) by (eapply length_pre; eassumption).
    rewrite <- Hlen. apply firstn_all.
Qed.

Lemma X8_witness :
  snd (getVoice stalling [js "a"; js "b"; js "c"] 2 sample_args) = Never
  /\ snd (streamVoice stalling [js "a"; js "b"; js "c"] 2 sample_args) = Never
  /\ written (fst (pipeChunksToStream stalling [js "a"; js "b"; js "c"] 2
                     sample_args)) = []
  /\ ~ In Close (fst (pipeChunksToStream stalling [js "a"; js "b"; js "c"] 2
                        sample_args)).
Proof.
  apply (@X8_unsettled_call_hangs_the_request stalling
           [js "a"; js "b"; js "c"] 2 sample_args 0 [] 1).
  - lia.
  - simpl. lia.
  - reflexivity.
  - reflexivity.
  - reflexivity.
  - simpl. lia.
  - intros [H|[]]. discriminate.
  - intros i e' [<-|[]]. discriminate.
Defined.

Section ZeroStep.

Variables (w : World) (chunks : list str) (args : TtsArgs).
Hypothesis Hne : chunks <> [].

Lemma empty_window_joins : dispatch w args 0 [] = ([AwaitAll 0], Returns []).
Proof.
  unfold dispatch, promise_all. cbn [numbered length seq combine map app].
  destruct (settle_order w 0); reflexivity.
Qed.

Lemma guard_open : (length chunks <=? 0) = false.
Proof. destruct chunks; [congruence | reflexivity]. Qed.

Lemma collect_windows_zero : forall fuel acc,
  snd (collect_windows w chunks 0 args fuel 0 acc) = Never.
Proof.
  induction fuel as [|fuel IH]; intros acc; cbn [collect_windows];
    rewrite guard_open; [reflexivity|].
  change (slice chunks 0 (0 + 0)) with (@nil str).
  rewrite empty_window_joins. cbn [bind Nat.add].
  specialize (IH (acc ++ [])).
  destruct (collect_windows w chunks 0 args fuel 0 (acc ++ [])) as [tr o].
  exact IH.
Qed.

Lemma pipe_windows_zero : forall fuel,
  snd (pipe_windows w chunks 0 args fuel 0) = Never.
Proof.
  induction fuel as [|fuel IH]; cbn [pipe_windows];
    rewrite guard_open; [reflexivity|].
  change (slice chunks 0 (0 + 0)) with (@nil str).
  rewrite empty_window_joins. cbn [bind write_all ret app Nat.add].
  destruct (pipe_windows w chunks 0 args fuel 0) as [tr o].
  exact IH.
Qed.

End ZeroStep.

(** X9.  A [concurrency] of 0 with at least one chunk never comes back:
    the loop index does not advance, so neither loop ends whatever the
    number of iterations allowed, and [getVoice] and [streamVoice] never
    return. *)
Theorem X9_zero_concurrency_never_returns w chunks args :
  chunks <> [] ->
  (forall fuel acc, snd (collect_windows w chunks 0 args fuel 0 acc) = Never)
  /\ (forall fuel, snd (pipe_windows w chunks 0 args fuel 0) = Never)
  /\ snd (getVoice w chunks 0 args) = Never
  /\ snd (streamVoice w chunks 0 args) = Never.
Proof.
  intros Hne.
  pose proof (collect_windows_zero w args Hne) as Hb.
  pose proof (pipe_windows_zero w args Hne) as Hp.
  split; [assumption|]. split; [assumption|]. split.
  - unfold getVoice. specialize (Hb (length chunks) []).
    destruct (collect_windows w chunks 0 args (length chunks) 0 []) as [tr o].
    cbn [snd] in Hb. subst o. reflexivity.
  - unfold streamVoice, pipeChunksToStream. specialize (Hp (length chunks)).
    destruct (pipe_windows w chunks 0 args (length chunks) 0) as [tr o].
    cbn [snd] in Hp. subst o. reflexivity.
Qed.

Lemma X9_witness :
  (forall fuel acc,
      snd (collect_windows (obliging (fun _ => true)) [js "a"] 0 sample_args
             fuel 0 acc) = Never)
  /\ (forall fuel,
         snd (pipe_windows (obliging (fun _ => true)) [js "a"] 0 sample_args
                fuel 0) = Never)
  /\ snd (getVoice (obliging (fun _ => true)) [js "a"] 0 sample_args) = Never
  /\ snd (streamVoice (obliging (fun _ => true)) [js "a"] 0 sample_args) = Never.
Proof.
  apply (@X9_zero_concurrency_never_returns (obliging (fun _ => true))
           [js "a"] sample_args).
  discriminate.
Defined.

(* ------------------------------------------------------------------ *)
(** ** The two entry points turn every failure into a response *)
(* ------------------------------------------------------------------ *)

Section Answers.

Variables (w : World) (chunks : list str) (concurrency : nat) (args : TtsArgs).

Lemma dispatch_covered i batch : snd (dispatch w args i batch) <> Outside.
Proof.
  unfold dispatch. cbn [snd].
  destruct (promise_all _ _); discriminate.
Qed.

Lemma collect_windows_covered : forall fuel i acc,
  snd (collect_windows w chunks concurrency args fuel i acc) <> Outside.
Proof.
  induction fuel as [|fuel IH]; intros i acc; cbn [collect_windows];
    destruct (length chunks <=? i); try discriminate.
  pose proof (dispatch_covered i (slice chunks i (i + concurrency))) as Hd.
  destruct (dispatch w args i (slice chunks i (i + concurrency)))
    as [tr [blobs|e| |]]; cbn [snd bind] in *; try discriminate; [|congruence].
  specialize (IH (i + concurrency) (acc ++ blobs)).
  destruct (collect_windows w chunks concurrency args fuel (i + concurrency)
              (acc ++ blobs)) as [tr' o'].
  exact IH.
Qed.

Lemma pipe_windows_covered : forall fuel i,
  snd (pipe_windows w chunks concurrency args fuel i) <> Outside.
Proof.
  induction fuel as [|fuel IH]; intros i; cbn [pipe_windows];
    destruct (length chunks <=? i); try discriminate.
  pose proof (dispatch_covered i (slice chunks i (i + concurrency))) as Hd.
  destruct (dispatch w args i (slice chunks i (i + concurrency)))
    as [tr [blobs|e| |]] eqn:D; cbn [snd] in Hd; try discriminate;
    [|congruence].
  assert (Hr : snd (tr, Returns blobs) = Returns blobs) by reflexivity.
  rewrite (@bind_returns _ _ _ _ _ Hr).
  rewrite (@bind_returns _ _ _ _ _ (write_all_returns w i blobs)).
  cbn [snd]. apply IH.
Qed.

Hypothesis Hc : 1 <= concurrency.
Hypothesis Hsettle : all_settle w chunks concurrency = true.

(** The loop of [pipeChunksToStream] when some call from window start
    [i] on is rejected: it throws. *)
Lemma pipe_windows_rejected : forall fuel i k e,
  length chunks - i <= fuel ->
  i mod concurrency = 0 ->
  i <= k ->
  nth_error (call_results w args chunks) k = Some (Rejected e) ->
  exists e', snd (pipe_windows w chunks concurrency args fuel i) = Throws e'.
Proof.
  induction fuel as [|fuel IH]; intros i k e Hf Hmod Hik Hk;
    assert (Hlt : k < length chunks)
      by (rewrite <- (length_call_results w chunks args);
          apply nth_error_Some; congruence);
    cbn [pipe_windows]; loop_guard E; try lia.
  destruct (fulfilled_or_rejected
              (slice (call_results w args chunks) i (i + concurrency)))
    as [[values Hv]|(j & e1 & Hj)].
  - rewrite (@bind_returns _ _ _ _ _
               (@dispatch_fulfilled w chunks concurrency args Hc Hsettle
                  i values E Hmod Hv)).
    rewrite (@bind_returns _ _ _ _ _ (write_all_returns w i values)).
    cbn [snd].
    apply (IH _ k e); [lia | now apply next_window_start | | assumption].
    destruct (Nat.le_gt_cases (i + concurrency) k) as [|Hin]; [assumption|].
    exfalso.
    assert (Hn : nth_error (slice (call_results w args chunks) i (i + concurrency))
                           (k - i) = Some (Rejected e)).
    { rewrite nth_error_slice by lia. now replace (i + (k - i)) with k by lia. }
    rewrite Hv, nth_error_map in Hn.
    destruct (nth_error values (k - i)); simpl in Hn; discriminate.
  - destruct (@dispatch_rejected w chunks concurrency args Hc Hsettle
                i j e1 E Hmod Hj) as (k' & e' & Hs & _).
    rewrite (@bind_throws _ _ _ _ _ Hs). exists e'. reflexivity.
Qed.

End Answers.

(** X10.  Neither [getVoice] nor [streamVoice] ever throws.  If
    [getVoice] returns, it returns the audio (status 200) or its own 500
    [tts_generation_error] response; likewise [streamVoice], whose 500
    wraps the error thrown by [pipeChunksToStream]. *)
Theorem X10_entry_points_never_throw w chunks concurrency args :
  match snd (getVoice w chunks concurrency args) with
  | Returns r =>
      (exists data, r = audioResponse (Audio data))
      \/ (exists e, r = errorResponse (BufferedTtsFailed e) 500
                          (js "tts_generation_error"))
  | Never => True
  | Throws _ | Outside => False
  end
  /\ match snd (streamVoice w chunks concurrency args) with
     | Returns r =>
         (exists written, r = audioResponse (AudioStream written))
         \/ (exists e, r = errorResponse (StreamTtsFailed (StreamFailed e)) 500
                             (js "tts_generation_error"))
     | Never => True
     | Throws _ | Outside => False
     end.
Proof.
  split.
  - unfold getVoice.
    pose proof (collect_windows_covered w chunks concurrency args
                  (length chunks) 0 []) as Hcov.
    destruct (collect_windows w chunks concurrency args (length chunks) 0 [])
      as [tr [blobs|e| |]]; cbn [snd] in Hcov; simpl; eauto.
  - unfold streamVoice, pipeChunksToStream.
    pose proof (pipe_windows_covered w chunks concurrency args
                  (length chunks) 0) as Hcov.
    destruct (pipe_windows w chunks concurrency args (length chunks) 0)
      as [tr [u|e| |]]; cbn [snd] in Hcov; simpl; eauto.
Qed.

(** X11.  With [concurrency >= 1] and every call settling, both entry
    points return a response, with status 200 or 500, whatever the
    provider answers. *)
Theorem X11_entry_points_always_answer w chunks concurrency args :
  1 <= concurrency ->
  all_settle w chunks concurrency = true ->
  exists r r',
    snd (getVoice w chunks concurrency args) = Returns r
    /\ snd (streamVoice w chunks concurrency args) = Returns r'
    /\ (status r = 200 \/ status r = 500)
    /\ (status r' = 200 \/ status r' = 500).
Proof.
  intros Hc Hsettle.
  destruct (fulfilled_or_rejected (call_results w args chunks))
    as [[blobs Hok]|(k & e & Hk)].
  - destruct (@collect_windows_fulfilled w chunks concurrency args Hc Hsettle
                blobs Hok (length chunks) 0 [] ltac:(lia)
                (Nat.Div0.mod_0_l concurrency)) as [Hb _].
    destruct (@pipe_windows_fulfilled w chunks concurrency args Hc Hsettle
                blobs Hok (length chunks) 0 ltac:(lia)
                (Nat.Div0.mod_0_l concurrency)) as [Hp _].
    unfold getVoice, streamVoice, pipeChunksToStream.
    rewrite (@bind_returns _ _ _ _ _ Hb).
    destruct (pipe_windows w chunks concurrency args (length chunks) 0) as [tr o].
    cbn [snd] in Hp. subst o. simpl. eauto 10.
  - destruct (@collect_windows_rejected w chunks concurrency args Hc Hsettle
                (length chunks) 0 [] k e ltac:(lia)
                (Nat.Div0.mod_0_l concurrency) ltac:(lia) Hk)
      as (k' & e' & Hb & _).
    destruct (@pipe_windows_rejected w chunks concurrency args Hc Hsettle
                (length chunks) 0 k e ltac:(lia)
                (Nat.Div0.mod_0_l concurrency) ltac:(lia) Hk) as (e2 & Hp).
    unfold getVoice, streamVoice, pipeChunksToStream.
    rewrite (@bind_throws _ _ _ _ _ Hb).
    destruct (pipe_windows w chunks concurrency args (length chunks) 0) as [tr o].
    cbn [snd] in Hp. subst o. simpl. eauto 10.
Qed.

Lemma X11_witness :
  exists r r',
    snd (getVoice (refusing 1) [js "a"; js "b"; js "c"] 2 sample_args) = Returns r
    /\ snd (streamVoice (refusing 1) [js "a"; js "b"; js "c"] 2 sample_args)
       = Returns r'
    /\ (status r = 200 \/ status r = 500)
    /\ (status r' = 200 \/ status r' = 500).
Proof.
  apply (@X11_entry_points_always_answer (refusing 1)
           [js "a"; js "b"; js "c"] 2 sample_args).
  - lia.
  - reflexivity.
Defined.

(* ------------------------------------------------------------------ *)
(** ** The request handler: key check, type errors, voice, blank text *)
(* ------------------------------------------------------------------ *)

Section HandlerMore.

Variable cleanTextOn : str -> CleaningOptions -> str.
Variable percent : value -> str.
Variable w : World.

Lemma str_eqb_neq a b : a <> b -> str_eqb a b = false.
Proof.
  intros H. destruct (str_eqb a b) eqn:E; [|reflexivity].
  apply str_eqb_eq in E. congruence.
Qed.

Lemma starts_with_iff p s :
  starts_with p s = true <-> exists rest, s = p ++ rest.
Proof.
  revert s; induction p as [|a p IH]; intros s; simpl.
  - split; [intros _; now exists s | reflexivity].
  - destruct s as [|b s].
    + split; [discriminate | intros [rest H]; discriminate].
    + rewrite andb_true_iff, N.eqb_eq, IH. split.
      * intros [-> [rest ->]]. now exists rest.
      * intros [rest H]. inversion H; subst. split; [reflexivity | now exists rest].
Qed.

(** The one header that passes the key check. *)
Lemma bearer_matches_iff authHeader key :
  bearer_matches authHeader key = true <-> authHeader = js "Bearer " ++ key.
Proof.
  unfold bearer_matches. rewrite andb_true_iff, starts_with_iff, str_eqb_eq.
  split.
  - intros [[rest ->] H]. now rewrite <- H.
  - intros ->. split; [now exists key | reflexivity].
Qed.

(** The handler once the voice is settled without the alias table. *)
Lemma handle_with_truthy_voice request fields text cleaned :
  method request = js "POST" ->
  json request = Fulfilled (JObject fields) ->
  own fields (js "input") = Some (JString text) -> text <> [] ->
  truthy (with_default (JObject fields) (js "voice") (JString (js "shimmer")))
    = true ->
  cleanText cleanTextOn (JString text)
    (with_default (JObject fields) (js "cleaning_options") (JObject []))
  = ([], Returns cleaned) ->
  handleSpeechRequest cleanTextOn percent w request
  = speak percent w (JObject fields) cleaned
      (with_default (JObject fields) (js "voice") (JString (js "shimmer"))).
Proof.
  intros Hm Hj Hin Ht Hv Hclean.
  unfold handleSpeechRequest. rewrite Hm, str_eqb_refl, Hj.
  cbn [negb property]. rewrite Hin.
  replace (truthy (JString text)) with true
    by (destruct text; [congruence | reflexivity]).
  cbn [negb]. rewrite Hclean. unfold lookup_modelVoice. rewrite Hv.
  cbv zeta. unfold bind, ret. cbn [app truthy]. rewrite Hv. cbn [negb].
  now destruct (speak _ _ _ _ _).
Qed.

End HandlerMore.

(** X12.  The key check.  With a key configured, a request other than
    OPTIONS is handled only when its authorization header is exactly
    "Bearer " followed by the key; any other header, or none, gets 401
    [invalid_api_key] and nothing is parsed, synthesized or called. *)
Theorem X12_only_the_exact_bearer_header_passes
        cleanTextOn percent w key request :
  method request <> js "OPTIONS" ->
  key <> [] ->
  (authorization request = Some (js "Bearer " ++ key)
   /\ onRequest cleanTextOn percent w (Some key) request
      = try_catch (handleSpeechRequest cleanTextOn percent w request)
          (fun err =>
             ret (errorResponse (ProcessingError err) 500
                    (js "internal_server_error"))))
  \/ (authorization request <> Some (js "Bearer " ++ key)
      /\ onRequest cleanTextOn percent w (Some key) request
         = ([], Returns (errorResponse InvalidApiKey 401 (js "invalid_api_key")))).
Proof.
  intros Hm Hk. unfold onRequest. rewrite (str_eqb_neq Hm).
  destruct key as [|k0 key0]; [congruence|].
  destruct (authorization request) as [[|h0 header]|] eqn:Ha.
  - right. split; [discriminate | reflexivity].
  - destruct (bearer_matches (h0 :: header) (k0 :: key0)) eqn:B.
    + left. apply bearer_matches_iff in B. rewrite B. split; reflexivity.
    + right. split; [|reflexivity].
      intros H.
      assert (H' : h0 :: header = js "Bearer " ++ k0 :: key0) by congruence.
      apply bearer_matches_iff in H'. congruence.
  - right. split; [discriminate | reflexivity].
Qed.

Lemma X12_witness :
  let request :=
    {| method := js "POST"; authorization := Some (js "Bearer wrong");
       json := Fulfilled (JObject [(js "input", JString (js "hi"))]) |} in
  (authorization request = Some (js "Bearer " ++ js "hello")
   /\ onRequest keep_text zero_percent voice_echo (Some (js "hello")) request
      = try_catch (handleSpeechRequest keep_text zero_percent voice_echo request)
          (fun err =>
             ret (errorResponse (ProcessingError err) 500
                    (js "internal_server_error"))))
  \/ (authorization request <> Some (js "Bearer " ++ js "hello")
      /\ onRequest keep_text zero_percent voice_echo (Some (js "hello")) request
         = ([], Returns (errorResponse InvalidApiKey 401 (js "invalid_api_key")))).
Proof.
  apply (@X12_only_the_exact_bearer_header_passes keep_text zero_percent
           voice_echo (js "hello")
           {| method := js "POST"; authorization := Some (js "Bearer wrong");
              json := Fulfilled (JObject [(js "input", JString (js "hi"))]) |}).
  - discriminate.
  - discriminate.
Defined.

(** X14.  An [input] that is truthy but not a string (a number, [true],
    an array, an object) is not a 400: [cleanText] raises a TypeError, no
    call is made, and [onRequest] answers 500 [internal_server_error]. *)
Theorem X14_non_string_input_is_a_500
        cleanTextOn percent w request fields v :
  method request = js "POST" ->
  json request = Fulfilled (JObject fields) ->
  own fields (js "input") = Some v ->
  truthy v = true ->
  (forall s, v <> JString s) ->
  handleSpeechRequest cleanTextOn percent w request = ([], Throws TypeError)
  /\ onRequest cleanTextOn percent w None request
     = ([], Returns (errorResponse (ProcessingError TypeError) 500
                       (js "internal_server_error"))).
Proof.
  intros Hm Hj Hin Ht Hns.
  assert (H : handleSpeechRequest cleanTextOn percent w request
              = ([], Throws TypeError)).
  { unfold handleSpeechRequest. rewrite Hm, str_eqb_refl, Hj.
    cbn [negb property]. rewrite Hin, Ht. cbn [negb].
    unfold cleanText. destruct v; try reflexivity.
    destruct (Hns s eq_refl). }
  split; [exact H|].
  unfold onRequest. rewrite Hm, H. reflexivity.
Qed.

Lemma X14_witness :
  handleSpeechRequest keep_text zero_percent voice_echo
    (post (JObject [(js "input", JNumber 5)]))
  = ([], Throws TypeError)
  /\ onRequest keep_text zero_percent voice_echo None
       (post (JObject [(js "input", JNumber 5)]))
     = ([], Returns (errorResponse (ProcessingError TypeError) 500
                       (js "internal_server_error"))).
Proof.
  apply (@X14_non_string_input_is_a_500 keep_text zero_percent voice_echo
           (post (JObject [(js "input", JNumber 5)]))
           [(js "input", JNumber 5)] (JNumber 5)).
  - reflexivity.
  - reflexivity.
  - reflexivity.
  - reflexivity.
  - discriminate.
Defined.

(** X15.  A truthy [voice], or an absent one (the default ["shimmer"]
    stands in), is used as given: the alias table is not consulted
    whatever [model] is, [model] need not even be a string, and the
    request is never rejected for its voice. *)
Theorem X15_truthy_voice_is_used_as_given
        cleanTextOn percent w request fields text cleaned :
  method request = js "POST" ->
  json request = Fulfilled (JObject fields) ->
  own fields (js "input") = Some (JString text) -> text <> [] ->
  truthy (with_default (JObject fields) (js "voice") (JString (js "shimmer")))
    = true ->
  cleanText cleanTextOn (JString text)
    (with_default (JObject fields) (js "cleaning_options") (JObject []))
  = ([], Returns cleaned) ->
  handleSpeechRequest cleanTextOn percent w request
  = speak percent w (JObject fields) cleaned
      (with_default (JObject fields) (js "voice") (JString (js "shimmer"))).
Proof. apply handle_with_truthy_voice. Qed.

Lemma X15_witness :
  handleSpeechRequest keep_text zero_percent voice_echo
    (post (JObject [ (js "model", JNumber 7);
                     (js "voice", JString (js "en-US-AriaNeural"));
                     (js "input", JString (js "hi")) ]))
  = speak zero_percent voice_echo
      (JObject [ (js "model", JNumber 7);
                 (js "voice", JString (js "en-US-AriaNeural"));
                 (js "input", JString (js "hi")) ])
      (js "hi") (JString (js "en-US-AriaNeural")).
Proof.
  apply (@X15_truthy_voice_is_used_as_given keep_text zero_percent voice_echo
           (post (JObject [ (js "model", JNumber 7);
                            (js "voice", JString (js "en-US-AriaNeural"));
                            (js "input", JString (js "hi")) ]))
           [ (js "model", JNumber 7);
             (js "voice", JString (js "en-US-AriaNeural"));
             (js "input", JString (js "hi")) ]
           (js "hi") (js "hi")).
  - reflexivity.
  - reflexivity.
  - reflexivity.
  - discriminate.
  - reflexivity.
  - reflexivity.
Defined.



(* ------------------------------------------------------------------ *)
(** ** The credential cache over time and under interleaving *)
(* ------------------------------------------------------------------ *)

(** X17.  A granted credential is reused.  After a refresh that was
    granted a non-empty token with expiry [exp], an access at any time
    more than five minutes before [exp] returns that credential from the
    cache, sends no handshake request and leaves the cache as it is. *)
Theorem X17_granted_credential_is_reused coerce ti now_ms data exp later_ms h :
  still_valid coerce ti now_ms = Some false ->
  t data <> [] ->
  exp <> 0%Z ->
  fresh_at later_ms exp = true ->
  let cached := fst (getEndpoint coerce ti now_ms (Granted data (JNumber exp))) in
  getEndpoint coerce cached later_ms h = (Cached data (JNumber exp), Fulfilled data)
  /\ handshake_sent coerce cached later_ms h = false.
Proof.
  intros Hv Ht He Hf. cbv zeta.
  assert (Hc : fst (getEndpoint coerce ti now_ms (Granted data (JNumber exp)))
               = Cached data (JNumber exp)).
  { unfold getEndpoint. now rewrite (enter_refreshing _ _ _ Hv). }
  rewrite Hc.
  assert (Hs : enter coerce (Cached data (JNumber exp)) later_ms = Served data).
  { unfold enter, still_valid, has_token, before_expiry. cbn [truthy].
    rewrite Hf.
    destruct (t data); [congruence|].
    destruct (exp =? 0)%Z eqn:E; [apply Z.eqb_eq in E; congruence | reflexivity]. }
  unfold getEndpoint, handshake_sent. now rewrite Hs.
Qed.

Lemma X17_witness :
  let cached :=
    fst (getEndpoint not_a_number NoToken 1000000
           (Granted westus (JNumber 2000))) in
  getEndpoint not_a_number cached 1500000 (CallFailed TypeError)
  = (Cached westus (JNumber 2000), Fulfilled westus)
  /\ handshake_sent not_a_number cached 1500000 (CallFailed TypeError) = false.
Proof.
  apply (@X17_granted_credential_is_reused not_a_number NoToken 1000000
           westus 2000 1500000 (CallFailed TypeError)).
  - reflexivity.
  - discriminate.
  - discriminate.
  - reflexivity.
Defined.

Section RunFacts.

Variable coerce : Z -> value -> option bool.

Lemma cache_after_conclude ti h :
  fst (conclude ti h)
  = match h with Granted data exp => Cached data exp | _ => ti end.
Proof. destruct h; reflexivity. Qed.

(** One step leaves the cache alone unless it is the answer granting a
    credential to a caller in flight. *)
Lemma cache_after_step c s :
  cache (step coerce c s) = cache c
  \/ exists i data exp,
       s = Answered i (Granted data exp)
       /\ cache (step coerce c s) = Cached data exp.
Proof.
  destruct s as [i now_ms|i [sig|e]|i h]; cbn [step].
  - destruct (nth_error (tasks c) i) as [[| | |r]|]; auto.
    destruct (enter coerce (cache c) now_ms); auto.
  - destruct (nth_error (tasks c) i) as [[| | |r]|]; auto.
  - destruct (nth_error (tasks c) i) as [[| | |r]|]; auto.
  - destruct (nth_error (tasks c) i) as [[| | |r]|];
      destruct (sent_request h) eqn:S; auto.
    pose proof (cache_after_conclude (cache c) h) as Hc.
    destruct (conclude (cache c) h) as [ti res]. cbn [fst cache] in *.
    destruct h; subst; auto.
    right. exists i, data, exp. split; reflexivity.
Qed.

Lemma grants_app a b : grants (a ++ b) = grants a ++ grants b.
Proof.
  induction a as [|s a IH]; simpl; [reflexivity|].
  destruct s as [| |i [| | | | |data exp]]; simpl; now rewrite ?IH.
Qed.

Lemma nth_error_set_task ts : forall i old x,
  nth_error ts i = Some old ->
  waiting_callers (set_task ts i x) + waiting old
  = waiting_callers ts + waiting x.
Proof.
  unfold waiting_callers.
  induction ts as [|y ts IH]; intros [|i] old x H; simpl in *;
    try discriminate.
  - inversion H; subst. lia.
  - specialize (IH i old x H). lia.
Qed.

(** A step never raises the number of requests sent plus the number of
    callers still to send one. *)
Lemma budget_after_step c s :
  handshakes (step coerce c s) + waiting_callers (tasks (step coerce c s))
  <= handshakes c + waiting_callers (tasks c).
Proof.
  assert (Hset : forall i old x,
             nth_error (tasks c) i = Some old ->
             waiting x <= waiting old ->
             waiting_callers (set_task (tasks c) i x)
             <= waiting_callers (tasks c)).
  { intros i old x E Hw.
    pose proof (@nth_error_set_task (tasks c) i old x E). lia. }
  assert (Hsend : forall i,
             nth_error (tasks c) i = Some Signing ->
             S (waiting_callers (set_task (tasks c) i InFlight))
             <= waiting_callers (tasks c)).
  { intros i E.
    pose proof (@nth_error_set_task (tasks c) i Signing InFlight E) as H.
    simpl in H. lia. }
  destruct s as [i now_ms|i [sig|e]|i h]; cbn [step].
  - destruct (nth_error (tasks c) i) as [[| | |r]|] eqn:E; auto.
    destruct (enter coerce (cache c) now_ms); cbn [handshakes tasks];
      (apply Nat.add_le_mono_l; apply (Hset i Idle); [assumption | simpl; lia]).
  - destruct (nth_error (tasks c) i) as [[| | |r]|] eqn:E; auto.
    cbn [handshakes tasks]. specialize (Hsend i E). lia.
  - destruct (nth_error (tasks c) i) as [[| | |r]|] eqn:E; auto.
    destruct (conclude (cache c) (SignFailed e)) as [ti res].
    cbn [handshakes tasks].
    apply Nat.add_le_mono_l; apply (Hset i Signing); [assumption | simpl; lia].
  - destruct (nth_error (tasks c) i) as [[| | |r]|] eqn:E;
      destruct (sent_request h); auto.
    destruct (conclude (cache c) h) as [ti res]. cbn [handshakes tasks].
    apply Nat.add_le_mono_l; apply (Hset i InFlight); [assumption | simpl; lia].
Qed.

Lemma waiting_callers_idle k : waiting_callers (repeat Idle k) = k.
Proof.
  unfold waiting_callers. induction k; simpl; [reflexivity | now f_equal].
Qed.

End RunFacts.

(** X18.  Nothing but a granted handshake writes the cache.  After any
    interleaving of the callers' steps the shared [tokenInfo] is what it
    was at the start or one of the credentials granted along the way: no
    failure path clears it or alters it. *)
Theorem X18_cache_written_only_by_grants coerce steps : forall c,
  cache (run coerce c steps) = cache c
  \/ In (cache (run coerce c steps)) (grants steps).
Proof.
  unfold run. induction steps as [|s steps IH]; intros c; [now left|].
  cbn [fold_left]. destruct (IH (step coerce c s)) as [H|H].
  - rewrite H.
    destruct (cache_after_step coerce c s) as [E|(i & data & exp & -> & E)].
    + now left.
    + right. rewrite E. now left.
  - right. change (s :: steps) with ([s] ++ steps). rewrite grants_app.
    apply in_or_app. now right.
Qed.

(** X19.  No retry, no duplicate by one caller.  Whatever the
    interleaving and however the handshakes end, [k] callers send at most
    [k] handshake requests in all. *)
Theorem X19_at_most_one_handshake_per_caller coerce ti k steps :
  handshakes (run coerce (start ti k) steps) <= k.
Proof.
  assert (H : forall c,
             handshakes (run coerce c steps)
             + waiting_callers (tasks (run coerce c steps))
             <= handshakes c + waiting_callers (tasks c)).
  { unfold run. induction steps as [|s steps IH]; intros c; [reflexivity|].
    cbn [fold_left]. etransitivity; [apply IH | apply budget_after_step]. }
  specialize (H (start ti k)). simpl in H.
  rewrite waiting_callers_idle in H. lia.
Qed.

(* ------------------------------------------------------------------ *)
(** ** The hand-written Base64 loops *)
(* ------------------------------------------------------------------ *)

Section Base64Facts.

Local Open Scope Z_scope.

Lemma in_octets z : 0 <= z < 256 -> In z octets.
Proof.
  intros H. unfold octets. apply in_map_iff.
  exists (Z.to_nat z). split; [lia | apply in_seq; lia].
Qed.

Lemma check_octet (P : Z -> bool) :
  forallb P octets = true -> forall a, 0 <= a < 256 -> P a = true.
Proof.
  intros H a Ha. rewrite forallb_forall in H. apply H, in_octets, Ha.
Qed.

Lemma check_octets (P : Z -> Z -> bool) :
  forallb (fun a => forallb (P a) octets) octets = true ->
  forall a b, 0 <= a < 256 -> 0 <= b < 256 -> P a b = true.
Proof.
  intros H a b Ha Hb. rewrite forallb_forall in H.
  specialize (H a (in_octets Ha)). now apply (check_octet _ H).
Qed.

Lemma byte_value_range b : 0 <= byte_value b < 256.
Proof.
  unfold byte_value. pose proof (Byte.to_N_bounded b). lia.
Qed.

(** Facts on the bit operations of the loops, checked on every byte. *)
Lemma second_sextet a b :
  0 <= a < 256 -> 0 <= b < 256 ->
  0 <= sextet2 a b < 64
  /\ Z.lor (Z.shiftl (Z.shiftr a 2) 2) (Z.shiftr (sextet2 a b) 4) = a
  /\ Z.land (sextet2 a b) 15 = Z.shiftr b 4.
Proof.
  intros Ha Hb.
  pose proof (@check_octets
                (fun a b =>
                   (0 <=? sextet2 a b) && (sextet2 a b <? 64)
                   && (Z.lor (Z.shiftl (Z.shiftr a 2) 2)
                             (Z.shiftr (sextet2 a b) 4) =? a)
                   && (Z.land (sextet2 a b) 15 =? Z.shiftr b 4))%bool
                ltac:(vm_compute; reflexivity) a b Ha Hb) as H.
  cbv beta in H. rewrite !andb_true_iff in H.
  destruct H as [[[H1 H2] H3] H4]. lia.
Qed.

Lemma third_sextet b c :
  0 <= b < 256 -> 0 <= c < 256 ->
  0 <= sextet3 b c < 64
  /\ Z.shiftr (sextet3 b c) 2 = Z.land b 15
  /\ Z.land (sextet3 b c) 3 = Z.shiftr c 6.
Proof.
  intros Hb Hc.
  pose proof (@check_octets
                (fun b c =>
                   (0 <=? sextet3 b c) && (sextet3 b c <? 64)
                   && (Z.shiftr (sextet3 b c) 2 =? Z.land b 15)
                   && (Z.land (sextet3 b c) 3 =? Z.shiftr c 6))%bool
                ltac:(vm_compute; reflexivity) b c Hb Hc) as H.
  cbv beta in H. rewrite !andb_true_iff in H.
  destruct H as [[[H1 H2] H3] H4]. lia.
Qed.

Lemma outer_sextets b :
  0 <= b < 256 ->
  0 <= Z.shiftr b 2 < 64
  /\ 0 <= Z.land b 63 < 64
  /\ Z.lor (Z.shiftl (Z.shiftr b 4) 4) (Z.land b 15) = b
  /\ Z.lor (Z.shiftl (Z.shiftr b 6) 6) (Z.land b 63) = b.
Proof.
  intros Hb.
  pose proof (@check_octet
                (fun b =>
                   (0 <=? Z.shiftr b 2) && (Z.shiftr b 2 <? 64)
                   && (0 <=? Z.land b 63) && (Z.land b 63 <? 64)
                   && (Z.lor (Z.shiftl (Z.shiftr b 4) 4) (Z.land b 15) =? b)
                   && (Z.lor (Z.shiftl (Z.shiftr b 6) 6) (Z.land b 63) =? b))%bool
                ltac:(vm_compute; reflexivity) b Hb) as H.
  cbv beta in H. rewrite !andb_true_iff in H.
  destruct H as [[[[[H1 H2] H3] H4] H5] H6]. lia.
Qed.

(** Looking up the unit of an index gives the index back. *)
Lemma indexOf_char_at k : 0 <= k < 64 -> indexOf (Some (char_at k)) = k.
Proof.
  intros Hk.
  assert (H : forallb (fun k => indexOf (Some (char_at k)) =? k)
                      (map Z.of_nat (seq 0 64)) = true)
    by (vm_compute; reflexivity).
  rewrite forallb_forall in H. apply Z.eqb_eq, H, in_map_iff.
  exists (Z.to_nat k). split; [lia | apply in_seq; lia].
Qed.

Lemma char_at_in_chars k : 0 <= k < 64 -> In (char_at k) chars.
Proof.
  intros Hk. unfold char_at. apply nth_In.
  change (length chars) with 64%nat. lia.
Qed.

Lemma index_from_range x l : forall k,
  index_from x l k = -1
  \/ k <= index_from x l k < k + Z.of_nat (length l).
Proof.
  induction l as [|y l IH]; intros k; simpl; [now left|].
  destruct (y =? x)%N; [right; lia|].
  destruct (IH (k + 1)) as [H|H]; [now left | right; lia].
Qed.

(** An index is never 64: the tests [c !== 64] and [d !== 64] of the
    decoding loop always hold. *)
Lemma indexOf_below_64 x : -1 <= indexOf x < 64.
Proof.
  destruct x as [u|]; cbv [indexOf]; [|lia].
  destruct (index_from_range u chars 0) as [H|H]; [lia|].
  change (Z.of_nat (length chars)) with 64 in H. lia.
Qed.

Lemma group_three a b c d :
  c <> 64 -> d <> 64 ->
  group a b c d
  = [ Z.lor (Z.shiftl a 2) (Z.shiftr b 4);
      Z.lor (Z.shiftl (Z.land b 15) 4) (Z.shiftr c 2);
      Z.lor (Z.shiftl (Z.land c 3) 6) d ].
Proof.
  intros Hc Hd. unfold group.
  destruct (c =? 64) eqn:E1; [apply Z.eqb_eq in E1; congruence|].
  destruct (d =? 64) eqn:E2; [apply Z.eqb_eq in E2; congruence|].
  reflexivity.
Qed.

Lemma group_of_indices x y z t :
  group (indexOf x) (indexOf y) (indexOf z) (indexOf t)
  = [ Z.lor (Z.shiftl (indexOf x) 2) (Z.shiftr (indexOf y) 4);
      Z.lor (Z.shiftl (Z.land (indexOf y) 15) 4) (Z.shiftr (indexOf z) 2);
      Z.lor (Z.shiftl (Z.land (indexOf z) 3) 6) (indexOf t) ].
Proof.
  apply group_three.
  - pose proof (indexOf_below_64 z). lia.
  - pose proof (indexOf_below_64 t). lia.
Qed.

(** Every group of four units, complete or not, gives three codes. *)
Lemma decode_codes_length : forall n s,
  (length s <= n)%nat ->
  length (decode_codes s) = (3 * ((length s + 3) / 4))%nat.
Proof.
  induction n as [|n IH]; intros s Hn.
  - destruct s; [reflexivity | simpl in Hn; lia].
  - destruct s as [|a [|b [|c [|d rest]]]];
      cbn [decode_codes]; rewrite ?group_of_indices; try reflexivity.
    rewrite length_app. cbn [length] in *.
    rewrite IH by lia.
    replace (S (S (S (S (length rest)))) + 3)%nat
      with ((length rest + 3) + 1 * 4)%nat by lia.
    rewrite Nat.div_add by lia. lia.
Qed.

Lemma decode_codes_app body tail :
  (length body mod 4 = 0)%nat ->
  decode_codes (body ++ tail) = decode_codes body ++ decode_codes tail.
Proof.
  assert (H : forall n body,
             (length body <= n)%nat -> (length body mod 4 = 0)%nat ->
             decode_codes (body ++ tail)
             = decode_codes body ++ decode_codes tail).
  { induction n as [|n IH]; intros b Hn Hm.
    - destruct b; [reflexivity | simpl in Hn; lia].
    - destruct b as [|x [|y [|z [|t rest]]]]; try reflexivity;
        try (cbn [length] in Hm; discriminate).
      cbn [app decode_codes length] in *.
      rewrite IH; [now rewrite app_assoc | lia|].
      replace (S (S (S (S (length rest))))) with (length rest + 1 * 4)%nat in Hm
        by lia.
      now rewrite Nat.Div0.mod_add in Hm. }
  intros Hm. now apply (H (length body)).
Qed.

(** One full iteration of the encoding loop, decoded. *)
Lemma decode_quad len i a b c :
  (i <= len)%nat ->
  0 <= a < 256 -> 0 <= b < 256 -> 0 <= c < 256 ->
  exists x y z t,
    quad len i a b c = [x; y; z; t]
    /\ In x chars /\ In y chars /\ In z chars /\ In t chars
    /\ group (indexOf (Some x)) (indexOf (Some y)) (indexOf (Some z))
             (indexOf (Some t)) = [a; b; c].
Proof.
  intros Hi Ha Hb Hc. unfold quad.
  replace (Z.of_nat i - 2 <? Z.of_nat len) with true by (symmetry; apply Z.ltb_lt; lia).
  replace (Z.of_nat i - 1 <? Z.of_nat len) with true by (symmetry; apply Z.ltb_lt; lia).
  fold (sextet2 a b). fold (sextet3 b c).
  destruct (second_sextet Ha Hb) as (R2 & E1 & E2).
  destruct (third_sextet Hb Hc) as (R3 & E3 & E4).
  destruct (outer_sextets Ha) as (R1 & _).
  destruct (outer_sextets Hb) as (_ & _ & E5 & _).
  destruct (outer_sextets Hc) as (_ & R4 & _ & E6).
  do 4 eexists. split; [reflexivity|].
  repeat (split; [now apply char_at_in_chars|]).
  rewrite group_of_indices, !indexOf_char_at by assumption.
  now rewrite E1, E2, E3, E4, E5, E6.
Qed.

Lemma encode_from_spec len : forall n i rest,
  (length rest <= n)%nat ->
  (i + length rest = len)%nat ->
  Forall (fun v => 0 <= v < 256) rest ->
  length (encode_from len i rest) = (4 * ((length rest + 2) / 3))%nat
  /\ Forall (fun u => In u chars) (encode_from len i rest)
  /\ decode_codes (encode_from len i rest)
     = rest ++ repeat 0 ((3 - length rest mod 3) mod 3)%nat.
Proof.
  assert (H0 : 0 <= 0 < 256) by lia.
  induction n as [|n IH]; intros i rest Hn Hlen Hall.
  - destruct rest; [|simpl in Hn; lia].
    split; [reflexivity|]. split; [apply Forall_nil | reflexivity].
  - destruct rest as [|a [|b [|c later]]]; cbn [encode_from].
    + split; [reflexivity|]. split; [apply Forall_nil | reflexivity].
    + pose proof (Forall_inv Hall) as Ha. cbn [length] in *.
      destruct (@decode_quad len (i + 1) a 0 0 ltac:(lia) Ha H0 H0)
        as (x & y & z & t & -> & Hx & Hy & Hz & Ht & Hg).
      split; [reflexivity|]. split.
      * repeat (apply Forall_cons; [assumption|]). apply Forall_nil.
      * cbn [decode_codes]. rewrite Hg. reflexivity.
    + pose proof (Forall_inv Hall) as Ha.
      pose proof (Forall_inv (Forall_inv_tail Hall)) as Hb. cbn [length] in *.
      destruct (@decode_quad len (i + 2) a b 0 ltac:(lia) Ha Hb H0)
        as (x & y & z & t & -> & Hx & Hy & Hz & Ht & Hg).
      split; [reflexivity|]. split.
      * repeat (apply Forall_cons; [assumption|]). apply Forall_nil.
      * cbn [decode_codes]. rewrite Hg. reflexivity.
    + pose proof (Forall_inv Hall) as Ha.
      pose proof (Forall_inv (Forall_inv_tail Hall)) as Hb.
      pose proof (Forall_inv (Forall_inv_tail (Forall_inv_tail Hall))) as Hc.
      pose proof (Forall_inv_tail (Forall_inv_tail (Forall_inv_tail Hall)))
        as Hlater.
      cbn [length] in *.
      destruct (@decode_quad len (i + 3) a b c ltac:(lia) Ha Hb Hc)
        as (x & y & z & t & -> & Hx & Hy & Hz & Ht & Hg).
      destruct (IH (i + 3)%nat later ltac:(lia) ltac:(lia) Hlater)
        as (Hl & Hin & Hd).
      split; [|split].
      * cbn [app length]. rewrite Hl.
        replace (S (S (S (length later))) + 2)%nat
          with ((length later + 2) + 1 * 3)%nat by lia.
        rewrite Nat.div_add by lia. lia.
      * cbn [app]. repeat (apply Forall_cons; [assumption|]). assumption.
      * cbn [app decode_codes]. rewrite Hg, Hd. cbn [app].
        replace (S (S (S (length later)))) with (length later + 1 * 3)%nat by lia.
        now rewrite Nat.Div0.mod_add.
Qed.

Lemma store_of_code b : store_uint8 (fromCharCode (byte_value b)) = b.
Proof.
  unfold store_uint8, fromCharCode.
  pose proof (byte_value_range b) as Hr.
  rewrite Z.mod_small by lia. unfold byte_value. rewrite N2Z.id.
  pose proof (Byte.to_N_bounded b).
  rewrite N.mod_small by lia. now rewrite Byte.of_to_N.
Qed.

Lemma store_of_zero : store_uint8 (fromCharCode 0) = Byte.x00.
Proof. reflexivity. Qed.

Lemma store_of_minus_one : store_uint8 (fromCharCode (-1)) = Byte.xff.
Proof. reflexivity. Qed.

End Base64Facts.

(** X20.  On a runtime with neither [atob] nor [Buffer], [base64ToBytes]
    never fails and gives three bytes for each group of four units of its
    input, started or complete, whatever the units are: padding is not
    recognized and nothing is skipped. *)
Theorem X20_manual_decoder_three_bytes_per_group p base64 :
  atob p = None -> Buffer p = None ->
  exists bytes,
    base64ToBytes p base64 = Fulfilled bytes
    /\ length bytes = 3 * ((length base64 + 3) / 4).
Proof.
  intros Ha Hb. unfold base64ToBytes. rewrite Ha, Hb.
  eexists; split; [reflexivity|].
  unfold manual_decode. rewrite !length_map.
  now apply (decode_codes_length (n := length base64)).
Qed.

Lemma X20_witness :
  exists bytes,
    base64ToBytes bare (js "TWE=") = Fulfilled bytes
    /\ length bytes = 3 * ((length (js "TWE=") + 3) / 4).
Proof.
  apply (@X20_manual_decoder_three_bytes_per_group bare (js "TWE=")).
  - reflexivity.
  - reflexivity.
Defined.

(** X21.  On such a runtime a final group that ends with the padding
    sign does not decode to fewer bytes: after the bytes of the text
    before it, the group gives three bytes, the last of which is 255. *)
Theorem X21_manual_decoder_turns_padding_into_255 p body x y z :
  atob p = None -> Buffer p = None ->
  length body mod 4 = 0 ->
  exists front o1 o2,
    base64ToBytes p body = Fulfilled front
    /\ base64ToBytes p (body ++ [x; y; z; 61%N])
       = Fulfilled (front ++ [o1; o2; Byte.xff]).
Proof.
  intros Ha Hb Hm. unfold base64ToBytes. rewrite Ha, Hb.
  do 3 eexists. split; [reflexivity|]. f_equal.
  unfold manual_decode.
  rewrite (@decode_codes_app body [x; y; z; 61%N] Hm), !map_app. f_equal.
  cbn [decode_codes]. rewrite group_of_indices, app_nil_r. cbn [map].
  f_equal. f_equal. f_equal.
  change (indexOf (Some 61%N)) with (-1)%Z.
  rewrite Z.lor_m1_r. reflexivity.
Qed.

Lemma X21_witness :
  exists front o1 o2,
    base64ToBytes bare (js "TWFu") = Fulfilled front
    /\ base64ToBytes bare (js "TWFu" ++ [77; 81; 61; 61]%N)
       = Fulfilled (front ++ [o1; o2; Byte.xff]).
Proof.
  apply (@X21_manual_decoder_turns_padding_into_255 bare (js "TWFu") 77 81 61).
  - reflexivity.
  - reflexivity.
  - reflexivity.
Defined.

(** The key that [sign] decodes is written with two padding signs: the
    hand-written loop makes 66 bytes of it, not the 64 it encodes. *)
Example signing_key_on_a_bare_runtime :
  option_map (@length Byte.byte)
    (match base64ToBytes bare
             (js "oik6PdDdMnOXemTbwvMn9de/h9lFnfBaCWbGMMZqqoSaQaqUOqjVGm5NqsmjcBI1x+sS9ugjB55HEJWRiFXYFw==")
     with
     | Fulfilled bytes => Some bytes
     | _ => None
     end)
  = Some 66.
Proof. vm_compute. reflexivity. Qed.

(** X22.  On a runtime with neither [btoa] nor [Buffer], [bytesToBase64]
    never fails and gives four units of the alphabet for each group of
    three bytes, started or complete: the padding sign is never written. *)
Theorem X22_manual_encoder_never_pads p bytes :
  btoa p = None -> Buffer p = None ->
  exists text,
    bytesToBase64 p bytes = Fulfilled text
    /\ length text = 4 * ((length bytes + 2) / 3)
    /\ Forall (fun u => In u chars) text
    /\ ~ In 61%N text.
Proof.
  intros Ha Hb. unfold bytesToBase64. rewrite Ha, Hb.
  eexists; split; [reflexivity|].
  destruct (@encode_from_spec (length bytes) (length bytes) 0
              (map byte_value bytes))
    as (Hl & Hin & _).
  - now rewrite length_map.
  - now rewrite length_map.
  - apply Forall_forall. intros v Hv. apply in_map_iff in Hv as (b & <- & _).
    apply byte_value_range.
  - rewrite length_map in Hl. unfold manual_encode.
    split; [assumption|]. split; [assumption|].
    intros H. rewrite Forall_forall in Hin. specialize (Hin _ H).
    revert Hin. vm_compute. intuition discriminate.
Qed.

Lemma X22_witness :
  exists text,
    bytesToBase64 bare [Byte.x4d] = Fulfilled text
    /\ length text = 4 * ((length [Byte.x4d] + 2) / 3)
    /\ Forall (fun u => In u chars) text
    /\ ~ In 61%N text.
Proof.
  apply (@X22_manual_encoder_never_pads bare [Byte.x4d]).
  - reflexivity.
  - reflexivity.
Defined.

(** X23.  Round trip of the two hand-written loops.  On a runtime with
    none of [atob], [btoa], [Buffer], decoding what was encoded gives the
    bytes back followed by zero bytes up to a multiple of three: the bytes
    themselves exactly when their number is a multiple of three. *)
Theorem X23_manual_round_trip_adds_zero_bytes p bytes :
  atob p = None -> btoa p = None -> Buffer p = None ->
  exists text,
    bytesToBase64 p bytes = Fulfilled text
    /\ base64ToBytes p text
       = Fulfilled (bytes ++ repeat Byte.x00 ((3 - length bytes mod 3) mod 3)).
Proof.
  intros Ha Hb Hc. unfold bytesToBase64, base64ToBytes. rewrite Ha, Hb, Hc.
  eexists; split; [reflexivity|]. f_equal.
  destruct (@encode_from_spec (length bytes) (length bytes) 0
              (map byte_value bytes))
    as (_ & _ & Hd).
  - now rewrite length_map.
  - now rewrite length_map.
  - apply Forall_forall. intros v Hv. apply in_map_iff in Hv as (b & <- & _).
    apply byte_value_range.
  - unfold manual_decode, manual_encode. rewrite Hd, length_map, !map_app.
    f_equal.
    + rewrite !map_map. rewrite <- (map_id bytes) at 2.
      apply map_ext. intros b. apply store_of_code.
    + now rewrite !map_repeat.
Qed.

Lemma X23_witness :
  exists text,
    bytesToBase64 bare [Byte.x4d; Byte.x61] = Fulfilled text
    /\ base64ToBytes bare text
       = Fulfilled ([Byte.x4d; Byte.x61]
                      ++ repeat Byte.x00
                           ((3 - length [Byte.x4d; Byte.x61] mod 3) mod 3)).
Proof.
  apply (@X23_manual_round_trip_adds_zero_bytes bare [Byte.x4d; Byte.x61]).
  - reflexivity.
  - reflexivity.
  - reflexivity.
Defined.

(* ------------------------------------------------------------------ *)
(** ** The end of [cleanText] and what the chunker makes of it *)
(* ------------------------------------------------------------------ *)

Section CleaningFacts.

Lemma head_not_white_collapse s :
  match collapse_from true s with
  | [] => True
  | h :: _ => is_white h = false
  end.
Proof.
  induction s as [|c s IH]; simpl; [exact I|].
  destruct (is_white c) eqn:E; [assumption | simpl; assumption].
Qed.

Lemma single_spaced_collapse s : forall r,
  single_spaced (collapse_from r s) = true.
Proof.
  induction s as [|c s IH]; intros r; simpl; [reflexivity|].
  destruct (is_white c) eqn:E.
  - destruct r; [apply IH|].
    cbn [single_spaced]. change (is_white 32%N) with true. change ((32 =? 32)%N) with true. cbn [andb].
    rewrite IH, andb_true_r.
    pose proof (head_not_white_collapse s) as H.
    destruct (collapse_from true s); [reflexivity | now rewrite H].
  - cbn [single_spaced]. rewrite E. now rewrite IH.
Qed.

Lemma single_spaced_tail a b :
  single_spaced (a ++ b) = true -> single_spaced b = true.
Proof.
  induction a as [|c a IH]; simpl; [auto|].
  intros H. apply andb_prop in H as [_ H]. auto.
Qed.

Lemma single_spaced_front a b :
  single_spaced (a ++ b) = true -> single_spaced a = true.
Proof.
  induction a as [|c a IH]; simpl; [reflexivity|].
  intros H. apply andb_prop in H as [H1 H2]. rewrite (IH H2), andb_true_r.
  destruct (is_white c); [|reflexivity].
  apply andb_prop in H1 as [Hc Hn]. rewrite Hc. simpl.
  destruct a; [reflexivity | exact Hn].
Qed.

Lemma single_spaced_trim s :
  single_spaced s = true -> single_spaced (trim s) = true.
Proof.
  intros H. destruct (trim_split s) as (lead & trail & Hs & _).
  rewrite Hs in H. apply single_spaced_tail in H.
  now apply single_spaced_front in H.
Qed.

(** Collapsing changes nothing in a text that is already single-spaced
    (and, inside a run, does not start with white space). *)
Lemma collapse_single_spaced s : forall r,
  single_spaced s = true ->
  (r = true -> match s with [] => True | h :: _ => is_white h = false end) ->
  collapse_from r s = s.
Proof.
  induction s as [|c s IH]; intros r H Hr; simpl; [reflexivity|].
  simpl in H. apply andb_prop in H as [H1 H2].
  destruct (is_white c) eqn:E.
  - destruct r; [specialize (Hr eq_refl); simpl in Hr; congruence|].
    apply andb_prop in H1 as [Hc Hn]. apply N.eqb_eq in Hc. subst c.
    f_equal. apply IH; [assumption|]. intros _.
    destruct s; [exact I|]. now apply negb_true_iff in Hn.
  - f_equal. apply IH; [assumption | discriminate].
Qed.

Lemma finish_cleaning_trimmed flag s :
  trim (finish_cleaning flag s) = finish_cleaning flag s.
Proof. unfold finish_cleaning. apply trim_trim. Qed.

End CleaningFacts.

(** X24.  What [cleanText] returns is trimmed, so chunking it always
    comes back, whatever [chunk_size] is (0 included), and every chunk
    holds a unit that is not white space: after the last two stages of
    [cleanText] the chunker never reaches its slicing loop. *)
Theorem X24_chunking_cleaned_text_always_returns flag cleanedText maxLen :
  trim (finish_cleaning flag cleanedText) = finish_cleaning flag cleanedText
  /\ exists chunks,
      smartChunkText (finish_cleaning flag cleanedText) maxLen = Some chunks
      /\ chunks = greedy (finish_cleaning flag cleanedText) maxLen
      /\ Forall (fun c => content c <> []) chunks.
Proof.
  split; [apply finish_cleaning_trimmed|].
  pose proof (finish_cleaning_trimmed flag cleanedText) as Ht.
  destruct (finish_cleaning flag cleanedText) as [|c0 rest] eqn:E.
  - exists []. repeat split. constructor.
  - assert (Hc : content (c0 :: rest) <> [])
      by (apply trimmed_has_content; [discriminate | assumption]).
    exists (greedy (c0 :: rest) maxLen).
    split; [now apply smartChunkText_greedy|]. split; [reflexivity|].
    eapply Forall_impl; [|apply greedy_neat].
    intros c [Hne Htc]. now apply trimmed_has_content.
Qed.

(** X25.  With [remove_line_breaks] on, the text [cleanText] returns has
    no white space but single spaces between other units, none at either
    end, and running these last stages on it again changes nothing; with
    the switch off, the last stage alone is idempotent too. *)
Theorem X25_cleaned_text_is_single_spaced cleanedText flag :
  single_spaced (finish_cleaning true cleanedText) = true
  /\ trim (finish_cleaning true cleanedText) = finish_cleaning true cleanedText
  /\ finish_cleaning flag (finish_cleaning flag cleanedText)
     = finish_cleaning flag cleanedText.
Proof.
  assert (Hss : single_spaced (finish_cleaning true cleanedText) = true).
  { unfold finish_cleaning. apply single_spaced_trim.
    apply single_spaced_collapse. }
  split; [exact Hss|]. split; [apply finish_cleaning_trimmed|].
  destruct flag.
  - unfold finish_cleaning at 1. unfold collapse_white.
    rewrite collapse_single_spaced; [apply finish_cleaning_trimmed | exact Hss|].
    discriminate.
  - unfold finish_cleaning. apply trim_trim.
Qed.

(* ------------------------------------------------------------------ *)
(** ** The body of a streamed answer *)
(* ------------------------------------------------------------------ *)

Section StreamBody.

Variables (w : World) (chunks : list str) (concurrency : nat) (args : TtsArgs).

Hypothesis Hc : 1 <= concurrency.
Hypothesis Hsettle : all_settle w chunks concurrency = true.

Variable blobs : list Blob.
Hypothesis Hok : call_results w args chunks = map (@Fulfilled Blob) blobs.

Lemma accepted_writes_app a b :
  accepted_writes (a ++ b) = accepted_writes a ++ accepted_writes b.
Proof.
  induction a as [|ev a IH]; simpl; [reflexivity|].
  destruct ev as [| |k data [|]| |]; simpl; now rewrite ?IH.
Qed.

Lemma accepted_writes_calls (calls : list (nat * str)) i :
  accepted_writes (map (fun c => Synth (fst c) (snd c)) calls ++ [AwaitAll i]) = [].
Proof. induction calls as [|c calls IH]; simpl; auto. Qed.

Lemma accepted_writes_write_all k bl :
  accepted_writes (fst (write_all w k bl))
  = map snd (filter (fun c => sink_accepts w (fst c)) (numbered k bl)).
Proof.
  rewrite write_all_trace. generalize (numbered k bl) as l.
  induction l as [|c l IH]; [reflexivity|].
  cbn [map accepted_writes filter].
  destruct (sink_accepts w (fst c)); cbn [map]; now rewrite IH.
Qed.

Lemma pipe_windows_accepted : forall fuel i,
  length chunks - i <= fuel ->
  i mod concurrency = 0 ->
  let run := pipe_windows w chunks concurrency args fuel i in
  snd run = Returns tt
  /\ accepted_writes (fst run)
     = map snd (filter (fun c => sink_accepts w (fst c))
                       (skipn i (numbered 0 blobs))).
Proof.
  assert (Hlen : length blobs = length chunks)
    by (eapply length_blobs; eassumption).
  induction fuel as [|fuel IH]; intros i Hf Hmod; cbn [pipe_windows];
    loop_guard E; try lia.
  - split; [reflexivity|]. simpl.
    rewrite skipn_all2 by (rewrite length_numbered; lia). reflexivity.
  - split; [reflexivity|]. simpl.
    rewrite skipn_all2 by (rewrite length_numbered; lia). reflexivity.
  - rewrite (@bind_returns _ _ _ _ _
               (@window_fulfilled w chunks concurrency args Hc Hsettle blobs Hok
                  i E Hmod)).
    rewrite (@bind_returns _ _ _ _ _ (write_all_returns w i _)). cbn [fst snd].
    destruct (IH (i + concurrency) ltac:(lia)
                 (@next_window_start concurrency i Hmod))
      as (Hs & Hacc).
    split; [assumption|].
    rewrite !accepted_writes_app, accepted_writes_write_all, Hacc,
      dispatch_trace, accepted_writes_calls.
    cbn [app]. rewrite numbered_slice, <- map_app, <- filter_app.
    now rewrite slice_then_rest.
Qed.

Lemma accepted_all (l : list (nat * Blob)) :
  forallb (fun c => sink_accepts w (fst c)) l = true ->
  filter (fun c => sink_accepts w (fst c)) l = l.
Proof.
  induction l as [|c l IH]; simpl; [reflexivity|].
  intros H. apply andb_prop in H as [H1 H2]. rewrite H1. f_equal. auto.
Qed.

Lemma map_snd_numbered {A} (l : list A) : forall k, map snd (numbered k l) = l.
Proof.
  induction l as [|x l IH]; intros k; [reflexivity|].
  rewrite numbered_cons. simpl. now rewrite IH.
Qed.

End StreamBody.

(** X26.  When every call fulfils, [streamVoice] answers 200 with a body
    that holds the audio of the chunks whose write the sink took, in
    chunk order, each once; when the sink takes every write the body is
    the audio of all chunks in order. *)
Theorem X26_streamed_body_is_the_accepted_audio_in_order
        w chunks concurrency args blobs :
  1 <= concurrency ->
  all_settle w chunks concurrency = true ->
  call_results w args chunks = map (@Fulfilled Blob) blobs ->
  snd (streamVoice w chunks concurrency args)
  = Returns (audioResponse (AudioStream (map snd (accepted_of w blobs))))
  /\ (if forallb (fun c => sink_accepts w (fst c)) (numbered 0 blobs)
      then snd (streamVoice w chunks concurrency args)
           = Returns (audioResponse (AudioStream blobs))
      else True).
Proof.
  intros Hc Hsettle Hok.
  destruct (@pipe_windows_accepted w chunks concurrency args Hc Hsettle blobs Hok
              (length chunks) 0 ltac:(lia) (Nat.Div0.mod_0_l _)) as [Hs Hacc].
  assert (Hbody : snd (streamVoice w chunks concurrency args)
    = Returns (audioResponse (AudioStream (map snd (accepted_of w blobs))))).
  { unfold streamVoice, pipeChunksToStream, try_finally, try_catch, bind, emit,
      ret, accepted_of.
    destruct (pipe_windows w chunks concurrency args (length chunks) 0)
      as [tr o].
    cbn [fst snd] in *. subst o. cbn [fst snd app].
    rewrite accepted_writes_app, Hacc. cbn [skipn accepted_writes].
    now rewrite app_nil_r. }
  split; [exact Hbody|].
  destruct (forallb _ _) eqn:Hall; [|exact I].
  rewrite Hbody. unfold accepted_of.
  now rewrite (accepted_all _ _ Hall), map_snd_numbered.
Qed.

Lemma X26_witness :
  snd (streamVoice (obliging (fun k => negb (k =? 1)))
         [js "a"; js "b"; js "c"] 2 sample_args)
  = Returns (audioResponse (AudioStream
      (map snd (accepted_of (obliging (fun k => negb (k =? 1)))
                  (map audio_for [js "a"; js "b"; js "c"])))))
  /\ (if forallb (fun c => sink_accepts (obliging (fun k => negb (k =? 1))) (fst c))
            (numbered 0 (map audio_for [js "a"; js "b"; js "c"]))
      then snd (streamVoice (obliging (fun k => negb (k =? 1)))
                  [js "a"; js "b"; js "c"] 2 sample_args)
           = Returns (audioResponse (AudioStream
               (map audio_for [js "a"; js "b"; js "c"])))
      else True).
Proof.
  apply (@X26_streamed_body_is_the_accepted_audio_in_order
           (obliging (fun k => negb (k =? 1)))
           [js "a"; js "b"; js "c"] 2 sample_args
           (map audio_for [js "a"; js "b"; js "c"])).
  - lia.
  - reflexivity.
  - reflexivity.
Defined.

(* ------------------------------------------------------------------ *)
(** ** [getSsml]: escaping and pause tags *)
(* ------------------------------------------------------------------ *)

Section SsmlFacts.

(** Every alternative of the pattern starts with the opening bracket. *)
Lemma no_tag_without_bracket c rest :
  c <> 60%N -> break_tag_at (c :: rest) = None.
Proof.
  intros Hc.
  assert (H : literal (js "<break") (c :: rest) = None).
  { change (js "<break") with (60%N :: js "break"). cbn [literal].
    destruct (fold_case 60%N =? fold_case c)%N eqn:E; [|reflexivity].
    exfalso. apply N.eqb_eq in E. change (fold_case 60%N) with 60%N in E.
    unfold fold_case in E.
    destruct ((97 <=? c) && (c <=? 122))%N eqn:R; [|congruence].
    apply andb_prop in R as [R1 R2]. apply N.leb_le in R1. lia. }
  unfold break_tag_at, timed, untimed. now rewrite H.
Qed.

Lemma free_of_cons avoid c s :
  free_of avoid (c :: s) = true ->
  (forall a, In a avoid -> c <> a) /\ free_of avoid s = true.
Proof.
  unfold free_of. cbn [forallb]. intros H. apply andb_prop in H as [H1 H2].
  split; [|exact H2]. intros a Ha ->.
  apply negb_true_iff in H1.
  assert (existsb (N.eqb a) avoid = true)
    by (apply existsb_exists; exists a; split; [assumption | apply N.eqb_refl]).
  congruence.
Qed.

Lemma free_of_iff avoid s :
  free_of avoid s = true <-> (forall c a, In c s -> In a avoid -> c <> a).
Proof.
  unfold free_of. rewrite forallb_forall. split.
  - intros H c a Hc Ha ->. specialize (H a Hc). apply negb_true_iff in H.
    assert (existsb (N.eqb a) avoid = true)
      by (apply existsb_exists; exists a; split; [assumption | apply N.eqb_refl]).
    congruence.
  - intros H c Hc. apply negb_true_iff.
    destruct (existsb (N.eqb c) avoid) eqn:E; [|reflexivity].
    apply existsb_exists in E as (a & Ha & Heq). apply N.eqb_eq in Heq.
    exfalso. now apply (H c a).
Qed.

Lemma free_of_fewer small big s :
  incl small big -> free_of big s = true -> free_of small s = true.
Proof.
  intros Hi H. rewrite free_of_iff in *. intros c a Hc Ha.
  apply H; [assumption | now apply Hi].
Qed.

Lemma free_of_bracket_no_tag s :
  free_of [60%N] s = true -> no_break_tag s = true.
Proof.
  induction s as [|c s IH]; [reflexivity|].
  intros H. apply free_of_cons in H as [Hc Hs].
  cbn [no_break_tag]. rewrite no_tag_without_bracket; [auto|].
  apply Hc. now left.
Qed.

Lemma protect_plain s : forall count,
  no_break_tag s = true -> protect_from 0 count s = (s, []).
Proof.
  induction s as [|c s IH]; intros count H; [reflexivity|].
  cbn [no_break_tag] in H. cbn [protect_from].
  destruct (break_tag_at (c :: s)); [discriminate|].
  now rewrite IH.
Qed.

Lemma protect_skip t : forall count r,
  protect_from (length t) count (t ++ r) = protect_from 0 count r.
Proof.
  induction t as [|c t IH]; intros count r; [reflexivity|].
  cbn [length app protect_from]. apply IH.
Qed.

Lemma protect_before pre : forall count r,
  free_of [60%N] pre = true ->
  protect_from 0 count (pre ++ r)
  = (pre ++ fst (protect_from 0 count r), snd (protect_from 0 count r)).
Proof.
  induction pre as [|c pre IH]; intros count r H.
  - cbn [app]. now destruct (protect_from 0 count r).
  - apply free_of_cons in H as [Hc Hs].
    cbn [app protect_from].
    rewrite no_tag_without_bracket by (apply Hc; now left).
    rewrite (IH count r Hs). reflexivity.
Qed.

Lemma protect_one_tag pre tag post :
  free_of [60%N] pre = true ->
  free_of [60%N] post = true ->
  break_tag_at (tag ++ post) = Some post ->
  protect (pre ++ tag ++ post) = (pre ++ placeholder 0 ++ post, [tag]).
Proof.
  intros Hpre Hpost Htag. unfold protect.
  rewrite (@protect_before pre 0 (tag ++ post) Hpre).
  assert (Hplain : forall count, protect_from 0 count post = (post, []))
    by (intros count; apply protect_plain; now apply free_of_bracket_no_tag).
  destruct tag as [|c t].
  - exfalso. cbn [app] in Htag.
    destruct post as [|d post]; [discriminate Htag|].
    apply free_of_cons in Hpost as [Hd _].
    rewrite no_tag_without_bracket in Htag by (apply Hd; now left).
    discriminate.
  - cbn [app protect_from]. change (c :: t ++ post) with ((c :: t) ++ post).
    rewrite Htag.
    replace (length ((c :: t) ++ post) - length post) with (S (length t))
      by (rewrite length_app; cbn [length]; lia).
    cbn [Nat.sub]. rewrite Nat.sub_0_r, protect_skip, Hplain. cbn [fst snd].
    f_equal. f_equal.
    change (S (length t)) with (length (c :: t)).
    rewrite firstn_app, Nat.sub_diag, firstn_all. cbn [firstn].
    now rewrite app_nil_r.
Qed.

Lemma replace_unit_app u by_ a b :
  replace_unit u by_ (a ++ b) = replace_unit u by_ a ++ replace_unit u by_ b.
Proof.
  induction a as [|c a IH]; [reflexivity|].
  cbn [app replace_unit]. destruct (c =? u)%N; rewrite IH.
  - now rewrite app_assoc.
  - reflexivity.
Qed.

Lemma sanitize_app a b : sanitize (a ++ b) = sanitize a ++ sanitize b.
Proof. unfold sanitize. now rewrite !replace_unit_app. Qed.

Lemma sanitize_unit c : sanitize [c] = entity c.
Proof.
  unfold sanitize, entity. cbn [replace_unit].
  destruct (N.eqb_spec c 38%N) as [->|H38]; [reflexivity|].
  cbn [replace_unit].
  destruct (N.eqb_spec c 60%N) as [->|H60]; [reflexivity|].
  cbn [replace_unit].
  destruct (N.eqb_spec c 62%N) as [->|H62]; reflexivity.
Qed.

(** The three replacements in a row are one simultaneous replacement:
    the ampersand of an entity is not escaped again. *)
Lemma sanitize_escaped s : sanitize s = escaped s.
Proof.
  induction s as [|c s IH]; [reflexivity|].
  change (c :: s) with ([c] ++ s).
  rewrite sanitize_app, sanitize_unit, IH. reflexivity.
Qed.

Lemma entity_free avoid c :
  free_of avoid (js "&amp;") = true ->
  free_of avoid (js "&lt;") = true ->
  free_of avoid (js "&gt;") = true ->
  free_of avoid [c] = true ->
  free_of avoid (entity c) = true.
Proof.
  intros. unfold entity.
  destruct (c =? 38)%N; [assumption|].
  destruct (c =? 60)%N; [assumption|].
  destruct (c =? 62)%N; assumption.
Qed.

Lemma free_of_app avoid a b :
  free_of avoid (a ++ b) = free_of avoid a && free_of avoid b.
Proof. unfold free_of. apply forallb_app. Qed.

Lemma escaped_free avoid s :
  free_of avoid (js "&amp;") = true ->
  free_of avoid (js "&lt;") = true ->
  free_of avoid (js "&gt;") = true ->
  free_of avoid s = true ->
  free_of avoid (escaped s) = true.
Proof.
  intros A1 A2 A3. induction s as [|c s IH]; [reflexivity|].
  intros H. unfold escaped. cbn [flat_map]. rewrite free_of_app.
  assert (Hc : free_of avoid [c] = true).
  { unfold free_of in *. cbn [forallb] in *.
    apply andb_prop in H as [-> _]. reflexivity. }
  assert (Hs : free_of avoid s = true).
  { unfold free_of in *. cbn [forallb] in H. now apply andb_prop in H as [_ ->]. }
  rewrite (@entity_free avoid c A1 A2 A3 Hc). now apply IH.
Qed.

(** What is left of the markup signs: no bracket at all. *)
Lemma escaped_no_bracket s : free_of [60; 62]%N (escaped s) = true.
Proof.
  induction s as [|c s IH]; [reflexivity|].
  unfold escaped. cbn [flat_map]. rewrite free_of_app.
  fold (escaped s). rewrite IH, andb_true_r.
  unfold entity.
  destruct (N.eqb_spec c 38%N); [reflexivity|].
  destruct (N.eqb_spec c 60%N) as [|H60]; [reflexivity|].
  destruct (N.eqb_spec c 62%N) as [|H62]; [reflexivity|].
  unfold free_of. cbn [forallb existsb].
  apply N.eqb_neq in H60, H62. now rewrite H60, H62.
Qed.

(** Escaping loses nothing: texts that differ stay different. *)
Lemma escaped_injective a : forall b, escaped a = escaped b -> a = b.
Proof.
  induction a as [|c a IH]; intros [|d b] H.
  - reflexivity.
  - exfalso. unfold escaped in H. cbn [flat_map] in H. unfold entity in H.
    destruct (d =? 38)%N; [discriminate|].
    destruct (d =? 60)%N; [discriminate|].
    destruct (d =? 62)%N; discriminate.
  - exfalso. unfold escaped in H. cbn [flat_map] in H. unfold entity in H.
    destruct (c =? 38)%N; [discriminate|].
    destruct (c =? 60)%N; [discriminate|].
    destruct (c =? 62)%N; discriminate.
  - unfold escaped in H. cbn [flat_map] in H. fold (escaped a) in H.
    fold (escaped b) in H. unfold entity in H.
    destruct (N.eqb_spec c 38%N) as [->|C38];
      [|destruct (N.eqb_spec c 60%N) as [->|C60];
        [|destruct (N.eqb_spec c 62%N) as [->|C62]]];
    (destruct (N.eqb_spec d 38%N) as [->|D38];
      [|destruct (N.eqb_spec d 60%N) as [->|D60];
        [|destruct (N.eqb_spec d 62%N) as [->|D62]]]);
    cbn [js app N_of_ascii N.add N.mul] in H;
    try discriminate H;
    injection H; intros; try congruence;
    f_equal; try congruence; apply IH; assumption.
Qed.

Lemma find_here pattern rest : find pattern (pattern ++ rest) = Some ([], rest).
Proof.
  assert (Hs : starts_with pattern (pattern ++ rest) = true)
    by (apply starts_with_iff; eauto).
  destruct (pattern ++ rest) eqn:E; cbn [find]; rewrite Hs; rewrite <- E;
    now rewrite skipn_app, skipn_all, Nat.sub_diag.
Qed.

Lemma find_after a : forall h pattern rest,
  free_of [h] a = true ->
  find (h :: pattern) (a ++ (h :: pattern) ++ rest) = Some (a, rest).
Proof.
  induction a as [|c a IH]; intros h pattern rest H.
  - apply (find_here (h :: pattern) rest).
  - apply free_of_cons in H as [Hc Ha].
    cbn [app find starts_with].
    assert (Hne : (h =? c)%N = false)
      by (apply N.eqb_neq; intros ->; apply (Hc c); [now left | reflexivity]).
    rewrite Hne. cbn [andb].
    change (a ++ h :: pattern ++ rest) with (a ++ (h :: pattern) ++ rest).
    now rewrite IH.
Qed.

Lemma substitute_plain before matched after template :
  free_of [36%N] template = true ->
  substitute before matched after template = template.
Proof.
  induction template as [|c template IH]; [reflexivity|].
  intros H. apply free_of_cons in H as [Hc Ht].
  cbn [substitute].
  assert (Hne : (c =? 36)%N = false)
    by (apply N.eqb_neq; apply Hc; now left).
  rewrite Hne. f_equal. now apply IH.
Qed.

Lemma placeholder_sanitized : sanitize (placeholder 0) = placeholder 0.
Proof. reflexivity. Qed.

Lemma document_inner v r p s x y : document v r p s x = document v r p s y -> x = y.
Proof.
  unfold document. intros H.
  repeat match type of H with
         | ?a ++ _ = ?a ++ _ => apply app_inv_head in H
         end.
  now apply app_inv_tail in H.
Qed.

End SsmlFacts.

(** X27.  A text in which no pause tag is recognized is escaped as a
    whole: the three replacements act as one, so an ampersand written by
    the escaping is not escaped again, and the text part of the document
    holds no angle bracket. *)
Theorem X27_text_without_tags_is_escaped_once text voiceName rate pitch style :
  no_break_tag text = true ->
  getSsml text voiceName rate pitch style
  = document voiceName rate pitch style (escaped text)
  /\ final_text text = flat_map entity text
  /\ free_of [60; 62]%N (final_text text) = true.
Proof.
  intros H.
  assert (Hf : final_text text = escaped text).
  { unfold final_text, protect. rewrite (@protect_plain text 0 H).
    unfold restore. cbn [numbered length seq combine fold_left].
    apply sanitize_escaped. }
  unfold getSsml. rewrite Hf. split; [reflexivity|]. split; [reflexivity|].
  apply escaped_no_bracket.
Qed.

Lemma X27_witness :
  getSsml (js "5 > 3 && 2 < 4") (js "en-US-AriaNeural") (js "+0") (js "+0")
    (js "general")
  = document (js "en-US-AriaNeural") (js "+0") (js "+0") (js "general")
      (escaped (js "5 > 3 && 2 < 4"))
  /\ final_text (js "5 > 3 && 2 < 4") = flat_map entity (js "5 > 3 && 2 < 4")
  /\ free_of [60; 62]%N (final_text (js "5 > 3 && 2 < 4")) = true.
Proof.
  apply (@X27_text_without_tags_is_escaped_once (js "5 > 3 && 2 < 4")
           (js "en-US-AriaNeural") (js "+0") (js "+0") (js "general")).
  reflexivity.
Defined.

(** X28.  Escaping loses nothing: two texts without pause tags that give
    the same document (same voice, rate, pitch and style) are the same
    text. *)
Theorem X28_distinct_texts_give_distinct_documents
        a b voiceName rate pitch style :
  no_break_tag a = true ->
  no_break_tag b = true ->
  getSsml a voiceName rate pitch style = getSsml b voiceName rate pitch style ->
  a = b.
Proof.
  intros Ha Hb H. unfold getSsml in H. apply document_inner in H.
  unfold final_text, protect in H.
  rewrite (@protect_plain a 0 Ha), (@protect_plain b 0 Hb) in H.
  unfold restore in H. cbn [numbered length seq combine fold_left] in H.
  rewrite !sanitize_escaped in H. now apply escaped_injective.
Qed.

Lemma X28_witness : js "a&lt;b" = js "a&lt;b".
Proof.
  apply (@X28_distinct_texts_give_distinct_documents (js "a&lt;b") (js "a&lt;b")
           (js "v") (js "0") (js "0") (js "general")).
  - reflexivity.
  - reflexivity.
  - reflexivity.
Defined.

(** X29.  A pause tag is kept as written while the text around it is
    escaped: for a text made of a part without opening bracket or
    underscore, a tag the pattern recognizes that holds no dollar sign,
    and a part without opening bracket, the text of the document is the
    escaped first part, the tag, the escaped last part. *)
Theorem X29_pause_tag_is_kept_verbatim
        pre tag post voiceName rate pitch style :
  free_of [60; 95]%N pre = true ->
  free_of [60%N] post = true ->
  break_tag_at (tag ++ post) = Some post ->
  free_of [36%N] tag = true ->
  getSsml (pre ++ tag ++ post) voiceName rate pitch style
  = document voiceName rate pitch style (escaped pre ++ tag ++ escaped post).
Proof.
  intros Hpre Hpost Htag Hdollar.
  assert (Hpre60 : free_of [60%N] pre = true).
  { apply (@free_of_fewer [60%N] [60; 95]%N); [|assumption].
    intros x [<-|[]]. now left. }
  assert (Hpre95 : free_of [95%N] (escaped pre) = true).
  { apply escaped_free; try reflexivity.
    apply (@free_of_fewer [95%N] [60; 95]%N); [|assumption].
    intros x [<-|[]]. right. now left. }
  unfold getSsml. f_equal.
  unfold final_text. rewrite (@protect_one_tag pre tag post Hpre60 Hpost Htag).
  rewrite !sanitize_app, placeholder_sanitized, !sanitize_escaped.
  unfold restore. cbn [numbered length seq combine fold_left fst snd].
  unfold replace_first.
  assert (Hfind : find (placeholder 0)
                    (escaped pre ++ placeholder 0 ++ escaped post)
                  = Some (escaped pre, escaped post))
    by exact (@find_after (escaped pre) 95%N (tl (placeholder 0))
                (escaped post) Hpre95).
  rewrite Hfind. now rewrite substitute_plain.
Qed.

Lemma X29_witness :
  getSsml (js "Tom & Jerry" ++ js "<break time='500ms'/>" ++ js " 1 > 0")
    (js "v") (js "0") (js "0") (js "general")
  = document (js "v") (js "0") (js "0") (js "general")
      (escaped (js "Tom & Jerry") ++ js "<break time='500ms'/>"
       ++ escaped (js " 1 > 0")).
Proof.
  apply (@X29_pause_tag_is_kept_verbatim (js "Tom & Jerry")
           (js "<break time='500ms'/>") (js " 1 > 0")
           (js "v") (js "0") (js "0") (js "general")).
  - reflexivity.
  - reflexivity.
  - reflexivity.
  - reflexivity.
Defined.

(** X30.  The marker is not reserved.  When the text itself holds
    [__BREAK_TAG_0__] before its only pause tag, the tag is restored at
    the place of that written marker, and the marker the scan put at the
    place of the tag stays in the document. *)
Theorem X30_written_marker_takes_the_tag
        pre mid tag post voiceName rate pitch style :
  free_of [60; 95]%N pre = true ->
  free_of [60%N] mid = true ->
  free_of [60%N] post = true ->
  break_tag_at (tag ++ post) = Some post ->
  free_of [36%N] tag = true ->
  getSsml (pre ++ placeholder 0 ++ mid ++ tag ++ post) voiceName rate pitch style
  = document voiceName rate pitch style
      (escaped pre ++ tag ++ escaped mid ++ placeholder 0 ++ escaped post).
Proof.
  intros Hpre Hmid Hpost Htag Hdollar.
  assert (Hpre60 : free_of [60%N] pre = true).
  { apply (@free_of_fewer [60%N] [60; 95]%N); [|assumption].
    intros x [<-|[]]. now left. }
  assert (Hpre95 : free_of [95%N] (escaped pre) = true).
  { apply escaped_free; try reflexivity.
    apply (@free_of_fewer [95%N] [60; 95]%N); [|assumption].
    intros x [<-|[]]. right. now left. }
  assert (Hfront : free_of [60%N] (pre ++ placeholder 0 ++ mid) = true).
  { rewrite !free_of_app, Hpre60, Hmid. reflexivity. }
  unfold getSsml. f_equal. unfold final_text.
  replace (pre ++ placeholder 0 ++ mid ++ tag ++ post)
    with ((pre ++ placeholder 0 ++ mid) ++ tag ++ post)
    by (now rewrite <- !app_assoc).
  rewrite (@protect_one_tag (pre ++ placeholder 0 ++ mid) tag post
             Hfront Hpost Htag).
  rewrite !sanitize_app, placeholder_sanitized, !sanitize_escaped.
  unfold restore. cbn [numbered length seq combine fold_left fst snd].
  unfold replace_first. rewrite <- !app_assoc.
  assert (Hfind : find (placeholder 0)
                    (escaped pre ++ placeholder 0
                     ++ escaped mid ++ placeholder 0 ++ escaped post)
                  = Some (escaped pre,
                          escaped mid ++ placeholder 0 ++ escaped post))
    by exact (@find_after (escaped pre) 95%N (tl (placeholder 0))
                (escaped mid ++ placeholder 0 ++ escaped post) Hpre95).
  rewrite Hfind. now rewrite substitute_plain.
Qed.

Lemma X30_witness :
  getSsml (js "say " ++ placeholder 0 ++ js " then" ++ js "<break/>" ++ js " go")
    (js "v") (js "0") (js "0") (js "general")
  = document (js "v") (js "0") (js "0") (js "general")
      (escaped (js "say ") ++ js "<break/>" ++ escaped (js " then")
       ++ placeholder 0 ++ escaped (js " go")).
Proof.
  apply (@X30_written_marker_takes_the_tag (js "say ") (js " then")
           (js "<break/>") (js " go") (js "v") (js "0") (js "0") (js "general")).
  - reflexivity.
  - reflexivity.
  - reflexivity.
  - reflexivity.
  - reflexivity.
Defined.
